(** * Decantra background-visibility gates: a shallow embedding

    This development embeds [tools/verify_background_visibility.py] -- the
    multi-gate evaluation engine of the Decantra screenshot verifier -- and
    proves the properties its specification states about ROI resolution,
    the gates A-F and the orchestrator.

    Modelling conventions.
    - Python [int] is [Z]; array shapes are [nat].
    - Python and numpy floating-point scalars are modelled as exact
      rationals ([Q]); every threshold keeps its decimal literal.  The
      luminance of a pixel and the frame difference of Gate E are
      computed in single precision, as numpy does on [np.float32]
      arrays: each product, sum and difference is rounded to the nearest
      float32.  The L2 normalisation of Gate F needs a square root and
      is carried out over the reals ([R]) on the integer bin counts.
    - A numpy 2-D array is a shape together with an accessor; slicing
      follows Python's index normalisation, so a slice never raises.
    - Python exceptions are values of [exn] in the error monad [result].
    - [cv2.GaussianBlur] and [Image.open] are external collaborators and
      enter as section variables. *)

From Stdlib Require Import String Ascii DecimalString.
From Stdlib Require Import Reals Lra.
From Stdlib Require Import ZArith QArith Qpower Qround Qabs Qreals Lqa Lia List Bool.
From Stdlib Require Sorted Permutation DecimalPos.
Import ListNotations.

Local Open Scope string_scope.
Local Open Scope list_scope.
Local Open Scope Z_scope.
Local Open Scope Q_scope.

(** ** Exceptions *)

Inductive exn : Type :=
| IndexError
| KeyError (key : Z)
| ZeroDivisionError
| ValueError (msg : string).

Inductive result (A : Type) : Type :=
| Ok (a : A)
| Raise (e : exn).

Arguments Ok {A} a.
Arguments Raise {A} e.

Definition bind {A B : Type} (c : result A) (k : A -> result B) : result B :=
  match c with
  | Ok a => k a
  | Raise e => Raise e
  end.

Notation "x <- c ;; k" := (bind c (fun x => k))
  (at level 61, c at next level, right associativity).
Notation "' p <- c ;; k" := (bind c (fun p => k))
  (at level 61, p pattern, c at next level, right associativity).

(** ** Python scalar primitives *)

(** [round(x)] on a float: nearest integer, ties to the even neighbour. *)
Definition py_round (q : Q) : Z :=
  let f := Qfloor q in
  match Qcompare (q - inject_Z f) 0.5 with
  | Lt => f
  | Gt => (f + 1)%Z
  | Eq => if Z.even f then f else (f + 1)%Z
  end.

(** [max(a, b)]: the first argument unless the second is strictly larger. *)
Definition py_max (a b : Q) : Q := if Qlt_le_dec a b then b else a.

(** [a / b] on Python floats. *)
Definition py_div (a b : Q) : result Q :=
  if Qeq_bool b 0 then Raise ZeroDivisionError else Ok (a / b).

(** [a >= b] *)
Definition Qge_bool (a b : Q) : bool := Qle_bool b a.

(** ** Single precision

    A [np.float32] value is the rational number it stands for.  The
    arithmetic of numpy on such values is correctly rounded: the exact
    result is rounded to the nearest number with 24 significant bits, ties
    to the even significand.  The values of this program stay far below
    the overflow threshold [2 ^ 128]. *)

(** [floor(log2(a))] for [a > 0]. *)
Definition Qlog2 (a : Q) : Z :=
  let k := (Z.log2 (Qnum a) - Z.log2 (Z.pos (Qden a)))%Z in
  if Qle_bool (2 ^ k) a then k else (k - 1)%Z.

(** The exponent of the last significant bit of the float32 numbers
    around [a > 0]; the subnormal numbers share the exponent -149. *)
Definition f32_exponent (a : Q) : Z := Z.max (-149) (Qlog2 a - 23).

(** Rounding to the nearest float32. *)
Definition f32_round (q : Q) : Q :=
  match q ?= 0 with
  | Eq => 0
  | Gt =>
      let e := f32_exponent q in
      inject_Z (py_round (q / 2 ^ e)) * 2 ^ e
  | Lt =>
      let e := f32_exponent (- q) in
      - (inject_Z (py_round (- q / 2 ^ e)) * 2 ^ e)
  end.

(** [a * b], [a + b] and [a - b] on [np.float32] values. *)
Definition f32_mul (a b : Q) : Q := f32_round (a * b).
Definition f32_add (a b : Q) : Q := f32_round (a + b).
Definition f32_sub (a b : Q) : Q := f32_round (a - b).

Definition Qsum (l : list Q) : Q := fold_left Qplus l 0.

(** [np.mean] of a non-empty collection. *)
Definition np_mean (l : list Q) : Q := Qsum l / inject_Z (Z.of_nat (length l)).

(** ** numpy arrays *)

Record ndarray (A : Type) : Type := mk_ndarray {
  nrows : nat;
  ncols : nat;
  at_ : nat -> nat -> A
}.

Arguments mk_ndarray {A} nrows ncols at_.
Arguments nrows {A} n.
Arguments ncols {A} n.
Arguments at_ {A} n y x.

(** [arr.size] *)
Definition size {A} (a : ndarray A) : nat := (nrows a * ncols a)%nat.

(** Row-major enumeration of the elements. *)
Definition flatten {A} (a : ndarray A) : list A :=
  flat_map (fun y => map (at_ a y) (seq 0 (ncols a))) (seq 0 (nrows a)).

(** Normalisation of one bound of a slice over an axis of length [n]. *)
Definition slice_bound (i : Z) (n : nat) : nat :=
  Z.to_nat (if (i <? 0)%Z then Z.max 0 (i + Z.of_nat n) else Z.min i (Z.of_nat n)).

(** [arr[y0:y1, x0:x1]] *)
Definition slice2 {A} (a : ndarray A) (y0 y1 x0 x1 : Z) : ndarray A :=
  let ys := slice_bound y0 (nrows a) in
  let ye := slice_bound y1 (nrows a) in
  let xs := slice_bound x0 (ncols a) in
  let xe := slice_bound x1 (ncols a) in
  mk_ndarray (ye - ys) (xe - xs) (fun y x => at_ a (ys + y) (xs + x))%nat.

(** Normalisation of one index of [arr[y, x]] over an axis of length [n]. *)
Definition index_bound (i : Z) (n : nat) : result nat :=
  let j := if (i <? 0)%Z then (i + Z.of_nat n)%Z else i in
  if ((0 <=? j) && (j <? Z.of_nat n))%Z then Ok (Z.to_nat j) else Raise IndexError.

(** [arr[y, x]] *)
Definition item {A} (a : ndarray A) (y x : Z) : result A :=
  yi <- index_bound y (nrows a) ;;
  xi <- index_bound x (ncols a) ;;
  Ok (at_ a yi xi).

Definition arr_map {A B} (f : A -> B) (a : ndarray A) : ndarray B :=
  mk_ndarray (nrows a) (ncols a) (fun y x => f (at_ a y x)).

(** The length of one axis of the result of a binary operation of numpy
    on axes of lengths [n] and [m]: the lengths agree, or the axis of
    length 1 is repeated; numpy raises [ValueError] otherwise. *)
Definition broadcast_dim (n m : nat) : result nat :=
  if (n =? m)%nat then Ok n
  else if (m =? 1)%nat then Ok n
  else if (n =? 1)%nat then Ok m
  else Raise (ValueError "operands could not be broadcast together").

(** The index into an axis of length [n] that stands for the index [i]
    of the result. *)
Definition broadcast_index (n i : nat) : nat := if (n =? 1)%nat then O else i.

(** Element-wise [b - a] of two [np.float32] arrays. *)
Definition arr_sub (b a : ndarray Q) : result (ndarray Q) :=
  h <- broadcast_dim (nrows b) (nrows a) ;;
  w <- broadcast_dim (ncols b) (ncols a) ;;
  Ok (mk_ndarray h w
        (fun y x =>
           f32_sub
             (at_ b (broadcast_index (nrows b) y) (broadcast_index (ncols b) x))
             (at_ a (broadcast_index (nrows a) y) (broadcast_index (ncols a) x)))).

(** [np.sum(region >= t)] *)
Definition count_ge (region : ndarray Q) (t : Q) : Z :=
  fold_left (fun acc v => if Qge_bool v t then (acc + 1)%Z else acc) (flatten region) 0%Z.

(** Insertion sort, standing for numpy's sort of the flattened data. *)
Fixpoint insert_sorted (v : Q) (l : list Q) : list Q :=
  match l with
  | [] => [v]
  | h :: t => if Qle_bool v h then v :: l else h :: insert_sorted v t
  end.

Definition sort (l : list Q) : list Q := fold_right insert_sorted [] l.

(** The linear interpolation of [np.percentile] on the sorted data [s]:
    the virtual index [(n - 1) * q / 100] is split into its floor and its
    fractional part [g], and the result is [s[lo] + (s[hi] - s[lo]) * g]. *)
Definition lerp_at (s : list Q) (q : Q) : Q :=
  let n := length s in
  let virt := inject_Z (Z.of_nat (n - 1)) * q / 100 in
  let lo := Z.to_nat (Qfloor virt) in
  let hi := Nat.min (lo + 1) (n - 1) in
  let g := virt - inject_Z (Qfloor virt) in
  nth lo s 0 + (nth hi s 0 - nth lo s 0) * g.

(** [np.percentile(a, q)] with the default method; numpy yields no value
    on an empty array. *)
Definition percentile (a : ndarray Q) (q : Q) : result Q :=
  let s := sort (flatten a) in
  match s with
  | [] => Raise IndexError
  | _ => Ok (lerp_at s q)
  end.

(** ** Data model *)

Record rgb : Type := mk_rgb { red : Byte.byte; green : Byte.byte; blue : Byte.byte }.

Definition PixelBuffer : Type := ndarray rgb.
Definition LumaField : Type := ndarray Q.

(** [np.array([0.2126, 0.7152, 0.0722], dtype=np.float32)] *)
Definition LUMA_WEIGHTS : Q * Q * Q :=
  (f32_round 0.2126, f32_round 0.7152, f32_round 0.0722).

Definition GATE_A_CONTRAST_MIN : Q := 0.35.
Definition GATE_B_TRANSITION_RATIO : Q := 0.35.
Definition GATE_B_TOTAL_TRANSITIONS_MIN : Z := 12.
Definition GATE_B_ROI_TRANSITIONS_MIN : Z := 4.
Definition GATE_C_STAR_LUMA_MIN : Q := 200.
Definition GATE_C_STAR_DENSITY_MIN : Q := 0.0005.
Definition GATE_D_P50_MIN : Q := 14.
Definition GATE_D_P05_MIN : Q := 6.
Definition GATE_E_MOTION_DELTA_MIN : Q := 2.
Definition GATE_E_MOVING_RATIO_MIN : Q := 0.002.
Definition GATE_F_CORRELATION_MAX : Q := 0.75.

Record Roi : Type := mk_Roi {
  roi_name : string;
  x0 : Z;
  x1 : Z;
  y0 : Z;
  y1 : Z
}.

(** The methods [Roi.width], [Roi.height] and [Roi.area]. *)
Definition roi_width (r : Roi) : Z := Z.max 0 (x1 r - x0 r).
Definition roi_height (r : Roi) : Z := Z.max 0 (y1 r - y0 r).
Definition roi_area (r : Roi) : Z := (roi_width r * roi_height r)%Z.

Record GateResult : Type := mk_GateResult {
  name : string;
  passed : bool;
  details : list string
}.

Record MotionMetrics : Type := mk_MotionMetrics {
  per_pair_left : list Q;
  per_pair_right : list Q;
  avg_left : Q;
  avg_right : Q;
  passed_left : bool;
  passed_right : bool
}.

(** ** Feature extraction and ROIs *)

Definition byte_val (b : Byte.byte) : Q := inject_Z (Z.of_N (Byte.to_N b)).

(** One pixel of [(rgb.astype(np.float32) * LUMA_WEIGHTS).sum(axis=2)]:
    the three products are rounded to float32 and added from the left,
    each sum rounded to float32. *)
Definition luma_of (p : rgb) : Q :=
  let '(wr, wg, wb) := LUMA_WEIGHTS in
  f32_add
    (f32_add (f32_mul (byte_val (red p)) wr) (f32_mul (byte_val (green p)) wg))
    (f32_mul (byte_val (blue p)) wb).

Definition calculate_luminance (arr : PixelBuffer) : LumaField := arr_map luma_of arr.

Definition get_rois (w h : Z) : Roi * Roi :=
  let y0 := py_round (0.25 * inject_Z h) in
  let y1 := py_round (0.75 * inject_Z h) in
  let left := mk_Roi "Left" 0 (py_round (0.12 * inject_Z w)) y0 y1 in
  let right := mk_Roi "Right" (py_round (0.88 * inject_Z w)) w y0 y1 in
  (left, right).

Definition roi_slice {A} (arr : ndarray A) (roi : Roi) : ndarray A :=
  slice2 arr (y0 roi) (y1 roi) (x0 roi) (x1 roi).

(** ** Python containers *)

(** [l[i]] on a list. *)
Definition list_item {A} (l : list A) (i : Z) : result A :=
  idx <- index_bound i (length l) ;;
  match nth_error l idx with
  | Some v => Ok v
  | None => Raise IndexError
  end.

(** [range(a, b)] and [range(a, b, -1)] *)
Definition py_range (a b : Z) : list Z :=
  map (fun i => (a + Z.of_nat i)%Z) (seq 0 (Z.to_nat (b - a))).

Definition py_range_down (a b : Z) : list Z :=
  map (fun i => (a - Z.of_nat i)%Z) (seq 0 (Z.to_nat (a - b))).

Fixpoint mapM {A B} (f : A -> result B) (l : list A) : result (list B) :=
  match l with
  | [] => Ok []
  | a :: t => b <- f a ;; bs <- mapM f t ;; Ok (b :: bs)
  end.

(** A [Dict[int, str]] as an association list; the first binding of a key
    is the live one. *)
Definition dict : Type := list (Z * string).

Fixpoint dict_get (d : dict) (k : Z) : option string :=
  match d with
  | [] => None
  | (k', v) :: t => if (k =? k')%Z then Some v else dict_get t k
  end.

(** [k in d] *)
Definition dict_mem (d : dict) (k : Z) : bool :=
  match dict_get d k with Some _ => true | None => false end.

(** [d[k]] *)
Definition dict_item (d : dict) (k : Z) : result string :=
  match dict_get d k with Some v => Ok v | None => Raise (KeyError k) end.

(** ** Text rendering *)

Definition cat (l : list string) : string := String.concat "" l.

Definition string_of_Z (z : Z) : string := NilZero.string_of_int (Z.to_int z).

Fixpoint zeros (n : nat) : string :=
  match n with
  | O => EmptyString
  | S k => String "0" (zeros k)
  end.

(** [f"{q:.<d>f}"] *)
Definition format_fixed (d : nat) (q : Q) : string :=
  let scale := (10 ^ Z.of_nat d)%Z in
  let scaled := py_round (Qabs q * inject_Z scale) in
  let sign := if Qlt_le_dec q 0 then "-"%string else EmptyString in
  let frac := string_of_Z (scaled mod scale) in
  match d with
  | O => cat [sign; string_of_Z scaled]
  | _ => cat [sign; string_of_Z (scaled / scale); ".";
              zeros (d - String.length frac); frac]
  end.

(** [f"{l}"] on a list of ints. *)
Definition format_int_list (l : list Z) : string :=
  cat ["["; String.concat ", " (map string_of_Z l); "]"].

(** ** Gates A-D *)

Definition gate_a_cloud_visibility (blurred_luma : LumaField) (roi : Roi)
  : result (Q * Q * Q * Q * bool) :=
  let region := roi_slice blurred_luma roi in
  if (size region =? 0)%nat then Ok (0, 0, 0, 0, false) else
  p05 <- percentile region 5 ;;
  p50 <- percentile region 50 ;;
  p95 <- percentile region 95 ;;
  contrast <- py_div (p95 - p05) (py_max p50 1) ;;
  let passed := Qge_bool contrast GATE_A_CONTRAST_MIN in
  Ok (p05, p50, p95, contrast, passed).

Definition average_window (luma : LumaField) (roi : Roi) (x y : Z) (window : Z)
  : result Q :=
  let half := (window / 2)%Z in
  let wx0 := Z.max (x0 roi) (x - half) in
  let wx1 := Z.min (x1 roi - 1) (x + half) in
  let wy0 := Z.max (y0 roi) (y - half) in
  let wy1 := Z.min (y1 roi - 1) (y + half) in
  if ((wx1 <? wx0) || (wy1 <? wy0))%Z then item luma y x else
  let patch := slice2 luma wy0 (wy1 + 1) wx0 (wx1 + 1) in
  Ok (np_mean (flatten patch)).

(** The clockwise walk of [gate_b_transition_count]. *)
Definition boundary_path (left right top bottom : Z) : list (Z * Z) :=
  (map (fun x => (x, top)) (py_range left (right + 1)) ++
   map (fun y => (right, y)) (py_range (top + 1) (bottom + 1)) ++
   map (fun x => (x, bottom)) (py_range_down (right - 1) (left - 1)) ++
   map (fun y => (left, y)) (py_range_down (bottom - 1) top))%list.

Definition is_transition (prev curr : Q) : result bool :=
  delta <- py_div (Qabs (curr - prev)) (py_max prev 1) ;;
  Ok (Qge_bool delta GATE_B_TRANSITION_RATIO).

Fixpoint count_transitions (pairs : list (Q * Q)) (transitions : Z) : result Z :=
  match pairs with
  | [] => Ok transitions
  | (prev, curr) :: rest =>
      t <- is_transition prev curr ;;
      count_transitions rest (if t then (transitions + 1)%Z else transitions)
  end.

Definition gate_b_transition_count (blurred_luma : LumaField) (roi : Roi)
  : result (Z * bool * list Q) :=
  let inset := 3%Z in
  let left := (x0 roi + inset)%Z in
  let right := (x1 roi - 1 - inset)%Z in
  let top := (y0 roi + inset)%Z in
  let bottom := (y1 roi - 1 - inset)%Z in
  if ((right <=? left) || (bottom <=? top))%Z then Ok (0%Z, false, []) else
  let path := boundary_path left right top bottom in
  if (length path <? 2)%nat then Ok (0%Z, false, []) else
  values <- mapM (fun '(x, y) => average_window blurred_luma roi x y 5) path ;;
  transitions <- count_transitions (combine values (tl values)) 0%Z ;;
  first <- list_item values 0 ;;
  last <- list_item values (-1) ;;
  wrap <- is_transition last first ;;
  let transitions := if wrap then (transitions + 1)%Z else transitions in
  let passed := (GATE_B_ROI_TRANSITIONS_MIN <=? transitions)%Z in
  Ok (transitions, passed, values).

Definition gate_c_star_density (luma : LumaField) (roi : Roi) : result (Q * bool) :=
  let region := roi_slice luma roi in
  if (size region =? 0)%nat then Ok (0, false) else
  let star_count := count_ge region GATE_C_STAR_LUMA_MIN in
  density <- py_div (inject_Z star_count) (inject_Z (Z.of_nat (size region))) ;;
  Ok (density, Qge_bool density GATE_C_STAR_DENSITY_MIN).

Definition gate_d_non_black (luma : LumaField) (roi : Roi) : result (Q * Q * bool) :=
  let region := roi_slice luma roi in
  if (size region =? 0)%nat then Ok (0, 0, false) else
  p50 <- percentile region 50 ;;
  p05 <- percentile region 5 ;;
  let passed := Qge_bool p50 GATE_D_P50_MIN && Qge_bool p05 GATE_D_P05_MIN in
  Ok (p50, p05, passed).

(** ** Gate E *)

(** The body of the inner loop of [compute_motion_metrics] for one ROI. *)
Definition moving_ratio (diff : LumaField) (roi : Roi) : Q :=
  let region := roi_slice diff roi in
  if (size region =? 0)%nat then 0 else
  let moving := count_ge region GATE_E_MOTION_DELTA_MIN in
  inject_Z moving / inject_Z (Z.of_nat (size region)).

Fixpoint motion_loop (frames : list PixelBuffer) (left right : Roi)
    (idxs : list Z) (ratios : list Q * list Q) : result (list Q * list Q) :=
  match idxs with
  | [] => Ok ratios
  | idx :: rest =>
      fa <- list_item frames idx ;;
      fb <- list_item frames (idx + 1) ;;
      let luma_a := calculate_luminance fa in
      let luma_b := calculate_luminance fb in
      delta <- arr_sub luma_b luma_a ;;
      let diff := arr_map Qabs delta in
      let '(per_pair_left, per_pair_right) := ratios in
      motion_loop frames left right rest
        ((per_pair_left ++ [moving_ratio diff left])%list,
         (per_pair_right ++ [moving_ratio diff right])%list)
  end.

Definition mean_or_zero (l : list Q) : Q :=
  match l with
  | [] => 0
  | _ => np_mean l
  end.

Definition compute_motion_metrics (frames : list PixelBuffer) (left right : Roi)
  : result MotionMetrics :=
  '(per_pair_left, per_pair_right) <-
     motion_loop frames left right
       (py_range 0 (Z.of_nat (length frames) - 1)) ([], []) ;;
  let avg_left := mean_or_zero per_pair_left in
  let avg_right := mean_or_zero per_pair_right in
  let passed_left := Qge_bool avg_left GATE_E_MOVING_RATIO_MIN in
  let passed_right := Qge_bool avg_right GATE_E_MOVING_RATIO_MIN in
  Ok (mk_MotionMetrics per_pair_left per_pair_right avg_left avg_right
        passed_left passed_right).

(** ** Gate F *)

(** The bin of [np.histogram(a, bins=64, range=(0, 255))] a value falls
    in: 64 bins of equal width, the last one closed on the right; values
    outside the range are not counted. *)
Definition hist_bin (v : Q) : option nat :=
  if Qle_bool 0 v && Qle_bool v 255
  then Some (Nat.min 63 (Z.to_nat (Qfloor (v * 64 / 255))))
  else None.

Definition bin_count (values : list Q) (b : nat) : Z :=
  fold_left
    (fun acc v =>
       match hist_bin v with
       | Some k => if Nat.eqb k b then (acc + 1)%Z else acc
       | None => acc
       end)
    values 0%Z.

Definition np_histogram (a : LumaField) : list Z :=
  map (bin_count (flatten a)) (seq 0 64).

(** [np.dot(a, b)] *)
Definition np_dot (a b : list R) : R :=
  fold_left Rplus (map (fun ab => (fst ab * snd ab)%R) (combine a b)) 0%R.

(** [np.linalg.norm(h)] *)
Definition np_norm (h : list R) : R := sqrt (np_dot h h).

(** The tail of [blurred_hist]: the histogram as floats, divided by its
    norm unless the norm is zero. *)
Definition l2_normalise (counts : list Z) : list R :=
  let hist := map IZR counts in
  let norm := np_norm hist in
  if Req_dec_T norm 0%R then hist else map (fun h => (h / norm)%R) hist.

Definition correlation (a b : list R) : R := np_dot a b.

Definition Rle_bool (a b : R) : bool := if Rle_dec a b then true else false.

Definition required_levels : list Z := [1; 10; 20]%Z.

Definition status_text (b : bool) : string := if b then "PASS" else "FAIL".

Definition detail_line (d : string) : string := cat ["  - "; d].

Fixpoint basename_from (s acc : string) : string :=
  match s with
  | EmptyString => acc
  | String c r =>
      if Ascii.eqb c "/"%char then basename_from r EmptyString
      else basename_from r (acc ++ String c EmptyString)%string
  end.

(** [os.path.basename(path)] *)
Definition basename (path : string) : string := basename_from path EmptyString.

(** ["=" * 72] *)
Definition rule : string := cat (repeat "=" 72).

Section Engine.

(** [cv2.GaussianBlur(luma, ksize=(0, 0), sigmaX=sigma, sigmaY=sigma)] *)
Variable gaussian_blur : LumaField -> Z -> LumaField.

(** [np.array(Image.open(path).convert("RGB"))] *)
Variable open_image : string -> PixelBuffer.

(** [f"{x:.<d>f}"] on a correlation score. *)
Variable format_real : nat -> R -> string.

Definition blurred_hist (path : string) : list R :=
  let arr := open_image path in
  let luma := calculate_luminance arr in
  let sigma := Z.max 20 (py_round (0.01 * inject_Z (Z.of_nat (nrows arr)))) in
  let blurred := gaussian_blur luma sigma in
  l2_normalise (np_histogram blurred).

Definition gate_f_theme_separation (level_paths : dict)
  : result (R * R * bool * bool) :=
  let missing :=
    filter (fun lvl => negb (dict_mem level_paths lvl)) required_levels in
  match missing with
  | _ :: _ =>
      Raise (ValueError
               (cat ["Missing required level screenshots: ";
                     format_int_list missing]))
  | [] =>
      path_1 <- dict_item level_paths 1 ;;
      let hist_1 := blurred_hist path_1 in
      path_10 <- dict_item level_paths 10 ;;
      let hist_10 := blurred_hist path_10 in
      path_20 <- dict_item level_paths 20 ;;
      let hist_20 := blurred_hist path_20 in
      let corr_1_10 := correlation hist_1 hist_10 in
      let corr_10_20 := correlation hist_10 hist_20 in
      let pass_1_10 := Rle_bool corr_1_10 (Q2R GATE_F_CORRELATION_MAX) in
      let pass_10_20 := Rle_bool corr_10_20 (Q2R GATE_F_CORRELATION_MAX) in
      Ok (corr_1_10, corr_10_20, pass_1_10, pass_10_20)
  end.

(** The Gate E entry of [verify_image]. *)
Definition gate_e_results (require_motion : bool)
    (motion_metrics : option MotionMetrics) : list GateResult :=
  if require_motion then
    match motion_metrics with
    | None =>
        [mk_GateResult "Gate E" false
           ["Motion frames missing or insufficient (need >= 3 frames).";
            "Generate motion frames with decantra motion capture and rerun."]]
    | Some m =>
        let gate_e_passed := passed_left m && passed_right m in
        [mk_GateResult "Gate E" gate_e_passed
           [cat ["Left ROI moving_ratio_avg="; format_fixed 6 (avg_left m);
                 " (threshold >= 0.002)"];
            cat ["Right ROI moving_ratio_avg="; format_fixed 6 (avg_right m);
                 " (threshold >= 0.002)"];
            cat ["Left ROI per-pair ratios=";
                 String.concat ", " (map (format_fixed 6) (per_pair_left m))];
            cat ["Right ROI per-pair ratios=";
                 String.concat ", " (map (format_fixed 6) (per_pair_right m))]]]
    end
  else [].

Definition gate_a_detail (side : string) (a : Q * Q * Q * Q * bool) : string :=
  let '(p05, p50, p95, contrast, _) := a in
  cat [side; " ROI contrast="; format_fixed 4 contrast;
       " (P05="; format_fixed 2 p05; ", P50="; format_fixed 2 p50;
       ", P95="; format_fixed 2 p95; ")"].

Definition verify_image (path : string) (require_motion : bool)
    (motion_metrics : option MotionMetrics) : result (list GateResult) :=
  let arr := open_image path in
  let img_height := Z.of_nat (nrows arr) in
  let img_width := Z.of_nat (ncols arr) in
  let rois := get_rois img_width img_height in
  let left := fst rois in
  let right := snd rois in
  let luma := calculate_luminance arr in
  let sigma := Z.max 20 (py_round (0.01 * inject_Z img_height)) in
  let blurred := gaussian_blur luma sigma in
  (* Gate A *)
  a_left <- gate_a_cloud_visibility blurred left ;;
  a_right <- gate_a_cloud_visibility blurred right ;;
  let gate_a_passed := snd a_left && snd a_right in
  let result_a :=
    mk_GateResult "Gate A" gate_a_passed
      [gate_a_detail "Left" a_left; gate_a_detail "Right" a_right;
       "Threshold contrast >= 0.35"] in
  (* Gate B *)
  '(b_left_transitions, b_left_pass, _) <- gate_b_transition_count blurred left ;;
  '(b_right_transitions, b_right_pass, _) <- gate_b_transition_count blurred right ;;
  let total_transitions := (b_left_transitions + b_right_transitions)%Z in
  let gate_b_passed :=
    b_left_pass && b_right_pass
    && (GATE_B_TOTAL_TRANSITIONS_MIN <=? total_transitions)%Z in
  let result_b :=
    mk_GateResult "Gate B" gate_b_passed
      [cat ["Left ROI transitions="; string_of_Z b_left_transitions;
            " (threshold >= "; string_of_Z GATE_B_ROI_TRANSITIONS_MIN; ")"];
       cat ["Right ROI transitions="; string_of_Z b_right_transitions;
            " (threshold >= "; string_of_Z GATE_B_ROI_TRANSITIONS_MIN; ")"];
       cat ["Total transitions="; string_of_Z total_transitions;
            " (threshold >= "; string_of_Z GATE_B_TOTAL_TRANSITIONS_MIN; ")"]] in
  (* Gate C *)
  '(c_left_density, c_left_pass) <- gate_c_star_density luma left ;;
  '(c_right_density, c_right_pass) <- gate_c_star_density luma right ;;
  let gate_c_passed := c_left_pass && c_right_pass in
  let result_c :=
    mk_GateResult "Gate C" gate_c_passed
      [cat ["Left ROI star_density="; format_fixed 6 c_left_density;
            " (threshold >= 0.0005)"];
       cat ["Right ROI star_density="; format_fixed 6 c_right_density;
            " (threshold >= 0.0005)"]] in
  (* Gate D *)
  '(d_left_p50, d_left_p05, d_left_pass) <- gate_d_non_black luma left ;;
  '(d_right_p50, d_right_p05, d_right_pass) <- gate_d_non_black luma right ;;
  let gate_d_passed := d_left_pass && d_right_pass in
  let result_d :=
    mk_GateResult "Gate D" gate_d_passed
      [cat ["Left ROI P50="; format_fixed 2 d_left_p50; ", P05=";
            format_fixed 2 d_left_p05; " (thresholds >= 14.0 / 6.0)"];
       cat ["Right ROI P50="; format_fixed 2 d_right_p50; ", P05=";
            format_fixed 2 d_right_p05; " (thresholds >= 14.0 / 6.0)"]] in
  (* Gate E (global motion metrics) *)
  Ok ([result_a; result_b; result_c; result_d]
        ++ gate_e_results require_motion motion_metrics).

(** ** Orchestrator *)

(** The motion block of [main]: [motion_frames] is [None] when no motion
    directory with at least three frames was found, and otherwise holds
    the frames loaded from it.  The result carries the lines printed. *)
Definition motion_block (require_motion : bool)
    (motion_frames : option (list PixelBuffer))
  : result (option MotionMetrics * list string) :=
  if require_motion then
    match motion_frames with
    | None =>
        Ok (None,
            ["ERROR: Motion frames missing. Require >= 3 frames in motion directory.";
             "Expected motion directory under screenshots (e.g., <dir>/motion)."])
    | Some frames =>
        if (length frames <? 3)%nat then
          Ok (None, ["ERROR: Motion frames missing. Require >= 3 frames."])
        else
          frame0 <- list_item frames 0 ;;
          let rois :=
            get_rois (Z.of_nat (ncols frame0)) (Z.of_nat (nrows frame0)) in
          let left := fst rois in
          let right := snd rois in
          m <- compute_motion_metrics frames left right ;;
          Ok (Some m, [])
    end
  else Ok (None, []).

(** The [try]/[except ValueError] around Gate F. *)
Definition gate_f_block (level_paths : dict) : result (bool * list string) :=
  match gate_f_theme_separation level_paths with
  | Ok (corr_1_10, corr_10_20, pass_1_10, pass_10_20) =>
      Ok (pass_1_10 && pass_10_20,
          [cat ["Level 1 vs 10 correlation="; format_real 4 corr_1_10;
                " (threshold <= 0.75)"];
           cat ["Level 10 vs 20 correlation="; format_real 4 corr_10_20;
                " (threshold <= 0.75)"]])
  | Raise (ValueError msg) => Ok (false, [msg])
  | Raise e => Raise e
  end.

(** One turn of the loop over a gate's results: print, then fold the
    pass flag into [all_passed]. *)
Definition report_result (st : bool * list string) (r : GateResult)
  : bool * list string :=
  let '(all_passed, out) := st in
  (all_passed && passed r,
   out ++ [cat [name r; ": "; status_text (passed r)]]
       ++ map detail_line (details r)).

Fixpoint verify_loop (images : list string) (require_motion : bool)
    (motion_metrics : option MotionMetrics)
    (gate_f_passed : bool) (gate_f_details : list string)
    (st : bool * list string) : result (bool * list string) :=
  match images with
  | [] => Ok st
  | path :: rest =>
      let '(all_passed, out) := st in
      let out := out ++ [rule; cat ["Verifying "; basename path]; rule] in
      image_results <- verify_image path require_motion motion_metrics ;;
      let '(all_passed, out) :=
        fold_left report_result image_results (all_passed, out) in
      let out :=
        out ++ [cat ["Gate F: "; status_text gate_f_passed]]
            ++ map detail_line gate_f_details in
      verify_loop rest require_motion motion_metrics gate_f_passed
        gate_f_details (all_passed && gate_f_passed, out)
  end.

(** [main] from the motion block to the verdict, on the images, motion
    frames and level screenshots that file discovery resolved.  Returns
    [all_passed] and the lines printed. *)
Definition main_body (images : list string) (require_motion : bool)
    (motion_frames : option (list PixelBuffer)) (level_paths : dict)
  : result (bool * list string) :=
  '(motion_metrics, out) <- motion_block require_motion motion_frames ;;
  '(gate_f_passed, gate_f_details) <- gate_f_block level_paths ;;
  '(all_passed, out) <-
     verify_loop images require_motion motion_metrics gate_f_passed
       gate_f_details (true, out) ;;
  let all_passed :=
    if require_motion && (match motion_metrics with None => true | _ => false end)
    then false else all_passed in
  Ok (all_passed,
      out ++ [rule;
              cat ["BACKGROUND VISIBILITY VERIFICATION RESULT: ";
                   status_text all_passed];
              rule]).

(** The overall verdict: [all_passed] at the end of [main]. *)
Definition overall_verdict (images : list string) (require_motion : bool)
    (motion_frames : option (list PixelBuffer)) (level_paths : dict)
  : result bool :=
  '(all_passed, _) <- main_body images require_motion motion_frames level_paths ;;
  Ok all_passed.

(** The process exit code: [1] when no image was found, [0] or [1] by the
    verdict, and [1] for an exception that nothing catches. *)
Definition main (images : list string) (require_motion : bool)
    (motion_frames : option (list PixelBuffer)) (level_paths : dict) : Z :=
  match images with
  | [] => 1%Z
  | _ =>
      match overall_verdict images require_motion motion_frames level_paths with
      | Ok true => 0%Z
      | Ok false => 1%Z
      | Raise _ => 1%Z
      end
  end.

End Engine.

(** ** Specification-side definitions *)

(** Section 3 of the specification, the ROI invariant against an image of
    [w] by [h] pixels. *)
Definition roi_in_bounds (r : Roi) (w h : Z) : Prop :=
  (0 <= x0 r <= x1 r)%Z /\ (x1 r <= w)%Z /\ (0 <= y0 r <= y1 r)%Z /\ (y1 r <= h)%Z.

(** [z] is a nearest integer of [q]. *)
Definition nearest_integer (q : Q) (z : Z) : Prop :=
  inject_Z z - q <= 0.5 /\ q - inject_Z z <= 0.5.

(** Section 4.1 of the specification: a fractional bound is rounded to the
    nearest integer and clamped to [[0, dimension]]. *)
Definition spec_resolve_bound (frac : Q) (dim : Z) : Z :=
  Z.max 0 (Z.min dim (py_round (frac * inject_Z dim))).

Definition spec_resolve_rois (w h : Z) : Roi * Roi :=
  (mk_Roi "Left" (spec_resolve_bound 0 w) (spec_resolve_bound 0.12 w)
     (spec_resolve_bound 0.25 h) (spec_resolve_bound 0.75 h),
   mk_Roi "Right" (spec_resolve_bound 0.88 w) (spec_resolve_bound 1 w)
     (spec_resolve_bound 0.25 h) (spec_resolve_bound 0.75 h)).

(** The coordinates of a ROI are non-negative, as ROI resolution yields
    them. *)
Definition roi_nonneg (r : Roi) : Prop :=
  (0 <= x0 r)%Z /\ (0 <= x1 r)%Z /\ (0 <= y0 r)%Z /\ (0 <= y1 r)%Z.

(** A ROI lies inside an array. *)
Definition roi_inside {A} (r : Roi) (a : ndarray A) : Prop :=
  roi_in_bounds r (Z.of_nat (ncols a)) (Z.of_nat (nrows a)).

(** Section 4.3 of the specification: the values of the field inside the
    ROI, row by row, and the percentile of a collection of values: with
    the values in ascending order and the rank [(n - 1) * q / 100], the
    value at that rank, interpolated linearly between the two neighbours
    of a fractional rank. *)
Definition spec_roi_values (field : LumaField) (roi : Roi) : list Q :=
  flat_map
    (fun y =>
       map (fun x => at_ field y x)
         (seq (Z.to_nat (x0 roi)) (Z.to_nat (x1 roi - x0 roi))))
    (seq (Z.to_nat (y0 roi)) (Z.to_nat (y1 roi - y0 roi))).

Definition is_percentile (values : list Q) (q p : Q) : Prop :=
  exists s,
    Permutation.Permutation values s /\
    Sorted.StronglySorted Qle s /\
    let rank := inject_Z (Z.of_nat (length s - 1)) * q / 100 in
    let lo := Z.to_nat (Qfloor rank) in
    p == nth lo s 0
         + (nth (S lo) s (nth lo s 0) - nth lo s 0)
           * (rank - inject_Z (Qfloor rank)).

(** Section 4.5 of the specification: the pixels of a ROI whose raw
    luminance is at least 200, and their share of the ROI pixel area. *)
Definition spec_star_count (luma : LumaField) (roi : Roi) : Z :=
  Z.of_nat (length (filter (fun v => Qle_bool 200 v) (flatten (roi_slice luma roi)))).

Definition spec_star_density (luma : LumaField) (roi : Roi) : Q :=
  inject_Z (spec_star_count luma roi) / inject_Z (roi_area roi).

(** Section 4.4 of the specification.  The walk runs on the rectangle
    three pixels inside the border of the ROI. *)
Definition inset_left (roi : Roi) : Z := (x0 roi + 3)%Z.
Definition inset_right (roi : Roi) : Z := (x1 roi - 1 - 3)%Z.
Definition inset_top (roi : Roi) : Z := (y0 roi + 3)%Z.
Definition inset_bottom (roi : Roi) : Z := (y1 roi - 1 - 3)%Z.

Definition on_inset_perimeter (roi : Roi) (p : Z * Z) : Prop :=
  let '(x, y) := p in
  (inset_left roi <= x <= inset_right roi)%Z /\
  (inset_top roi <= y <= inset_bottom roi)%Z /\
  (x = inset_left roi \/ x = inset_right roi \/
   y = inset_top roi \/ y = inset_bottom roi).

(** The closed walk, clockwise from the top left corner of the inset
    rectangle: the top edge from left to right, the right edge from top
    to bottom, the bottom edge from right to left and the left edge from
    bottom to top, each point once. *)
Definition spec_walk (roi : Roi) : list (Z * Z) :=
  let l := inset_left roi in
  let r := inset_right roi in
  let t := inset_top roi in
  let b := inset_bottom roi in
  (map (fun i => (l + Z.of_nat i, t)) (seq 0 (Z.to_nat (r - l + 1)))
   ++ map (fun i => (r, t + 1 + Z.of_nat i)) (seq 0 (Z.to_nat (b - t)))
   ++ map (fun i => (r - 1 - Z.of_nat i, b)) (seq 0 (Z.to_nat (r - l)))
   ++ map (fun i => (l, b - 1 - Z.of_nat i)) (seq 0 (Z.to_nat (b - t - 1))))%Z.

(** Two points are neighbours on the pixel grid: one step along one
    axis. *)
Definition spec_neighbours (p q : Z * Z) : Prop :=
  (Z.abs (fst q - fst p) + Z.abs (snd q - snd p) = 1)%Z.

(** The mean of the 5x5 window centred on [(x, y)]. *)
Definition window_offsets : list Z := [-2; -1; 0; 1; 2]%Z.

Definition spec_window_mean (luma : LumaField) (p : Z * Z) : Q :=
  let '(x, y) := p in
  Qsum
    (flat_map
       (fun dy =>
          map (fun dx => at_ luma (Z.to_nat (y + dy)) (Z.to_nat (x + dx)))
            window_offsets)
       window_offsets)
  / 25.

(** The relative delta of two consecutive samples, and the transition
    test on it. *)
Definition spec_delta (prev curr : Q) : Q := Qabs (curr - prev) / py_max prev 1.

Definition spec_is_transition (pc : Q * Q) : bool :=
  Qle_bool 0.35 (spec_delta (fst pc) (snd pc)).

(** The consecutive pairs of a closed walk, the pair of the last and the
    first sample included. *)
Definition spec_closed_pairs (values : list Q) : list (Q * Q) :=
  combine values (tl values ++ [hd 0 values]).

Definition spec_transitions (values : list Q) : Z :=
  Z.of_nat (length (filter spec_is_transition (spec_closed_pairs values))).

Definition spec_samples (luma : LumaField) (roi : Roi) : list Q :=
  map (spec_window_mean luma)
    (boundary_path (inset_left roi) (inset_right roi)
       (inset_top roi) (inset_bottom roi)).

(** The ROIs, the blur scale and the blurred luminance [verify_image]
    derives from an image. *)
Definition image_rois (arr : PixelBuffer) : Roi * Roi :=
  get_rois (Z.of_nat (ncols arr)) (Z.of_nat (nrows arr)).

Definition image_sigma (arr : PixelBuffer) : Z :=
  Z.max 20 (py_round (0.01 * inject_Z (Z.of_nat (nrows arr)))).

Definition image_blurred (gaussian_blur : LumaField -> Z -> LumaField)
    (arr : PixelBuffer) : LumaField :=
  gaussian_blur (calculate_luminance arr) (image_sigma arr).

(** Section 4.6 of the specification.  The frames of a sequence share
    their dimensions; the adjacent pairs are taken in order. *)
Definition same_shape (frames : list PixelBuffer) : Prop :=
  forall fa fb, In fa frames -> In fb frames ->
    nrows fa = nrows fb /\ ncols fa = ncols fb.

Definition spec_adjacent_pairs (frames : list PixelBuffer)
  : list (PixelBuffer * PixelBuffer) :=
  combine frames (tl frames).

(** The absolute luminance delta field of a pair of frames, the
    luminance and the difference in single precision. *)
Definition spec_delta_field (pair : PixelBuffer * PixelBuffer) : LumaField :=
  let '(fa, fb) := pair in
  mk_ndarray (nrows fb) (ncols fb)
    (fun y x => Qabs (f32_sub (luma_of (at_ fb y x)) (luma_of (at_ fa y x)))).

(** The fraction of the ROI pixels whose delta is at least 2; a ROI that
    holds no pixel has the ratio 0. *)
Definition spec_moving_ratio (roi : Roi) (pair : PixelBuffer * PixelBuffer) : Q :=
  let pixels := flatten (roi_slice (spec_delta_field pair) roi) in
  match pixels with
  | [] => 0
  | _ :: _ =>
      inject_Z (Z.of_nat (length (filter (Qle_bool 2) pixels)))
      / inject_Z (Z.of_nat (length pixels))
  end.

(** The average of the ratios of all adjacent pairs; 0 when there is no
    pair. *)
Definition spec_average (ratios : list Q) : Q :=
  match ratios with
  | [] => 0
  | _ :: _ => Qsum ratios / inject_Z (Z.of_nat (length ratios))
  end.

(** The pixel [(y, x)] lies in the ROI. *)
Definition in_roi (roi : Roi) (y x : nat) : Prop :=
  (y0 roi <= Z.of_nat y < y1 roi)%Z /\ (x0 roi <= Z.of_nat x < x1 roi)%Z.

(** The luminance of two frames differs by [c] at every pixel of the ROI. *)
Definition differs_by (roi : Roi) (fa fb : PixelBuffer) (c : Q) : Prop :=
  forall y x, in_roi roi y x ->
    Qabs (luma_of (at_ fb y x) - luma_of (at_ fa y x)) == c.

(** Section 4.7 of the specification.  The 64 bins of equal width over
    [[0, 255]]: bin [k] runs from [k * 255 / 64] up to, and not including,
    [(k + 1) * 255 / 64]; the last bin includes 255. *)
Definition bin_edge (k : nat) : Q := inject_Z (Z.of_nat k) * 255 / 64.

Definition spec_in_bin (k : nat) (v : Q) : bool :=
  Qle_bool (bin_edge k) v &&
  (if (k =? 63)%nat then Qle_bool v 255
   else negb (Qle_bool (bin_edge (S k)) v)).

Definition spec_histogram (field : LumaField) : list Z :=
  map (fun k => Z.of_nat (length (filter (spec_in_bin k) (flatten field))))
    (seq 0 64).

(** The Euclidean length of a vector and the dot product of two. *)
Definition spec_length (h : list R) : R :=
  sqrt (fold_right (fun x acc => (x * x + acc)%R) 0%R h).

Definition spec_dot (a b : list R) : R :=
  fold_right (fun ab acc => (fst ab * snd ab + acc)%R) 0%R (combine a b).

(** The histogram scaled to unit length. *)
Definition spec_unit_histogram (field : LumaField) : list R :=
  let counts := map IZR (spec_histogram field) in
  map (fun c => (c / spec_length counts)%R) counts.

(** Some value of the field lies in [[0, 255]]. *)
Definition has_value_in_range (field : LumaField) : Prop :=
  exists v, In v (flatten field) /\ 0 <= v /\ v <= 255.

Definition all_zero (counts : list Z) : Prop := Forall (fun c => c = 0%Z) counts.

(** Section 4.8 of the specification.  The gates of one image, and the
    overall verdict: the conjunction of the pass flags of every gate result
    of every evaluated image and of Gate F. *)
Definition spec_gate_names (require_motion : bool) : list string :=
  ["Gate A"; "Gate B"; "Gate C"; "Gate D"]
    ++ (if require_motion then ["Gate E"] else []).

Definition spec_verdict (image_results : list (list GateResult))
    (gate_f_passed : bool) : bool :=
  forallb (forallb passed) image_results && gate_f_passed.

(** The report of one evaluated image: the results [verify_image]
    returns, one per gate in the order of the gates, the last being the
    Gate E entry when motion is required. *)
Definition image_report (gaussian_blur : LumaField -> Z -> LumaField)
    (open_image : string -> PixelBuffer) (require_motion : bool)
    (motion_metrics : option MotionMetrics)
    (path : string) (results : list GateResult) : Prop :=
  verify_image gaussian_blur open_image path require_motion motion_metrics
    = Ok results /\
  map name results = spec_gate_names require_motion /\
  skipn 4 results = gate_e_results require_motion motion_metrics.

(** The motion frames found, if any, form a frame sequence: they share
    their dimensions. *)
Definition motion_frames_agree (motion_frames : option (list PixelBuffer))
  : Prop :=
  match motion_frames with
  | None => True
  | Some frames => same_shape frames
  end.

(** No motion directory was found, or it holds fewer than three frames. *)
Definition motion_unavailable (motion_frames : option (list PixelBuffer)) : Prop :=
  match motion_frames with
  | None => True
  | Some frames => (length frames < 3)%nat
  end.

(** The Gate E entry that stands for missing motion frames. *)
Definition motion_missing_result : GateResult :=
  mk_GateResult "Gate E" false
    ["Motion frames missing or insufficient (need >= 3 frames).";
     "Generate motion frames with decantra motion capture and rerun."].

(** The required levels that have no screenshot. *)
Definition spec_missing_levels (level_paths : dict) : list Z :=
  filter
    (fun lvl => match dict_get level_paths lvl with
                | None => true
                | Some _ => false
                end)
    [1; 10; 20]%Z.

(** ** Example inputs *)

(** A blur that leaves the field unchanged, and a directory of two solid
    black screenshots: [tiny.png] of 4 by 4 pixels, whose ROIs are empty,
    and any other name of 67 by 16 pixels. *)
Definition id_blur : LumaField -> Z -> LumaField := fun luma _ => luma.

Definition solid_image (h w : nat) (p : rgb) : PixelBuffer :=
  mk_ndarray h w (fun _ _ => p).

Definition black : rgb := mk_rgb Byte.x00 Byte.x00 Byte.x00.

Definition example_files (path : string) : PixelBuffer :=
  if String.eqb path "tiny.png" then solid_image 4 4 black
  else solid_image 16 67 black.

Definition tiny_results : result (list GateResult) :=
  verify_image id_blur example_files "tiny.png" false None.

Definition black_results : result (list GateResult) :=
  verify_image id_blur example_files "black.png" false None.

(** A 12 by 12 field with a ROI of 10 by 10 pixels inside it. *)
Definition ramp_field : LumaField :=
  mk_ndarray 12 12 (fun y x => inject_Z (Z.of_nat (y * x))).

Definition ramp_roi : Roi := mk_Roi "Left" 0 10 1 11.

(** A field of 1000 pixels, one of them at luminance 255, and the ROI
    that covers it. *)
Definition star_field : LumaField :=
  mk_ndarray 25 40 (fun y x => if (y =? 0)%nat && (x =? 0)%nat then 255 else 0).

Definition star_roi : Roi := mk_Roi "Left" 0 40 0 25.

(** The reading of "an explicit diagnostic" for zero-area ROIs: gate by
    gate, the detail lines of a run on empty ROIs differ from those of a
    run on ROIs that hold pixels. *)
Definition zero_area_explicit (zero_run normal_run : result (list GateResult))
  : Prop :=
  match zero_run, normal_run with
  | Ok z, Ok n => Forall2 (fun r r' => details r <> details r') z n
  | _, _ => False
  end.

(** Two grey frames of 67 by 16 pixels whose luminance differs by 50
    everywhere, and the ROIs of that frame size. *)
Definition grey (v : Byte.byte) : rgb := mk_rgb v v v.

Definition grey_100 : PixelBuffer := solid_image 16 67 (grey Byte.x64).
Definition grey_150 : PixelBuffer := solid_image 16 67 (grey Byte.x96).

Definition motion_left : Roi := fst (get_rois 67 16).
Definition motion_right : Roi := snd (get_rois 67 16).

(** The three required levels, each with a screenshot, and a renderer of
    correlation scores that prints nothing. *)
Definition example_levels : dict :=
  [(1%Z, "level-01.png"); (10%Z, "level-10.png"); (20%Z, "level-20.png")].

Definition no_format : nat -> R -> string := fun _ _ => EmptyString.

(** A directory whose screenshots are all the same white image of 4 by 4
    pixels, and a blur whose kernel weights add up to [1 + 2 ^ -23], as the
    rounded weights of a single precision kernel can: on a field of one
    value it yields that value times the sum of the weights. *)
Definition white : rgb := mk_rgb Byte.xff Byte.xff Byte.xff.

Definition white_files (path : string) : PixelBuffer := solid_image 4 4 white.

Definition overshooting_blur : LumaField -> Z -> LumaField :=
  fun luma _ => arr_map (fun v => v * (1 + 1 / 8388608)) luma.

(** Three motion frames of one size. *)
Definition example_frames : list PixelBuffer := [grey_100; grey_150; grey_100].

(** Three motion frames of which the second has another size. *)
Definition mismatched_frames : list PixelBuffer :=
  [grey_100; solid_image 8 30 (grey Byte.x96); grey_100].

(** * Further definitions *)

From Stdlib Require Sorted.

(** Every pixel of the ROI holds the value [v], up to equality of
    rationals. *)
Definition uniform_on (roi : Roi) (field : LumaField) (v : Q) : Prop :=
  forall y x, in_roi roi y x -> at_ field y x == v.

(** Two fields hold the same values at the pixels of the ROI. *)
Definition agree_on (roi : Roi) (a b : LumaField) : Prop :=
  forall y x, in_roi roi y x -> at_ a y x = at_ b y x.

(** Every pixel of the ROI holds a value between [lo] and [hi]. *)
Definition bounded_on (roi : Roi) (field : LumaField) (lo hi : Q) : Prop :=
  forall y x, in_roi roi y x -> lo <= at_ field y x /\ at_ field y x <= hi.

(** The 5 by 5 window around [(x, y)] cut to the ROI, as a rectangle. *)
Definition window_of (roi : Roi) (x y : Z) : Roi :=
  mk_Roi (roi_name roi)
    (Z.max (x0 roi) (x - 2)) (Z.min (x1 roi - 1) (x + 2) + 1)
    (Z.max (y0 roi) (y - 2)) (Z.min (y1 roi - 1) (y + 2) + 1).

(** The ramp on a larger field: it agrees with [ramp_field] on the
    pixels of [ramp_roi] and has another shape. *)
Definition ramp_wide : LumaField :=
  mk_ndarray 20 20 (fun y x => inject_Z (Z.of_nat (y * x))).

(** [v] lies in the range [(0, 255)] of the histogram of Gate F. *)
Definition in_rangeb (v : Q) : bool := Qle_bool 0 v && Qle_bool v 255.

(** [np.sum] of a list of counts. *)
Definition total (counts : list Z) : Z := fold_right Z.add 0%Z counts.

(** * File names and file discovery

    A path is a Python [str] whose characters have code points below 256.
    The file system enters as section variables: [os.path.isdir],
    [os.path.exists] and [sorted(glob.glob(pattern))]. *)

From Stdlib Require DecimalPos.

(** ** [LEVEL_RE = re.compile(r"level-(\d+)", re.IGNORECASE)] *)

(** [c.lower()] on the letters [A] to [Z]. *)
Definition ascii_lower (c : ascii) : ascii :=
  let n := nat_of_ascii c in
  if ((65 <=? n) && (n <=? 90))%nat then ascii_of_nat (n + 32) else c.

(** [\d] *)
Definition is_digit (c : ascii) : bool :=
  let n := nat_of_ascii c in ((48 <=? n) && (n <=? 57))%nat.

(** A literal of lower-case characters matched at the head of [s],
    ignoring case: the text after it. *)
Fixpoint match_literal (lit s : string) : option string :=
  match lit with
  | EmptyString => Some s
  | String a lit' =>
      match s with
      | EmptyString => None
      | String c s' =>
          if Ascii.eqb a (ascii_lower c) then match_literal lit' s' else None
      end
  end.

(** The longest run of digits at the head of [s]. *)
Fixpoint take_digits (s : string) : string :=
  match s with
  | EmptyString => EmptyString
  | String c s' =>
      if is_digit c then String c (take_digits s') else EmptyString
  end.

(** The pattern matched at the head of [s]: [group(1)]. *)
Definition level_re_match (s : string) : option string :=
  match match_literal "level-" s with
  | None => None
  | Some rest =>
      match take_digits rest with
      | EmptyString => None
      | String c digits => Some (String c digits)
      end
  end.

(** [LEVEL_RE.search(s)]: [group(1)] of the leftmost match. *)
Fixpoint level_re_search (s : string) : option string :=
  match level_re_match s with
  | Some digits => Some digits
  | None =>
      match s with
      | EmptyString => None
      | String _ s' => level_re_search s'
      end
  end.

(** The default of [sys.get_int_max_str_digits()]. *)
Definition INT_MAX_STR_DIGITS : nat := 4300.

(** [int(s)] on the text of a [\d+] group: the decimal value, leading
    zeros allowed; a text longer than the limit raises [ValueError]. *)
Definition int_of_digits (s : string) : result Z :=
  if (INT_MAX_STR_DIGITS <? String.length s)%nat then
    Raise (ValueError "Exceeds the limit (4300 digits) for integer string conversion")
  else
    match NilZero.uint_of_string s with
    | Some d => Ok (Z.of_uint d)
    | None => Raise (ValueError "invalid literal for int() with base 10")
    end.

Definition parse_level_number (path : string) : result (option Z) :=
  match level_re_search (basename path) with
  | None => Ok None
  | Some digits =>
      match int_of_digits digits with
      | Ok n => Ok (Some n)
      | Raise (ValueError _) => Ok None
      | Raise e => Raise e
      end
  end.

(** ** The level screenshots of [main] *)

(** [d[k] = v] *)
Definition dict_set (d : dict) (k : Z) (v : string) : dict := (k, v) :: d.

(** The loop of [main] that fills [level_paths]. *)
Fixpoint level_paths_loop (paths : list string) (level_paths : dict)
  : result dict :=
  match paths with
  | [] => Ok level_paths
  | path :: rest =>
      level_num <- parse_level_number path ;;
      match level_num with
      | Some n => level_paths_loop rest (dict_set level_paths n path)
      | None => level_paths_loop rest level_paths
      end
  end.

Definition collect_level_paths (paths : list string) : result dict :=
  level_paths_loop paths [].

(** ** [os.path] *)

Definition starts_with_sep (s : string) : bool :=
  match s with
  | String c _ => Ascii.eqb c "/"%char
  | EmptyString => false
  end.

Fixpoint ends_with_sep (s : string) : bool :=
  match s with
  | EmptyString => false
  | String c EmptyString => Ascii.eqb c "/"%char
  | String _ r => ends_with_sep r
  end.

(** [os.path.join(a, b)] *)
Definition path_join (a b : string) : string :=
  if starts_with_sep b then b
  else if String.eqb a EmptyString || ends_with_sep a then (a ++ b)%string
  else (a ++ "/" ++ b)%string.

(** [p[:p.rfind("/") + 1]]: [head] is the text up to the last separator
    read, [acc] the text after it. *)
Fixpoint dirname_from (s head acc : string) : string :=
  match s with
  | EmptyString => head
  | String c r =>
      if Ascii.eqb c "/"%char
      then dirname_from r (head ++ acc ++ "/")%string EmptyString
      else dirname_from r head (acc ++ String c EmptyString)%string
  end.

Fixpoint all_sep (s : string) : bool :=
  match s with
  | EmptyString => true
  | String c r => Ascii.eqb c "/"%char && all_sep r
  end.

(** [s.rstrip("/")] *)
Fixpoint rstrip_sep (s : string) : string :=
  match s with
  | EmptyString => EmptyString
  | String c r =>
      match rstrip_sep r with
      | EmptyString =>
          if Ascii.eqb c "/"%char then EmptyString else String c EmptyString
      | r' => String c r'
      end
  end.

(** [os.path.dirname(p)] *)
Definition dirname (p : string) : string :=
  let head := dirname_from p EmptyString EmptyString in
  if negb (String.eqb head EmptyString) && negb (all_sep head)
  then rstrip_sep head else head.

(** The truth value of an optional string: [None] and the empty string
    are false. *)
Definition truthy (o : option string) : bool :=
  match o with
  | Some (String _ _) => true
  | _ => false
  end.

(** [f"{o}"] *)
Definition str_of_option (o : option string) : string :=
  match o with
  | Some s => s
  | None => "None"
  end.

(** No character of [s] is the separator. *)
Fixpoint no_sep (s : string) : bool :=
  match s with
  | EmptyString => true
  | String c r => negb (Ascii.eqb c "/"%char) && no_sep r
  end.

Definition starts_with_digit (s : string) : bool :=
  match s with
  | String c _ => is_digit c
  | EmptyString => false
  end.

(** The name of [path] gives the level [lvl]. *)
Definition names_level (lvl : Z) (path : string) : bool :=
  match parse_level_number path with
  | Ok (Some n) => (n =? lvl)%Z
  | _ => false
  end.

(** The last path of the list whose name gives the level [lvl]. *)
Definition spec_level_path (paths : list string) (lvl : Z) : option string :=
  find (names_level lvl) (rev paths).

(** The command line of [main]. *)
Record Args : Type := mk_Args {
  args_image : option string;
  args_dir : option string;
  args_motion_dir : option string;
  args_require_motion : bool
}.

Section Discovery.

Variable gaussian_blur : LumaField -> Z -> LumaField.
Variable open_image : string -> PixelBuffer.
Variable format_real : nat -> R -> string.

(** [os.path.isdir] and [os.path.exists] *)
Variable isdir : string -> bool.
Variable path_exists : string -> bool.

(** [sorted(glob.glob(pattern))] *)
Variable sorted_glob : string -> list string.

Definition find_images_in_dir (directory : string) : list string :=
  sorted_glob (path_join directory "*.png").

Definition motion_candidates (base_dir : string) (preferred : option string)
  : list string :=
  (if truthy preferred then [str_of_option preferred] else [])
  ++ [path_join base_dir "motion";
      path_join (path_join base_dir "DecantraScreenshots") "motion";
      path_join (dirname base_dir) "motion";
      path_join (path_join (dirname base_dir) "DecantraScreenshots") "motion"].

(** The test of the loop of [pick_motion_dir] on one candidate. *)
Definition usable_motion_dir (candidate : string) : bool :=
  negb (String.eqb candidate EmptyString) && isdir candidate
  && (3 <=? length (sorted_glob (path_join candidate "frame-*.png")))%nat.

Definition pick_motion_dir (base_dir : string) (preferred : option string)
  : option string :=
  find usable_motion_dir (motion_candidates base_dir preferred).

Definition load_motion_frames (motion_dir : string) : list PixelBuffer :=
  map open_image (sorted_glob (path_join motion_dir "frame-*.png")).

(** The frames [main] hands to its motion block. *)
Definition motion_frames_of (base_dir : string) (preferred : option string)
  : option (list PixelBuffer) :=
  match pick_motion_dir base_dir preferred with
  | None => None
  | Some motion_dir => Some (load_motion_frames motion_dir)
  end.

(** The head of [main]: the images to verify and the base directory, or
    the error line printed before [return 1]. *)
Definition resolve_inputs (args : Args) : (list string * string) + string :=
  if negb (truthy (args_image args)) && negb (truthy (args_dir args)) then
    inr "ERROR: Provide --image or --dir"
  else if truthy (args_image args) && truthy (args_dir args) then
    inr "ERROR: Use only one of --image or --dir"
  else if truthy (args_image args) then
    let image := str_of_option (args_image args) in
    if negb (path_exists image) then
      inr (cat ["ERROR: Image not found: "; image])
    else inl ([image], dirname image)
  else
    let base_dir := str_of_option (args_dir args) in
    if negb (truthy (args_dir args)) || negb (isdir base_dir) then
      inr (cat ["ERROR: Directory not found: "; base_dir])
    else
      match find_images_in_dir base_dir with
      | [] => inr (cat ["ERROR: No PNG images found in: "; base_dir])
      | images => inl (images, base_dir)
      end.

(** [main] on a command line: the exit code. *)
Definition main_cli (args : Args) : Z :=
  match resolve_inputs args with
  | inr _ => 1%Z
  | inl (images, base_dir) =>
      match collect_level_paths (find_images_in_dir base_dir) with
      | Ok level_paths =>
          main gaussian_blur open_image format_real images
            (args_require_motion args)
            (motion_frames_of base_dir (args_motion_dir args)) level_paths
      | Raise _ => 1%Z
      end
  end.

End Discovery.

(** * Proofs *)

(** ** The error monad and the scalar primitives *)

Lemma bind_ok {A B} (c : result A) (k : A -> result B) (a : A) :
  c = Ok a -> bind c k = k a.
Proof. intros ->. reflexivity. Qed.

Lemma py_max_ge_r (a b : Q) : b <= py_max a b.
Proof. unfold py_max. destruct (Qlt_le_dec a b); lra. Qed.

Lemma py_max_ge_l (a b : Q) : a <= py_max a b.
Proof. unfold py_max. destruct (Qlt_le_dec a b); lra. Qed.

Lemma py_div_ok (a b : Q) : ~ b == 0 -> py_div a b = Ok (a / b).
Proof.
  intros Hb. unfold py_div.
  destruct (Qeq_bool b 0) eqn:E; [| reflexivity].
  apply Qeq_bool_eq in E. contradiction.
Qed.

Lemma py_div_floor_one (a p : Q) : py_div a (py_max p 1) = Ok (a / py_max p 1).
Proof. apply py_div_ok. pose proof (py_max_ge_r p 1). lra. Qed.

Lemma Qge_bool_iff (a b : Q) : Qge_bool a b = true <-> b <= a.
Proof. unfold Qge_bool. apply Qle_bool_iff. Qed.

(** ** Arrays and slices *)

Lemma flat_map_const_length {A B} (f : A -> list B) (c : nat) (l : list A) :
  (forall a, length (f a) = c) -> length (flat_map f l) = (length l * c)%nat.
Proof.
  intros Hf. induction l as [| a l IH]; cbn; [reflexivity |].
  rewrite length_app, Hf, IH. reflexivity.
Qed.

Lemma flatten_length {A} (a : ndarray A) : length (flatten a) = size a.
Proof.
  unfold flatten, size.
  rewrite (flat_map_const_length _ (ncols a)).
  - rewrite length_seq. reflexivity.
  - intros y. rewrite length_map, length_seq. reflexivity.
Qed.

Lemma slice_bound_inside (i : Z) (n : nat) :
  (0 <= i <= Z.of_nat n)%Z -> slice_bound i n = Z.to_nat i.
Proof.
  intros H. unfold slice_bound.
  destruct (Z.ltb_spec i 0); [lia |]. f_equal. lia.
Qed.

Lemma slice_bound_mono (i j : Z) (n : nat) :
  (0 <= i)%Z -> (i <= j)%Z -> (slice_bound i n <= slice_bound j n)%nat.
Proof.
  intros Hi Hij. unfold slice_bound.
  destruct (Z.ltb_spec i 0); [lia |].
  destruct (Z.ltb_spec j 0); lia.
Qed.

Lemma roi_slice_size {A} (a : ndarray A) (roi : Roi) :
  roi_inside roi a -> size (roi_slice a roi) = Z.to_nat (roi_area roi).
Proof.
  unfold roi_inside, roi_in_bounds, roi_slice, slice2, size, roi_area,
    roi_width, roi_height. cbn [nrows ncols].
  intros (Hx & Hxw & Hy & Hyh).
  rewrite !slice_bound_inside by lia.
  rewrite !Z.max_r by lia.
  rewrite Z2Nat.inj_mul, !Z2Nat.inj_sub by lia.
  apply Nat.mul_comm.
Qed.

Lemma roi_slice_nonempty {A} (a : ndarray A) (roi : Roi) :
  roi_inside roi a -> (0 < roi_area roi)%Z -> size (roi_slice a roi) <> 0%nat.
Proof. intros Hin Hpos. rewrite roi_slice_size by assumption. lia. Qed.

Lemma roi_area_zero (roi : Roi) :
  roi_area roi = 0%Z <-> (x1 roi <= x0 roi)%Z \/ (y1 roi <= y0 roi)%Z.
Proof. unfold roi_area, roi_width, roi_height. split; intros H; nia. Qed.

Lemma roi_slice_empty {A} (a : ndarray A) (roi : Roi) :
  roi_nonneg roi -> roi_area roi = 0%Z -> size (roi_slice a roi) = 0%nat.
Proof.
  intros (Hx0 & Hx1 & Hy0 & Hy1) Hz. apply roi_area_zero in Hz.
  unfold roi_slice, slice2, size. cbn [nrows ncols].
  destruct Hz as [Hx | Hy].
  - pose proof (slice_bound_mono (x1 roi) (x0 roi) (ncols a) Hx1 Hx). nia.
  - pose proof (slice_bound_mono (y1 roi) (y0 roi) (nrows a) Hy1 Hy). nia.
Qed.

(** ** Sorting and percentiles *)

Lemma insert_sorted_length (v : Q) (l : list Q) :
  length (insert_sorted v l) = S (length l).
Proof.
  induction l as [| h t IH]; cbn; [reflexivity |].
  destruct (Qle_bool v h); cbn; [reflexivity | now rewrite IH].
Qed.

Lemma sort_length (l : list Q) : length (sort l) = length l.
Proof.
  induction l as [| h t IH]; [reflexivity |].
  change (sort (h :: t)) with (insert_sorted h (sort t)).
  rewrite insert_sorted_length, IH. reflexivity.
Qed.

Lemma percentile_ok (a : ndarray Q) (q : Q) :
  size a <> 0%nat -> percentile a q = Ok (lerp_at (sort (flatten a)) q).
Proof.
  intros Hne. unfold percentile.
  destruct (sort (flatten a)) as [| h t] eqn:E; [| reflexivity].
  apply (f_equal (@length Q)) in E.
  rewrite sort_length, flatten_length in E. cbn in E. contradiction.
Qed.

Lemma flatten_ext {A} (a b : ndarray A) :
  nrows a = nrows b -> ncols a = ncols b ->
  (forall y x, (y < nrows a)%nat -> (x < ncols a)%nat -> at_ a y x = at_ b y x) ->
  flatten a = flatten b.
Proof.
  intros Hr Hc Hat. unfold flatten. rewrite <- Hr, <- Hc.
  rewrite !flat_map_concat_map. f_equal.
  apply map_ext_in. intros y Hy. apply in_seq in Hy.
  apply map_ext_in. intros x Hx. apply in_seq in Hx.
  apply Hat; lia.
Qed.

Lemma slice_bound_le (i : Z) (n : nat) : (slice_bound i n <= n)%nat.
Proof. unfold slice_bound. destruct (Z.ltb_spec i 0); lia. Qed.

(** Two arrays of one shape with the same elements have the same
    slices. *)
Lemma roi_slice_ext {A} (a b : ndarray A) (roi : Roi) :
  nrows a = nrows b -> ncols a = ncols b ->
  (forall y x, (y < nrows a)%nat -> (x < ncols a)%nat ->
               at_ a y x = at_ b y x) ->
  flatten (roi_slice a roi) = flatten (roi_slice b roi) /\
  size (roi_slice a roi) = size (roi_slice b roi).
Proof.
  intros Hr Hc Hat. unfold roi_slice, slice2, size. rewrite <- Hr, <- Hc.
  cbn [nrows ncols]. split; [| reflexivity].
  apply flatten_ext; cbn [nrows ncols at_]; try reflexivity.
  intros y x Hy Hx.
  pose proof (slice_bound_le (y1 roi) (nrows a)).
  pose proof (slice_bound_le (x1 roi) (ncols a)).
  apply Hat; lia.
Qed.

(** The difference of two arrays of one shape. *)
Lemma arr_sub_same_shape (b a : ndarray Q) :
  nrows b = nrows a -> ncols b = ncols a ->
  exists d,
    arr_sub b a = Ok d /\
    nrows d = nrows b /\ ncols d = ncols b /\
    forall y x, (y < nrows b)%nat -> (x < ncols b)%nat ->
                at_ d y x = f32_sub (at_ b y x) (at_ a y x).
Proof.
  intros Hr Hc. unfold arr_sub, broadcast_dim. rewrite <- Hr, <- Hc.
  rewrite !Nat.eqb_refl. cbn [bind]. eexists. split; [reflexivity |].
  cbn [nrows ncols at_]. split; [reflexivity | split; [reflexivity |]].
  intros y x Hy Hx. unfold broadcast_index.
  destruct (Nat.eqb_spec (nrows b) 1) as [E1 | _];
    destruct (Nat.eqb_spec (ncols b) 1) as [E2 | _];
    try (replace y with 0%nat by lia); try (replace x with 0%nat by lia);
    reflexivity.
Qed.

Lemma py_round_near (q : Q) :
  inject_Z (py_round q) - q <= 0.5 /\ q - inject_Z (py_round q) <= 0.5.
Proof.
  unfold py_round.
  pose proof (Qfloor_le q) as Hlo.
  pose proof (Qlt_floor q) as Hhi.
  rewrite inject_Z_plus in Hhi. change (inject_Z 1) with 1 in Hhi.
  destruct (Qcompare_spec (q - inject_Z (Qfloor q)) 0.5) as [He | Hl | Hg].
  - destruct (Z.even (Qfloor q)).
    + split; lra.
    + rewrite inject_Z_plus. change (inject_Z 1) with 1. split; lra.
  - split; lra.
  - rewrite inject_Z_plus. change (inject_Z 1) with 1. split; lra.
Qed.

Lemma py_round_inject (z : Z) : py_round (inject_Z z) = z.
Proof.
  unfold py_round. rewrite Qfloor_Z.
  destruct (Qcompare_spec (inject_Z z - inject_Z z) 0.5) as [He | Hl | Hg]; try lra.
  reflexivity.
Qed.

Lemma Z_le_of_Q (a b : Z) : inject_Z a < inject_Z b + 1 -> (a <= b)%Z.
Proof.
  intros H. 
  assert (inject_Z a < inject_Z (b + 1)) as H' by (rewrite inject_Z_plus; exact H).
  rewrite <- Zlt_Qlt in H'. lia.
Qed.

Lemma py_round_scaled_bounds (f : Q) (n : Z) :
  0 <= f -> f <= 1 -> (0 <= n)%Z -> (0 <= py_round (f * inject_Z n) <= n)%Z.
Proof.
  intros Hf0 Hf1 Hn.
  destruct (py_round_near (f * inject_Z n)) as [Hup Hdn].
  assert (0 <= inject_Z n) as Hn' by (rewrite Zle_Qle in Hn; exact Hn).
  split; apply Z_le_of_Q.
  - change (inject_Z 0) with 0. nra.
  - nra.
Qed.

Lemma py_round_proper (q q' : Q) : q == q' -> py_round q = py_round q'.
Proof.
  intros H. unfold py_round.
  rewrite (Qfloor_comp _ _ H).
  assert (q - inject_Z (Qfloor q') == q' - inject_Z (Qfloor q')) as H'
    by (rewrite H; reflexivity).
  rewrite (Qcompare_comp _ _ H' 0.5 0.5 (Qeq_refl _)).
  reflexivity.
Qed.

Lemma spec_resolve_bound_round (f : Q) (n : Z) :
  0 <= f -> f <= 1 -> (0 <= n)%Z ->
  spec_resolve_bound f n = py_round (f * inject_Z n).
Proof.
  intros Hf0 Hf1 Hn. unfold spec_resolve_bound.
  pose proof (py_round_scaled_bounds f n Hf0 Hf1 Hn). lia.
Qed.

Lemma quarter_rounds_ordered (h : Z) :
  (0 <= h)%Z -> (py_round (0.25 * inject_Z h) <= py_round (0.75 * inject_Z h))%Z.
Proof.
  intros Hh.
  destruct (Z.eq_dec h 0) as [-> | Hnz]; [vm_compute; discriminate |].
  destruct (py_round_near (0.25 * inject_Z h)) as [Hup _].
  destruct (py_round_near (0.75 * inject_Z h)) as [_ Hdn].
  assert (1 <= inject_Z h) as Hh'.
  { change 1 with (inject_Z 1). rewrite <- Zle_Qle. lia. }
  apply Z_le_of_Q. lra.
Qed.

(** C9: for every non-negative width and height, [get_rois] returns the
    fractional bounds rounded to a nearest integer, which is what rounding
    followed by clamping to [[0, dimension]] yields, and both ROIs satisfy
    [0 <= x0 <= x1 <= width] and [0 <= y0 <= y1 <= height]. *)
Theorem get_rois_resolved (w h : Z) :
  (0 <= w)%Z -> (0 <= h)%Z ->
  get_rois w h = spec_resolve_rois w h /\
  roi_in_bounds (fst (get_rois w h)) w h /\
  roi_in_bounds (snd (get_rois w h)) w h /\
  nearest_integer (0.12 * inject_Z w) (x1 (fst (get_rois w h))) /\
  nearest_integer (0.88 * inject_Z w) (x0 (snd (get_rois w h))) /\
  nearest_integer (0.25 * inject_Z h) (y0 (fst (get_rois w h))) /\
  nearest_integer (0.75 * inject_Z h) (y1 (fst (get_rois w h))).
Proof.
  intros Hw Hh.
  pose proof (py_round_scaled_bounds 0.12 w ltac:(lra) ltac:(lra) Hw) as B12.
  pose proof (py_round_scaled_bounds 0.88 w ltac:(lra) ltac:(lra) Hw) as B88.
  pose proof (py_round_scaled_bounds 0.25 h ltac:(lra) ltac:(lra) Hh) as B25.
  pose proof (py_round_scaled_bounds 0.75 h ltac:(lra) ltac:(lra) Hh) as B75.
  pose proof (quarter_rounds_ordered h Hh) as Hord.
  split; [| split; [| split]].
  - unfold get_rois, spec_resolve_rois.
    rewrite !spec_resolve_bound_round by (lra || assumption).
    rewrite (py_round_proper (0 * inject_Z w) (inject_Z 0)) by (change (inject_Z 0) with 0; lra).
    rewrite (py_round_proper (1 * inject_Z w) (inject_Z w)) by lra.
    rewrite !py_round_inject. reflexivity.
  - unfold roi_in_bounds, get_rois; cbn. lia.
  - unfold roi_in_bounds, get_rois; cbn. lia.
  - unfold get_rois; cbn [fst snd x0 x1 y0 y1].
    repeat split; apply py_round_near.
Qed.

(** The ROIs of a 400 by 200 image. *)
Lemma get_rois_resolved_witness :
  get_rois 400 200 = spec_resolve_rois 400 200 /\
  roi_in_bounds (fst (get_rois 400 200)) 400 200 /\
  roi_in_bounds (snd (get_rois 400 200)) 400 200 /\
  nearest_integer (0.12 * inject_Z 400) (x1 (fst (get_rois 400 200))) /\
  nearest_integer (0.88 * inject_Z 400) (x0 (snd (get_rois 400 200))) /\
  nearest_integer (0.25 * inject_Z 200) (y0 (fst (get_rois 400 200))) /\
  nearest_integer (0.75 * inject_Z 200) (y1 (fst (get_rois 400 200))).
Proof. apply (get_rois_resolved 400 200); lia. Defined.

(** ** Single precision rounding *)

Lemma pow2_pos (k : Z) : 0 < 2 ^ k.
Proof. apply Qpower_0_lt. reflexivity. Qed.

Lemma pow2_Z (n : Z) : (0 <= n)%Z -> inject_Z (2 ^ n) == 2 ^ n.
Proof. intros H. rewrite (Zpower_Qpower 2 n H). reflexivity. Qed.

Lemma pow2_succ (k : Z) : 2 ^ (k + 1) == 2 * 2 ^ k.
Proof.
  rewrite Qpower_plus by discriminate. rewrite Qpower_1_r. ring.
Qed.

Lemma pow2_sub (n m : Z) : 2 ^ (n - m) == 2 ^ n / 2 ^ m.
Proof. apply Qpower_minus. discriminate. Qed.

Lemma pow2_le (n m : Z) : (n <= m)%Z -> 2 ^ n <= 2 ^ m.
Proof. intros H. apply Qpower_le_compat_l; [exact H | discriminate]. Qed.

Lemma Qlog2_spec (a : Q) :
  0 < a -> 2 ^ Qlog2 a <= a /\ a < 2 ^ (Qlog2 a + 1).
Proof.
  intros Ha. destruct a as [n d].
  assert (0 < n)%Z as Hn by (unfold Qlt in Ha; cbn in Ha; lia).
  unfold Qlog2. cbn [Qnum Qden].
  set (ln := Z.log2 n). set (ld := Z.log2 (Z.pos d)).
  destruct (Z.log2_spec n Hn) as [Hn0 Hn1]. fold ln in Hn0, Hn1.
  destruct (Z.log2_spec (Z.pos d) eq_refl) as [Hd0 Hd1]. fold ld in Hd0, Hd1.
  assert (0 <= ln)%Z as Hln by apply Z.log2_nonneg.
  assert (0 <= ld)%Z as Hld by apply Z.log2_nonneg.
  rewrite Zle_Qle, pow2_Z in Hn0, Hd0 by lia.
  rewrite Zlt_Qlt in Hn1, Hd1.
  unfold Z.succ in Hn1, Hd1.
  rewrite pow2_Z, pow2_succ in Hn1, Hd1 by lia.
  pose proof (pow2_pos ln) as Pn. pose proof (pow2_pos ld) as Pd.
  assert (n # d == inject_Z n / inject_Z (Z.pos d)) as Hq by apply Qmake_Qdiv.
  set (A := inject_Z n) in *. set (D := inject_Z (Z.pos d)) in *.
  set (P := 2 ^ ln) in *. set (E := 2 ^ ld) in *.
  assert (0 < D) as HD by lra.
  assert (2 ^ (ln - ld) == P / E) as Hk by apply pow2_sub.
  assert (A / D < 2 * (P / E)) as Hup.
  { apply Qlt_shift_div_r; [exact HD |].
    assert (2 * (P / E) * D == 2 * P * (D / E)) as -> by (field; lra).
    assert (1 <= D / E) as H1 by (apply Qle_shift_div_l; lra).
    assert (0 < 2 * P) as H2 by lra.
    assert (2 * P * 1 <= 2 * P * (D / E)) as H3
      by (apply Qmult_le_l; assumption).
    lra. }
  assert (P / E / 2 <= A / D) as Hlow.
  { apply Qle_shift_div_l; [exact HD |].
    assert (P / E / 2 * D == P * (D / (2 * E))) as -> by (field; lra).
    assert (D / (2 * E) <= 1) as H1 by (apply Qle_shift_div_r; lra).
    assert (P * (D / (2 * E)) <= P * 1) as H3
      by (apply Qmult_le_l; assumption).
    lra. }
  destruct (Qle_bool (2 ^ (ln - ld)) (n # d)) eqn:T.
  - apply Qle_bool_iff in T. split; [exact T |].
    rewrite pow2_succ, Hk, Hq. exact Hup.
  - assert (n # d < 2 ^ (ln - ld)) as T'.
    { apply Qnot_le_lt. intros C. apply Qle_bool_iff in C. congruence. }
    replace (ln - ld - 1 + 1)%Z with (ln - ld)%Z by lia.
    split; [| exact T'].
    assert (2 ^ (ln - ld) == 2 * 2 ^ (ln - ld - 1)) as Hs.
    { rewrite <- pow2_succ. replace (ln - ld - 1 + 1)%Z with (ln - ld)%Z by lia.
      reflexivity. }
    rewrite Hq. rewrite Hk in Hs.
    assert (P / E / 2 == (1 # 2) * (P / E)) as Hh by (field; lra).
    rewrite Hh in Hlow.
    set (X := P / E) in *. set (Y := A / D) in *.
    set (W := 2 ^ (ln - ld - 1)) in *. lra.
Qed.

Lemma Qlog2_mono (a b : Q) : 0 < a -> a <= b -> (Qlog2 a <= Qlog2 b)%Z.
Proof.
  intros Ha Hab.
  destruct (Qlog2_spec a Ha) as [La _].
  destruct (Qlog2_spec b) as [_ Ub]; [lra |].
  assert (2 ^ Qlog2 a < 2 ^ (Qlog2 b + 1)) as H by lra.
  apply Qpower_lt_compat_l_inv in H; [lia | reflexivity].
Qed.

Lemma py_round_floor (q : Q) :
  (Qfloor q <= py_round q <= Qfloor q + 1)%Z.
Proof.
  unfold py_round.
  destruct (q - inject_Z (Qfloor q) ?= 0.5); [| lia | lia].
  destruct (Z.even (Qfloor q)); lia.
Qed.

Lemma py_round_mono (u v : Q) : u <= v -> (py_round u <= py_round v)%Z.
Proof.
  intros Huv.
  pose proof (Qfloor_resp_le u v Huv) as Hf.
  pose proof (py_round_floor u) as Hu. pose proof (py_round_floor v) as Hv.
  destruct (Z.eq_dec (Qfloor u) (Qfloor v)) as [E | N]; [| lia].
  unfold py_round. rewrite <- E.
  destruct (Qcompare_spec (u - inject_Z (Qfloor u)) 0.5) as [Eu | Lu | Gu];
    destruct (Qcompare_spec (v - inject_Z (Qfloor u)) 0.5) as [Ev | Lv | Gv];
    try lia; try lra; destruct (Z.even (Qfloor u)); lia.
Qed.

Lemma py_round_le_int (u : Q) (n : Z) : u <= inject_Z n -> (py_round u <= n)%Z.
Proof.
  intros H. rewrite <- (py_round_inject n). apply py_round_mono, H.
Qed.

Lemma py_round_ge_int (u : Q) (n : Z) : inject_Z n <= u -> (n <= py_round u)%Z.
Proof.
  intros H. rewrite <- (py_round_inject n) at 1. apply py_round_mono, H.
Qed.

Lemma f32_round_eq0 (q : Q) : q == 0 -> f32_round q = 0.
Proof.
  intros H. unfold f32_round. rewrite (proj1 (Qeq_alt q 0) H). reflexivity.
Qed.

Lemma f32_round_pos (q : Q) :
  0 < q ->
  f32_round q
  = inject_Z (py_round (q / 2 ^ f32_exponent q)) * 2 ^ f32_exponent q.
Proof.
  intros H. unfold f32_round. rewrite (proj1 (Qgt_alt q 0) H). reflexivity.
Qed.

Lemma f32_round_nonneg (q : Q) : 0 <= q -> 0 <= f32_round q.
Proof.
  intros H. destruct (Qlt_le_dec 0 q) as [Hp | Hz].
  - rewrite (f32_round_pos q Hp).
    pose proof (pow2_pos (f32_exponent q)) as He.
    apply Qmult_le_0_compat; [| lra].
    change 0 with (inject_Z 0). rewrite <- Zle_Qle.
    apply py_round_ge_int. change (inject_Z 0) with 0.
    apply Qle_shift_div_l; lra.
  - rewrite f32_round_eq0 by lra. lra.
Qed.

Lemma scaled_le (x y e : Q) : 0 < e -> x <= y -> x / e <= y / e.
Proof.
  intros He H. apply Qle_shift_div_l; [exact He |].
  assert (x / e * e == x) as -> by (field; lra). exact H.
Qed.

(** Rounding keeps the order of the non-negative numbers. *)
Lemma f32_round_mono (x y : Q) :
  0 <= x -> x <= y -> f32_round x <= f32_round y.
Proof.
  intros Hx Hxy. destruct (Qlt_le_dec 0 x) as [Hp | Hz].
  2:{ rewrite (f32_round_eq0 x) by lra. apply f32_round_nonneg. lra. }
  assert (0 < y) as Hy by lra.
  rewrite (f32_round_pos x Hp), (f32_round_pos y Hy).
  pose proof (Qlog2_mono x y Hp Hxy) as Hlog.
  destruct (Qlog2_spec x Hp) as [_ Ux]. destruct (Qlog2_spec y Hy) as [Ly _].
  set (ex := f32_exponent x). set (ey := f32_exponent y).
  pose proof (pow2_pos ex) as Pex. pose proof (pow2_pos ey) as Pey.
  assert (ex <= ey)%Z as Hle by (unfold ex, ey, f32_exponent; lia).
  destruct (Z.eq_dec ex ey) as [E | N].
  - rewrite <- E. apply Qmult_le_compat_r; [| lra].
    rewrite <- Zle_Qle. apply py_round_mono, scaled_le; assumption.
  - assert (ex + 1 <= ey)%Z as Hlt by lia.
    assert (ey = Qlog2 y - 23)%Z as Hey by (unfold ex, ey, f32_exponent in *; lia).
    assert (Qlog2 x + 1 <= ex + 24)%Z as Hex
      by (unfold ex, f32_exponent; lia).
    (* the rounded [x] is at most [2 ^ (ex + 24)] *)
    assert (x / 2 ^ ex <= inject_Z (2 ^ 24)) as Hxs.
    { apply Qle_shift_div_r; [exact Pex |].
      rewrite pow2_Z by lia. rewrite <- Qpower_plus by discriminate.
      pose proof (pow2_le (Qlog2 x + 1) (24 + ex) ltac:(lia)). lra. }
    apply py_round_le_int in Hxs.
    (* the rounded [y] is at least [2 ^ (ey + 23)] *)
    assert (inject_Z (2 ^ 23) <= y / 2 ^ ey) as Hys.
    { apply Qle_shift_div_l; [exact Pey |].
      rewrite pow2_Z by lia. rewrite <- Qpower_plus by discriminate.
      replace (23 + ey)%Z with (Qlog2 y) by lia. exact Ly. }
    apply py_round_ge_int in Hys.
    rewrite Zle_Qle in Hxs, Hys.
    assert (inject_Z (py_round (x / 2 ^ ex)) * 2 ^ ex
            <= inject_Z (2 ^ 24) * 2 ^ ex) as H1
      by (apply Qmult_le_compat_r; lra).
    assert (inject_Z (2 ^ 23) * 2 ^ ey
            <= inject_Z (py_round (y / 2 ^ ey)) * 2 ^ ey) as H2
      by (apply Qmult_le_compat_r; lra).
    assert (inject_Z (2 ^ 24) * 2 ^ ex <= inject_Z (2 ^ 23) * 2 ^ ey) as H3.
    { rewrite !pow2_Z by lia. rewrite <- !Qpower_plus by discriminate.
      apply pow2_le. lia. }
    lra.
Qed.

Lemma f32_round_proper (x y : Q) :
  0 <= x -> x == y -> f32_round x == f32_round y.
Proof.
  intros Hx E. apply Qle_antisym; apply f32_round_mono; lra.
Qed.

Lemma f32_round_opp (x : Q) : x < 0 -> f32_round x = - f32_round (- x).
Proof.
  intros H. rewrite (f32_round_pos (- x)) by lra.
  unfold f32_round. rewrite (proj1 (Qlt_alt x 0) H). reflexivity.
Qed.

(** Rounding commutes with the absolute value. *)
Lemma f32_round_abs (x : Q) : Qabs (f32_round x) == f32_round (Qabs x).
Proof.
  destruct (Qlt_le_dec x 0) as [Hn | Hp].
  - rewrite (f32_round_opp x Hn).
    pose proof (f32_round_nonneg (- x) ltac:(lra)) as H0.
    rewrite Qabs_opp, (Qabs_pos _ H0).
    apply f32_round_proper; [lra |].
    rewrite (Qabs_neg x) by lra. reflexivity.
  - rewrite (Qabs_pos _ (f32_round_nonneg x Hp)).
    apply f32_round_proper; [exact Hp |].
    rewrite (Qabs_pos x Hp). reflexivity.
Qed.

(** ** Gates A, C and D on one ROI *)

Lemma count_ge_filter (region : ndarray Q) (t : Q) :
  count_ge region t =
  Z.of_nat (length (filter (fun v => Qge_bool v t) (flatten region))).
Proof.
  unfold count_ge.
  assert (forall l acc,
    fold_left (fun acc v => if Qge_bool v t then (acc + 1)%Z else acc) l acc =
    (acc + Z.of_nat (length (filter (fun v => Qge_bool v t) l)))%Z) as H.
  { induction l as [| v l IH]; intros acc; cbn [fold_left filter].
    - cbn. lia.
    - rewrite IH. destruct (Qge_bool v t); cbn [length]; lia. }
  rewrite H. lia.
Qed.

Lemma gate_a_empty (blurred : LumaField) (roi : Roi) :
  size (roi_slice blurred roi) = 0%nat ->
  gate_a_cloud_visibility blurred roi = Ok (0, 0, 0, 0, false).
Proof. intros H. unfold gate_a_cloud_visibility. rewrite H. reflexivity. Qed.

Lemma gate_a_nonempty (blurred : LumaField) (roi : Roi) :
  size (roi_slice blurred roi) <> 0%nat ->
  let s := sort (flatten (roi_slice blurred roi)) in
  let p05 := lerp_at s 5 in
  let p50 := lerp_at s 50 in
  let p95 := lerp_at s 95 in
  let contrast := (p95 - p05) / py_max p50 1 in
  gate_a_cloud_visibility blurred roi =
  Ok (p05, p50, p95, contrast, Qge_bool contrast GATE_A_CONTRAST_MIN).
Proof.
  intros Hne. cbv zeta. unfold gate_a_cloud_visibility.
  destruct (Nat.eqb_spec (size (roi_slice blurred roi)) 0); [contradiction |].
  rewrite !percentile_ok by assumption. cbn [bind].
  rewrite py_div_floor_one. reflexivity.
Qed.

Lemma gate_a_total (blurred : LumaField) (roi : Roi) :
  exists r, gate_a_cloud_visibility blurred roi = Ok r.
Proof.
  destruct (Nat.eq_dec (size (roi_slice blurred roi)) 0) as [E | N].
  - eexists. apply gate_a_empty, E.
  - eexists. apply gate_a_nonempty, N.
Qed.

Lemma gate_c_empty (luma : LumaField) (roi : Roi) :
  size (roi_slice luma roi) = 0%nat ->
  gate_c_star_density luma roi = Ok (0, false).
Proof. intros H. unfold gate_c_star_density. rewrite H. reflexivity. Qed.

Lemma gate_c_nonempty (luma : LumaField) (roi : Roi) :
  size (roi_slice luma roi) <> 0%nat ->
  let density :=
    inject_Z (count_ge (roi_slice luma roi) GATE_C_STAR_LUMA_MIN)
    / inject_Z (Z.of_nat (size (roi_slice luma roi))) in
  gate_c_star_density luma roi =
  Ok (density, Qge_bool density GATE_C_STAR_DENSITY_MIN).
Proof.
  intros Hne. cbv zeta. unfold gate_c_star_density.
  destruct (Nat.eqb_spec (size (roi_slice luma roi)) 0); [contradiction |].
  rewrite py_div_ok; [reflexivity |].
  intros H. change 0 with (inject_Z 0) in H.
  apply (proj1 (inject_Z_injective _ _)) in H. lia.
Qed.

Lemma gate_c_total (luma : LumaField) (roi : Roi) :
  exists r, gate_c_star_density luma roi = Ok r.
Proof.
  destruct (Nat.eq_dec (size (roi_slice luma roi)) 0) as [E | N].
  - eexists. apply gate_c_empty, E.
  - eexists. apply gate_c_nonempty, N.
Qed.

Lemma gate_d_empty (luma : LumaField) (roi : Roi) :
  size (roi_slice luma roi) = 0%nat ->
  gate_d_non_black luma roi = Ok (0, 0, false).
Proof. intros H. unfold gate_d_non_black. rewrite H. reflexivity. Qed.

Lemma gate_d_total (luma : LumaField) (roi : Roi) :
  exists r, gate_d_non_black luma roi = Ok r.
Proof.
  destruct (Nat.eq_dec (size (roi_slice luma roi)) 0) as [E | N].
  - eexists. apply gate_d_empty, E.
  - unfold gate_d_non_black.
    destruct (Nat.eqb_spec (size (roi_slice luma roi)) 0); [contradiction |].
    rewrite !percentile_ok by assumption. cbn [bind]. eexists. reflexivity.
Qed.

Lemma gate_c_density (luma : LumaField) (roi : Roi) :
  roi_inside roi luma -> (0 < roi_area roi)%Z ->
  gate_c_star_density luma roi =
  Ok (spec_star_density luma roi,
      Qge_bool (spec_star_density luma roi) GATE_C_STAR_DENSITY_MIN).
Proof.
  intros Hin Hpos.
  rewrite gate_c_nonempty by (apply roi_slice_nonempty; assumption).
  rewrite count_ge_filter, roi_slice_size by assumption.
  rewrite Z2Nat.id by lia. reflexivity.
Qed.

(** ** Gate B on one ROI *)

Lemma in_py_range (a b i : Z) : In i (py_range a b) <-> (a <= i < b)%Z.
Proof.
  unfold py_range. rewrite in_map_iff. split.
  - intros (k & <- & Hk). apply in_seq in Hk. lia.
  - intros H. exists (Z.to_nat (i - a)). split; [lia |]. apply in_seq. lia.
Qed.

Lemma in_py_range_down (a b i : Z) : In i (py_range_down a b) <-> (b < i <= a)%Z.
Proof.
  unfold py_range_down. rewrite in_map_iff. split.
  - intros (k & <- & Hk). apply in_seq in Hk. lia.
  - intros H. exists (Z.to_nat (a - i)). split; [lia |]. apply in_seq. lia.
Qed.

Lemma py_range_length (a b : Z) : length (py_range a b) = Z.to_nat (b - a).
Proof. unfold py_range. rewrite length_map, length_seq. reflexivity. Qed.

Lemma py_range_down_length (a b : Z) :
  length (py_range_down a b) = Z.to_nat (a - b).
Proof. unfold py_range_down. rewrite length_map, length_seq. reflexivity. Qed.

Lemma boundary_path_length (l r t b : Z) :
  (l < r)%Z -> (t < b)%Z ->
  Z.of_nat (length (boundary_path l r t b)) = (2 * (r - l) + 2 * (b - t))%Z.
Proof.
  intros Hlr Htb. unfold boundary_path.
  rewrite !length_app, !length_map, !py_range_length, !py_range_down_length.
  lia.
Qed.

Lemma in_boundary_path (l r t b x y : Z) :
  (l < r)%Z -> (t < b)%Z ->
  In (x, y) (boundary_path l r t b) <->
  (l <= x <= r)%Z /\ (t <= y <= b)%Z /\ (x = l \/ x = r \/ y = t \/ y = b).
Proof.
  intros Hlr Htb. unfold boundary_path.
  rewrite !in_app_iff, !in_map_iff.
  split.
  - intros [(i & E & Hi) | [(i & E & Hi) | [(i & E & Hi) | (i & E & Hi)]]];
      inversion E; subst;
      first [apply in_py_range in Hi | apply in_py_range_down in Hi]; lia.
  - intros (Hx & Hy & Hedge).
    destruct (Z.eq_dec y t) as [-> | Hyt].
    { left. exists x. split; [reflexivity | apply in_py_range; lia]. }
    destruct (Z.eq_dec x r) as [-> | Hxr].
    { right; left. exists y. split; [reflexivity | apply in_py_range; lia]. }
    destruct (Z.eq_dec y b) as [-> | Hyb].
    { right; right; left. exists x.
      split; [reflexivity | apply in_py_range_down; lia]. }
    right; right; right. exists y.
    split; [f_equal; lia | apply in_py_range_down; lia].
Qed.

Lemma average_window_inset (luma : LumaField) (roi : Roi) (x y : Z) :
  (inset_left roi <= x <= inset_right roi)%Z ->
  (inset_top roi <= y <= inset_bottom roi)%Z ->
  average_window luma roi x y 5 =
  Ok (np_mean (flatten (slice2 luma (y - 2) (y + 2 + 1) (x - 2) (x + 2 + 1)))).
Proof.
  unfold inset_left, inset_right, inset_top, inset_bottom. intros Hx Hy.
  unfold average_window. change (5 / 2)%Z with 2%Z. cbv zeta.
  rewrite (Z.max_r (x0 roi)), (Z.min_r (x1 roi - 1)) by lia.
  rewrite (Z.max_r (y0 roi)), (Z.min_r (y1 roi - 1)) by lia.
  destruct (Z.ltb_spec (x + 2) (x - 2)); [lia |].
  destruct (Z.ltb_spec (y + 2) (y - 2)); [lia |].
  reflexivity.
Qed.

Lemma window_patch_inside (luma : LumaField) (roi : Roi) (x y : Z) :
  roi_inside roi luma ->
  (inset_left roi <= x <= inset_right roi)%Z ->
  (inset_top roi <= y <= inset_bottom roi)%Z ->
  np_mean (flatten (slice2 luma (y - 2) (y + 2 + 1) (x - 2) (x + 2 + 1))) =
  spec_window_mean luma (x, y).
Proof.
  unfold roi_inside, roi_in_bounds, inset_left, inset_right, inset_top,
    inset_bottom.
  intros (Hx0 & Hx1 & Hy0 & Hy1) Hx Hy.
  unfold np_mean, spec_window_mean. rewrite flatten_length.
  unfold flatten, slice2, size. cbn [nrows ncols at_].
  rewrite !slice_bound_inside by lia.
  replace (Z.to_nat (y + 2 + 1) - Z.to_nat (y - 2))%nat with 5%nat by lia.
  replace (Z.to_nat (x + 2 + 1) - Z.to_nat (x - 2))%nat with 5%nat by lia.
  cbn [seq flat_map map app window_offsets Nat.mul Nat.add Z.of_nat].
  change (inject_Z (Z.of_nat 25)) with 25.
  repeat match goal with
  | |- context [at_ luma ?a ?b] =>
      lazymatch a with
      | (Z.to_nat (y - 2) + ?k)%nat =>
          replace a with (Z.to_nat (y + (Z.of_nat k - 2))) by lia
      end
  end.
  repeat match goal with
  | |- context [at_ luma ?a ?b] =>
      lazymatch b with
      | (Z.to_nat (x - 2) + ?k)%nat =>
          replace b with (Z.to_nat (x + (Z.of_nat k - 2))) by lia
      end
  end.
  reflexivity.
Qed.

Lemma mapM_ok {A B} (f : A -> result B) (g : A -> B) (l : list A) :
  (forall a, In a l -> f a = Ok (g a)) -> mapM f l = Ok (map g l).
Proof.
  induction l as [| a l IH]; intros H; [reflexivity |].
  cbn [mapM map]. rewrite (H a (or_introl eq_refl)). cbn [bind].
  rewrite IH by (intros a' Ha'; apply H; right; exact Ha'). reflexivity.
Qed.

Lemma is_transition_spec (prev curr : Q) :
  is_transition prev curr = Ok (spec_is_transition (prev, curr)).
Proof.
  unfold is_transition. rewrite py_div_floor_one. reflexivity.
Qed.

Lemma count_transitions_spec (pairs : list (Q * Q)) (acc : Z) :
  count_transitions pairs acc =
  Ok (acc + Z.of_nat (length (filter spec_is_transition pairs)))%Z.
Proof.
  revert acc. induction pairs as [| [prev curr] rest IH]; intros acc.
  - cbn. f_equal. lia.
  - cbn [count_transitions filter]. rewrite is_transition_spec. cbn [bind].
    rewrite IH. destruct (spec_is_transition (prev, curr)); cbn [length];
      f_equal; lia.
Qed.

Lemma closed_pairs_split (v : Q) (t : list Q) (f : Q) :
  combine (v :: t) (t ++ [f]) = combine (v :: t) t ++ [(last (v :: t) 0, f)].
Proof.
  revert v. induction t as [| a t IH]; intros v; [reflexivity |].
  change (combine (v :: a :: t) ((a :: t) ++ [f]))
    with ((v, a) :: combine (a :: t) (t ++ [f])).
  rewrite IH. reflexivity.
Qed.

Lemma list_item_first {A} (v : A) (t : list A) : list_item (v :: t) 0 = Ok v.
Proof. reflexivity. Qed.

Lemma list_item_last (v : Q) (t : list Q) :
  list_item (v :: t) (-1) = Ok (last (v :: t) 0).
Proof.
  unfold list_item, index_bound.
  change (-1 <? 0)%Z with true. cbv iota.
  destruct (Z.leb_spec 0 (-1 + Z.of_nat (length (v :: t)))) as [_ | H];
    [| cbn [length] in H; lia].
  destruct (Z.ltb_spec (-1 + Z.of_nat (length (v :: t)))
              (Z.of_nat (length (v :: t)))) as [_ | H]; [| lia].
  cbn [andb bind].
  replace (Z.to_nat (-1 + Z.of_nat (length (v :: t)))) with (length t)
    by (cbn [length]; lia).
  clear. revert v. induction t as [| a t IH]; intros v; [reflexivity |].
  cbn [length nth_error]. rewrite IH. reflexivity.
Qed.

(** The transitions the code counts on a list of samples. *)
Lemma transitions_of_samples (values : list Q) (v : Q) (t : list Q) :
  values = v :: t ->
  (transitions <- count_transitions (combine values (tl values)) 0%Z ;;
   first <- list_item values 0 ;;
   last <- list_item values (-1) ;;
   wrap <- is_transition last first ;;
   let transitions := if wrap then (transitions + 1)%Z else transitions in
   let passed := (GATE_B_ROI_TRANSITIONS_MIN <=? transitions)%Z in
   Ok (transitions, passed, values)) =
  Ok (spec_transitions values,
      (GATE_B_ROI_TRANSITIONS_MIN <=? spec_transitions values)%Z, values).
Proof.
  intros ->. rewrite count_transitions_spec. cbn [bind tl].
  rewrite list_item_first, list_item_last. cbn [bind].
  rewrite is_transition_spec. cbn [bind].
  unfold spec_transitions, spec_closed_pairs. cbn [tl hd].
  rewrite closed_pairs_split, filter_app, length_app. cbn [filter].
  destruct (spec_is_transition (last (v :: t) 0, v)); cbn [length];
    cbv zeta; repeat f_equal; lia.
Qed.

Lemma gate_b_small (blurred : LumaField) (roi : Roi) :
  (inset_right roi <= inset_left roi)%Z \/ (inset_bottom roi <= inset_top roi)%Z ->
  gate_b_transition_count blurred roi = Ok (0%Z, false, []).
Proof.
  unfold inset_left, inset_right, inset_top, inset_bottom.
  intros H. unfold gate_b_transition_count. cbv zeta.
  destruct (Z.leb_spec (x1 roi - 1 - 3) (x0 roi + 3));
    destruct (Z.leb_spec (y1 roi - 1 - 3) (y0 roi + 3)); try reflexivity; lia.
Qed.

(** On a ROI large enough to hold the inset rectangle, the samples are
    the clamp-free window means along the walk. *)
Lemma gate_b_walk (blurred : LumaField) (roi : Roi) :
  (inset_left roi < inset_right roi)%Z -> (inset_top roi < inset_bottom roi)%Z ->
  let values :=
    map (fun p => np_mean (flatten (slice2 blurred (snd p - 2) (snd p + 2 + 1)
                                      (fst p - 2) (fst p + 2 + 1))))
      (boundary_path (inset_left roi) (inset_right roi)
         (inset_top roi) (inset_bottom roi)) in
  gate_b_transition_count blurred roi =
  Ok (spec_transitions values,
      (GATE_B_ROI_TRANSITIONS_MIN <=? spec_transitions values)%Z, values).
Proof.
  intros Hlr Htb values.
  pose proof (boundary_path_length _ _ _ _ Hlr Htb) as Hlen.
  unfold gate_b_transition_count. cbv zeta.
  fold (inset_left roi) (inset_right roi) (inset_top roi) (inset_bottom roi).
  destruct (Z.leb_spec (inset_right roi) (inset_left roi)); [lia |].
  destruct (Z.leb_spec (inset_bottom roi) (inset_top roi)); [lia |].
  cbn [orb].
  destruct (Nat.ltb_spec
              (length (boundary_path (inset_left roi) (inset_right roi)
                         (inset_top roi) (inset_bottom roi))) 2); [lia |].
  rewrite (mapM_ok _ (fun p => np_mean (flatten (slice2 blurred (snd p - 2)
             (snd p + 2 + 1) (fst p - 2) (fst p + 2 + 1))))).
  2:{ intros [x y] Hin. apply in_boundary_path in Hin; [| lia | lia].
      apply average_window_inset; cbn [fst snd]; lia. }
  cbn [bind]. fold values.
  destruct values as [| v t] eqn:E.
  { apply (f_equal (@length Q)) in E. unfold values in E.
    rewrite length_map in E. cbn in E. lia. }
  apply (transitions_of_samples (v :: t) v t eq_refl).
Qed.

Lemma gate_b_total (blurred : LumaField) (roi : Roi) :
  exists transitions values,
    gate_b_transition_count blurred roi =
    Ok (transitions, (GATE_B_ROI_TRANSITIONS_MIN <=? transitions)%Z, values).
Proof.
  destruct (Z_lt_le_dec (inset_left roi) (inset_right roi)) as [Hx | Hx].
  - destruct (Z_lt_le_dec (inset_top roi) (inset_bottom roi)) as [Hy | Hy].
    + eexists _, _. apply gate_b_walk; assumption.
    + exists 0%Z, []. apply gate_b_small. right. exact Hy.
  - exists 0%Z, []. apply gate_b_small. left. exact Hx.
Qed.

Lemma gate_b_samples (blurred : LumaField) (roi : Roi) :
  roi_inside roi blurred ->
  (inset_left roi < inset_right roi)%Z -> (inset_top roi < inset_bottom roi)%Z ->
  gate_b_transition_count blurred roi =
  Ok (spec_transitions (spec_samples blurred roi),
      (GATE_B_ROI_TRANSITIONS_MIN <=? spec_transitions (spec_samples blurred roi))%Z,
      spec_samples blurred roi).
Proof.
  intros Hin Hlr Htb. rewrite gate_b_walk by assumption. cbv zeta.
  assert (map (fun p => np_mean (flatten (slice2 blurred (snd p - 2)
             (snd p + 2 + 1) (fst p - 2) (fst p + 2 + 1))))
            (boundary_path (inset_left roi) (inset_right roi)
               (inset_top roi) (inset_bottom roi)) =
          spec_samples blurred roi) as ->; [| reflexivity].
  unfold spec_samples. apply map_ext_in. intros [x y] Hp.
  apply in_boundary_path in Hp; [| lia | lia]. cbn [fst snd].
  apply (window_patch_inside blurred roi); [assumption | lia | lia].
Qed.

(** ** [verify_image] *)

Section VerifyImage.

Variable gaussian_blur : LumaField -> Z -> LumaField.
Variable open_image : string -> PixelBuffer.

(** [verify_image] never raises: it returns the results of Gates A to D
    in this order, each the conjunction of its two ROI verdicts, followed
    by the Gate E entry. *)
Lemma verify_image_gates (path : string) (require_motion : bool)
    (motion_metrics : option MotionMetrics) :
  let arr := open_image path in
  let left := fst (image_rois arr) in
  let right := snd (image_rois arr) in
  let luma := calculate_luminance arr in
  let blurred := image_blurred gaussian_blur arr in
  exists a_l a_r t_l v_l t_r v_r c_l c_r d_l d_r results,
    gate_a_cloud_visibility blurred left = Ok a_l /\
    gate_a_cloud_visibility blurred right = Ok a_r /\
    gate_b_transition_count blurred left =
      Ok (t_l, (GATE_B_ROI_TRANSITIONS_MIN <=? t_l)%Z, v_l) /\
    gate_b_transition_count blurred right =
      Ok (t_r, (GATE_B_ROI_TRANSITIONS_MIN <=? t_r)%Z, v_r) /\
    gate_c_star_density luma left = Ok c_l /\
    gate_c_star_density luma right = Ok c_r /\
    gate_d_non_black luma left = Ok d_l /\
    gate_d_non_black luma right = Ok d_r /\
    verify_image gaussian_blur open_image path require_motion motion_metrics
      = Ok results /\
    map name results =
      ["Gate A"; "Gate B"; "Gate C"; "Gate D"]
        ++ map name (gate_e_results require_motion motion_metrics) /\
    map passed results =
      [snd a_l && snd a_r;
       (GATE_B_ROI_TRANSITIONS_MIN <=? t_l)%Z
         && (GATE_B_ROI_TRANSITIONS_MIN <=? t_r)%Z
         && (GATE_B_TOTAL_TRANSITIONS_MIN <=? t_l + t_r)%Z;
       snd c_l && snd c_r;
       snd d_l && snd d_r]
        ++ map passed (gate_e_results require_motion motion_metrics).
Proof.
  intros arr left right luma blurred.
  destruct (gate_a_total blurred left) as [a_l Ha_l].
  destruct (gate_a_total blurred right) as [a_r Ha_r].
  destruct (gate_b_total blurred left) as (t_l & v_l & Hb_l).
  destruct (gate_b_total blurred right) as (t_r & v_r & Hb_r).
  destruct (gate_c_total luma left) as [[cd_l cp_l] Hc_l].
  destruct (gate_c_total luma right) as [[cd_r cp_r] Hc_r].
  destruct (gate_d_total luma left) as [[[d50_l d05_l] dp_l] Hd_l].
  destruct (gate_d_total luma right) as [[[d50_r d05_r] dp_r] Hd_r].
  exists a_l, a_r, t_l, v_l, t_r, v_r, (cd_l, cp_l), (cd_r, cp_r),
    (d50_l, d05_l, dp_l), (d50_r, d05_r, dp_r).
  eexists. repeat (split; [eassumption |]).
  unfold verify_image. cbv zeta.
  subst arr left right luma blurred.
  unfold image_blurred, image_sigma, image_rois in *.
  rewrite Ha_l, Ha_r, Hb_l, Hb_r, Hc_l, Hc_r, Hd_l, Hd_r. cbn [bind].
  split; [reflexivity |].
  split; reflexivity.
Qed.

End VerifyImage.

(** ** The contracts of Gates A, B and C, and zero-area ROIs *)

Section GateContracts.

Variable gaussian_blur : LumaField -> Z -> LumaField.
Variable open_image : string -> PixelBuffer.

(** C6: on a ROI of nonzero area inside the raw field, Gate C counts the
    pixels of the ROI at luminance 200 or more, divides by the ROI pixel
    area and passes the ROI iff the density is at least 0.0005; one bright
    pixel in 1000 passes and one in 5000 fails; the Gate C entry of
    [verify_image] passes iff the left and the right ROI both pass. *)
Theorem gate_c_contract (luma : LumaField) (roi : Roi)
    (path : string) (require_motion : bool)
    (motion_metrics : option MotionMetrics) :
  roi_inside roi luma -> (0 < roi_area roi)%Z ->
  (exists roi_passed,
     gate_c_star_density luma roi = Ok (spec_star_density luma roi, roi_passed) /\
     (roi_passed = true <-> 0.0005 <= spec_star_density luma roi) /\
     (roi_area roi = (1000 * spec_star_count luma roi)%Z -> roi_passed = true) /\
     (roi_area roi = (5000 * spec_star_count luma roi)%Z -> roi_passed = false)) /\
  (let arr := open_image path in
   exists c_left c_right results,
     gate_c_star_density (calculate_luminance arr) (fst (image_rois arr))
       = Ok c_left /\
     gate_c_star_density (calculate_luminance arr) (snd (image_rois arr))
       = Ok c_right /\
     verify_image gaussian_blur open_image path require_motion motion_metrics
       = Ok results /\
     nth_error (map name results) 2 = Some "Gate C" /\
     exists gate_c_passed,
       nth_error (map passed results) 2 = Some gate_c_passed /\
       (gate_c_passed = true <-> snd c_left = true /\ snd c_right = true)).
Proof.
  intros Hin Hpos. split.
  - eexists. split; [apply gate_c_density; assumption |].
    pose proof (Qge_bool_iff (spec_star_density luma roi)
                  GATE_C_STAR_DENSITY_MIN) as Hiff.
    split; [exact Hiff | split].
    + intros Harea. apply Hiff. unfold spec_star_density.
      rewrite Harea. unfold GATE_C_STAR_DENSITY_MIN.
      assert (0 < inject_Z (spec_star_count luma roi)) as Hc.
      { change 0 with (inject_Z 0). rewrite <- Zlt_Qlt. lia. }
      apply Qle_shift_div_l.
      * change 0 with (inject_Z 0). rewrite <- Zlt_Qlt. lia.
      * rewrite inject_Z_mult. change (inject_Z 1000) with 1000. lra.
    + intros Harea.
      destruct (Qge_bool (spec_star_density luma roi) GATE_C_STAR_DENSITY_MIN)
        eqn:E; [| reflexivity].
      exfalso. apply Qge_bool_iff in E. revert E. unfold spec_star_density.
      rewrite Harea. unfold GATE_C_STAR_DENSITY_MIN.
      assert (0 < inject_Z (spec_star_count luma roi)) as Hc.
      { change 0 with (inject_Z 0). rewrite <- Zlt_Qlt. lia. }
      intros E. apply Qlt_not_le in E; [exact E |].
      apply Qlt_shift_div_r.
      * change 0 with (inject_Z 0). rewrite <- Zlt_Qlt. lia.
      * rewrite inject_Z_mult. change (inject_Z 5000) with 5000. lra.
  - cbv zeta.
    destruct (verify_image_gates gaussian_blur open_image path require_motion
                motion_metrics)
      as (a_l & a_r & t_l & v_l & t_r & v_r & c_l & c_r & d_l & d_r & results
          & _ & _ & _ & _ & Hc_l & Hc_r & _ & _ & Hv & Hn & Hp).
    exists c_l, c_r, results.
    repeat (split; [assumption |]).
    rewrite Hn, Hp. split; [reflexivity |].
    eexists. split; [reflexivity |]. apply andb_true_iff.
Qed.

End GateContracts.

(** C8, as the code has it: on a zero-area ROI with non-negative
    coordinates, Gates A, B, C and D each return -- without raising -- a
    failing result whose metrics are all zero. *)
Theorem zero_area_gates_fail_closed (field : LumaField) (roi : Roi) :
  roi_nonneg roi -> roi_area roi = 0%Z ->
  gate_a_cloud_visibility field roi = Ok (0, 0, 0, 0, false) /\
  gate_b_transition_count field roi = Ok (0%Z, false, []) /\
  gate_c_star_density field roi = Ok (0, false) /\
  gate_d_non_black field roi = Ok (0, 0, false).
Proof.
  intros Hnn Hz.
  pose proof (roi_slice_empty field roi Hnn Hz) as Hempty.
  split; [apply gate_a_empty, Hempty |].
  split; [| split; [apply gate_c_empty, Hempty | apply gate_d_empty, Hempty]].
  apply gate_b_small. apply roi_area_zero in Hz.
  unfold inset_left, inset_right, inset_top, inset_bottom. lia.
Qed.

(** Gate C on a ROI of 1000 pixels with one star. *)
Lemma gate_c_contract_witness :
  roi_inside star_roi star_field /\ (0 < roi_area star_roi)%Z /\
  roi_area star_roi = (1000 * spec_star_count star_field star_roi)%Z /\
  gate_c_star_density star_field star_roi =
    Ok (spec_star_density star_field star_roi, true).
Proof.
  assert (roi_inside star_roi star_field) as Hin
    by (unfold roi_inside, roi_in_bounds; cbn; lia).
  assert (0 < roi_area star_roi)%Z as Hpos by reflexivity.
  assert (roi_area star_roi = (1000 * spec_star_count star_field star_roi)%Z)
    as Hone by (vm_compute; reflexivity).
  split; [exact Hin | split; [exact Hpos | split; [exact Hone |]]].
  destruct (gate_c_contract id_blur example_files star_field star_roi
              "black.png" false None Hin Hpos) as [(b & Hg & _ & H1000 & _) _].
  rewrite Hg, (H1000 Hone). reflexivity.
Defined.


(** The ROIs of a 4 by 4 image are empty. *)
Lemma zero_area_gates_fail_closed_witness :
  roi_nonneg (fst (get_rois 4 4)) /\ roi_area (fst (get_rois 4 4)) = 0%Z /\
  gate_a_cloud_visibility ramp_field (fst (get_rois 4 4)) = Ok (0, 0, 0, 0, false) /\
  gate_b_transition_count ramp_field (fst (get_rois 4 4)) = Ok (0%Z, false, []) /\
  gate_c_star_density ramp_field (fst (get_rois 4 4)) = Ok (0, false) /\
  gate_d_non_black ramp_field (fst (get_rois 4 4)) = Ok (0, 0, false).
Proof.
  assert (roi_nonneg (fst (get_rois 4 4))) as Hnn
    by (unfold roi_nonneg; vm_compute; repeat split; discriminate).
  assert (roi_area (fst (get_rois 4 4)) = 0%Z) as Hz by (vm_compute; reflexivity).
  split; [exact Hnn | split; [exact Hz |]].
  apply (zero_area_gates_fail_closed ramp_field (fst (get_rois 4 4)) Hnn Hz).
Defined.


(** On the 4 by 4 image and on the black image the four gate results are
    the same value: names, flags and detail lines. *)
Lemma tiny_results_as_black : tiny_results = black_results.
Proof. vm_compute. reflexivity. Qed.

(** C8, as stated, fails: a 4 by 4 image has two empty ROIs, and the
    detail lines its Gates A to D report are the measured values, all 0;
    they are, line for line, those of a black image whose ROIs hold
    pixels -- nothing in them tells the zero-area condition. *)
Lemma zero_area_diagnostic_not_explicit :
  roi_area (fst (image_rois (example_files "tiny.png"))) = 0%Z /\
  roi_area (snd (image_rois (example_files "tiny.png"))) = 0%Z /\
  (0 < roi_area (fst (image_rois (example_files "black.png"))))%Z /\
  (0 < roi_area (snd (image_rois (example_files "black.png"))))%Z /\
  (exists run,
     tiny_results = Ok run /\ black_results = Ok run /\
     map passed run = [false; false; false; false] /\
     map details run =
       [["Left ROI contrast=0.0000 (P05=0.00, P50=0.00, P95=0.00)";
         "Right ROI contrast=0.0000 (P05=0.00, P50=0.00, P95=0.00)";
         "Threshold contrast >= 0.35"];
        ["Left ROI transitions=0 (threshold >= 4)";
         "Right ROI transitions=0 (threshold >= 4)";
         "Total transitions=0 (threshold >= 12)"];
        ["Left ROI star_density=0.000000 (threshold >= 0.0005)";
         "Right ROI star_density=0.000000 (threshold >= 0.0005)"];
        ["Left ROI P50=0.00, P05=0.00 (thresholds >= 14.0 / 6.0)";
         "Right ROI P50=0.00, P05=0.00 (thresholds >= 14.0 / 6.0)"]]) /\
  ~ zero_area_explicit tiny_results black_results.
Proof.
  split; [vm_compute; reflexivity |].
  split; [vm_compute; reflexivity |].
  split; [vm_compute; reflexivity |].
  split; [vm_compute; reflexivity |].
  rewrite <- tiny_results_as_black.
  assert (exists a l, tiny_results = Ok (a :: l)) as (a & l & Hrun)
    by (vm_compute; eauto).
  split.
  - exists (a :: l). split; [exact Hrun |]. split; [exact Hrun |].
    assert (Ok (a :: l) = tiny_results) as Hback by (symmetry; exact Hrun).
    vm_compute in Hback. injection Hback as -> ->.
    split; reflexivity.
  - rewrite Hrun. cbn. intros Hall.
    inversion Hall as [| ? ? ? ? Hne _]. now apply Hne.
Qed.

(** ** Gate E: the loop over adjacent frames *)

Lemma list_item_nth {A} (l : list A) (i : nat) (d : A) :
  (i < length l)%nat -> list_item l (Z.of_nat i) = Ok (nth i l d).
Proof.
  intros H. unfold list_item, index_bound.
  destruct (Z.ltb_spec (Z.of_nat i) 0); [lia |].
  destruct (Z.leb_spec 0 (Z.of_nat i)); [| lia].
  destruct (Z.ltb_spec (Z.of_nat i) (Z.of_nat (length l))); [| lia].
  cbn [andb bind]. rewrite Nat2Z.id.
  rewrite (nth_error_nth' l d H). reflexivity.
Qed.

Lemma adjacent_pairs_nth (frames : list PixelBuffer) (d : PixelBuffer) :
  spec_adjacent_pairs frames =
  map (fun i => (nth i frames d, nth (S i) frames d))
    (seq 0 (length frames - 1)).
Proof.
  unfold spec_adjacent_pairs.
  induction frames as [| a t IH]; [reflexivity |].
  destruct t as [| b t']; [reflexivity |].
  change (combine (a :: b :: t') (tl (a :: b :: t')))
    with ((a, b) :: combine (b :: t') (tl (b :: t'))).
  rewrite IH.
  replace (length (a :: b :: t') - 1)%nat with (S (length t'))
    by (cbn [length]; lia).
  replace (length (b :: t') - 1)%nat with (length t') by (cbn [length]; lia).
  cbn [seq map nth]. f_equal.
  rewrite <- seq_shift, map_map. reflexivity.
Qed.

Lemma moving_ratio_spec (fa fb : PixelBuffer) (roi : Roi) :
  nrows fb = nrows fa -> ncols fb = ncols fa ->
  exists delta,
    arr_sub (calculate_luminance fb) (calculate_luminance fa) = Ok delta /\
    forall roi,
      moving_ratio (arr_map Qabs delta) roi = spec_moving_ratio roi (fa, fb).
Proof.
  intros Hr Hc.
  destruct (arr_sub_same_shape (calculate_luminance fb)
              (calculate_luminance fa) Hr Hc) as (d & Hd & Hdr & Hdc & Hat).
  exists d. split; [exact Hd |]. intros r.
  destruct (roi_slice_ext (arr_map Qabs d) (spec_delta_field (fa, fb)) r)
    as [Hflat Hsize].
  - cbn [arr_map spec_delta_field nrows]. exact Hdr.
  - cbn [arr_map spec_delta_field ncols]. exact Hdc.
  - cbn [arr_map spec_delta_field nrows ncols at_]. intros y x Hy Hx.
    rewrite Hat by (first [rewrite <- Hdr | rewrite <- Hdc]; assumption).
    reflexivity.
  - unfold moving_ratio, spec_moving_ratio.
    rewrite count_ge_filter, Hsize, Hflat, <- flatten_length.
    destruct (flatten (roi_slice (spec_delta_field (fa, fb)) r));
      reflexivity.
Qed.

Lemma motion_loop_ok (frames : list PixelBuffer) (left right : Roi)
    (d : PixelBuffer) :
  same_shape frames ->
  forall n k acc_l acc_r,
    (n = 0 \/ k + n < length frames)%nat ->
    motion_loop frames left right
      (map (fun i => (0 + Z.of_nat i)%Z) (seq k n)) (acc_l, acc_r) =
    Ok (acc_l ++
          map (fun i => spec_moving_ratio left
                          (nth i frames d, nth (S i) frames d)) (seq k n),
        acc_r ++
          map (fun i => spec_moving_ratio right
                          (nth i frames d, nth (S i) frames d)) (seq k n)).
Proof.
  intros Hshape.
  induction n as [| n IH]; intros k acc_l acc_r H.
  - cbn. rewrite !app_nil_r. reflexivity.
  - destruct H as [H | H]; [discriminate |].
    cbn [seq map motion_loop].
    rewrite Z.add_0_l, (list_item_nth frames k d) by lia. cbn [bind].
    replace (Z.of_nat k + 1)%Z with (Z.of_nat (S k)) by lia.
    rewrite (list_item_nth frames (S k) d) by lia. cbn [bind].
    destruct (Hshape (nth (S k) frames d) (nth k frames d))
      as [Hr Hc]; [apply nth_In; lia | apply nth_In; lia |].
    destruct (moving_ratio_spec (nth k frames d) (nth (S k) frames d) left
                Hr Hc) as (delta & -> & Hratio).
    cbn [bind]. rewrite !Hratio, IH by (right; lia).
    rewrite <- !app_assoc. reflexivity.
Qed.

Lemma mean_or_zero_spec (l : list Q) : mean_or_zero l = spec_average l.
Proof. destruct l; reflexivity. Qed.

Lemma compute_motion_metrics_spec (frames : list PixelBuffer)
    (left right : Roi) :
  same_shape frames ->
  let l := map (spec_moving_ratio left) (spec_adjacent_pairs frames) in
  let r := map (spec_moving_ratio right) (spec_adjacent_pairs frames) in
  compute_motion_metrics frames left right =
  Ok (mk_MotionMetrics l r (spec_average l) (spec_average r)
        (Qge_bool (spec_average l) GATE_E_MOVING_RATIO_MIN)
        (Qge_bool (spec_average r) GATE_E_MOVING_RATIO_MIN)).
Proof.
  intros Hshape. cbv zeta. unfold compute_motion_metrics, py_range.
  set (d := solid_image 0 0 black).
  rewrite (motion_loop_ok frames left right d Hshape).
  - cbn [bind app]. rewrite !mean_or_zero_spec.
    rewrite (adjacent_pairs_nth frames d), !map_map.
    replace (Z.to_nat (Z.of_nat (length frames) - 1 - 0))
      with (length frames - 1)%nat by lia.
    reflexivity.
  - destruct frames; [left; reflexivity | right; cbn [length]; lia].
Qed.

(** ** Gate E: still frames and frames a constant apart *)

Lemma Forall_flatten {A} (P : A -> Prop) (a : ndarray A) :
  (forall y x, (y < nrows a)%nat -> (x < ncols a)%nat -> P (at_ a y x)) ->
  Forall P (flatten a).
Proof.
  intros H. unfold flatten. apply Forall_flat_map, Forall_forall.
  intros y Hy. apply in_seq in Hy.
  apply Forall_map, Forall_forall. intros x Hx. apply in_seq in Hx.
  apply H; lia.
Qed.

Lemma filter_none {A} (f : A -> bool) (l : list A) :
  Forall (fun v => f v = false) l -> filter f l = [].
Proof.
  induction 1 as [| v l Hv _ IH]; cbn [filter]; [reflexivity |].
  rewrite Hv. exact IH.
Qed.

Lemma filter_all {A} (f : A -> bool) (l : list A) :
  Forall (fun v => f v = true) l -> filter f l = l.
Proof.
  induction 1 as [| v l Hv _ IH]; cbn [filter]; [reflexivity |].
  rewrite Hv, IH. reflexivity.
Qed.

Lemma Qsum_zero (l : list Q) : Forall (fun r => r == 0) l -> Qsum l == 0.
Proof.
  unfold Qsum. generalize 0 at 2 3 as acc.
  induction l as [| h t IH]; intros acc H; cbn [fold_left]; [reflexivity |].
  inversion H as [| ? ? Hh Ht]; subst.
  rewrite (IH _ Ht), Hh. ring.
Qed.

Lemma spec_average_zero (l : list Q) :
  Forall (fun r => r == 0) l -> spec_average l == 0.
Proof.
  intros H. destruct l as [| h t]; [reflexivity |].
  unfold spec_average. rewrite (Qsum_zero _ H). unfold Qdiv. ring.
Qed.

Lemma below_threshold (avg : Q) :
  avg == 0 -> Qge_bool avg GATE_E_MOVING_RATIO_MIN = false.
Proof.
  intros H. destruct (Qge_bool avg GATE_E_MOVING_RATIO_MIN) eqn:E;
    [| reflexivity].
  apply Qge_bool_iff in E. unfold GATE_E_MOVING_RATIO_MIN in E.
  rewrite H in E. lra.
Qed.

Lemma still_delta (v : Q) : Qle_bool 2 (Qabs (f32_sub v v)) = false.
Proof.
  unfold f32_sub. rewrite f32_round_eq0 by ring. reflexivity.
Qed.

Lemma still_pair_ratio (roi : Roi) (f : PixelBuffer) :
  spec_moving_ratio roi (f, f) == 0.
Proof.
  unfold spec_moving_ratio.
  rewrite (filter_none (Qle_bool 2)).
  - destruct (flatten (roi_slice (spec_delta_field (f, f)) roi));
      [reflexivity |]. unfold Qdiv. cbn [length]. ring.
  - apply Forall_flatten. intros y x _ _.
    unfold roi_slice, slice2, spec_delta_field. cbn [at_].
    apply still_delta.
Qed.

Lemma still_frames_ratios (roi : Roi) (frames : list PixelBuffer) :
  (forall fa fb, In fa frames -> In fb frames -> fa = fb) ->
  Forall (fun r => r == 0)
    (map (spec_moving_ratio roi) (spec_adjacent_pairs frames)).
Proof.
  intros Hsame. apply Forall_map, Forall_forall. intros (fa, fb) Hin.
  unfold spec_adjacent_pairs in Hin.
  pose proof (in_combine_l _ _ _ _ Hin) as Ha.
  pose proof (in_combine_r _ _ _ _ Hin) as Hb.
  assert (In fb frames) as Hb'.
  { destruct frames; [contradiction | right; exact Hb]. }
  rewrite (Hsame fa fb Ha Hb'). apply still_pair_ratio.
Qed.

Lemma delta_field_inside (roi : Roi) (fa fb : PixelBuffer) :
  roi_inside roi fb -> roi_inside roi (spec_delta_field (fa, fb)).
Proof. intros H. exact H. Qed.

Lemma delta_values_nonempty (roi : Roi) (fa fb : PixelBuffer) :
  roi_inside roi fb -> (0 < roi_area roi)%Z ->
  flatten (roi_slice (spec_delta_field (fa, fb)) roi) <> [].
Proof.
  intros Hin Hpos.
  pose proof (roi_slice_nonempty (spec_delta_field (fa, fb)) roi
                (delta_field_inside roi fa fb Hin) Hpos) as Hne.
  rewrite <- flatten_length in Hne. intros E. rewrite E in Hne.
  apply Hne. reflexivity.
Qed.

Lemma offset_delta_values (roi : Roi) (fa fb : PixelBuffer) (c : Q) :
  roi_inside roi fb -> 2 <= f32_round c -> differs_by roi fa fb c ->
  Forall (fun v => Qle_bool 2 v = true)
    (flatten (roi_slice (spec_delta_field (fa, fb)) roi)).
Proof.
  intros Hin Hc Hdiff.
  apply Forall_flatten. intros y x Hy Hx.
  unfold roi_inside, roi_in_bounds in Hin.
  unfold roi_slice, slice2, spec_delta_field in *.
  cbn [at_ nrows ncols] in *.
  destruct Hin as (Hx0 & Hxw & Hy0 & Hyh).
  rewrite !slice_bound_inside in Hy, Hx by lia.
  rewrite !slice_bound_inside by lia.
  apply Qle_bool_iff.
  assert (in_roi roi (Z.to_nat (y0 roi) + y) (Z.to_nat (x0 roi) + x))
    as Hroi by (unfold in_roi; lia).
  pose proof (Hdiff _ _ Hroi) as E.
  unfold f32_sub. rewrite f32_round_abs.
  rewrite (f32_round_proper _ c (Qabs_nonneg _) E). exact Hc.
Qed.

Lemma offset_pair_ratio (roi : Roi) (fa fb : PixelBuffer) (c : Q) :
  roi_inside roi fb -> (0 < roi_area roi)%Z -> 2 <= f32_round c ->
  differs_by roi fa fb c ->
  spec_moving_ratio roi (fa, fb) == 1.
Proof.
  intros Hin Hpos Hc Hdiff. unfold spec_moving_ratio.
  pose proof (delta_values_nonempty roi fa fb Hin Hpos) as Hne.
  rewrite (filter_all (Qle_bool 2))
    by (apply (offset_delta_values roi fa fb c); assumption).
  destruct (flatten (roi_slice (spec_delta_field (fa, fb)) roi))
    as [| v l]; [contradiction |].
  apply Qmult_inv_r. intros H. change 0 with (inject_Z 0) in H.
  apply (proj1 (inject_Z_injective _ _)) in H. cbn [length] in H. lia.
Qed.

Lemma single_ratio_average (r : Q) : spec_average [r] == r.
Proof. unfold spec_average, Qsum. cbn. field. Qed.

(** ** Gate E: the contract *)

Lemma round_50 : 2 <= f32_round 50.
Proof. unfold Qle. vm_compute. discriminate. Qed.



(** ** Gate F: dot products and norms *)

Lemma fold_left_Rplus (l : list R) (acc : R) :
  fold_left Rplus l acc = (acc + fold_right Rplus 0 l)%R.
Proof.
  revert acc. induction l as [| x l IH]; intros acc; cbn [fold_left fold_right].
  - Lra.lra.
  - rewrite IH. Lra.lra.
Qed.

Lemma np_dot_spec (a b : list R) : np_dot a b = spec_dot a b.
Proof.
  unfold np_dot, spec_dot. rewrite fold_left_Rplus, Rplus_0_l.
  induction (combine a b) as [| ab l IH]; cbn [map fold_right];
    [reflexivity |].
  rewrite IH. reflexivity.
Qed.

Lemma spec_dot_self (h : list R) :
  spec_dot h h = fold_right (fun x acc => (x * x + acc)%R) 0%R h.
Proof.
  unfold spec_dot. induction h as [| x h IH]; cbn [combine fold_right fst snd];
    [reflexivity |].
  rewrite IH. reflexivity.
Qed.

Lemma np_norm_spec (h : list R) : np_norm h = spec_length h.
Proof. unfold np_norm, spec_length. rewrite np_dot_spec, spec_dot_self. reflexivity. Qed.

Lemma spec_dot_self_nonneg (h : list R) : (0 <= spec_dot h h)%R.
Proof.
  rewrite spec_dot_self. induction h as [| x h IH]; cbn [fold_right].
  - Lra.lra.
  - pose proof (Rle_0_sqr x) as Hx. unfold Rsqr in Hx. Lra.lra.
Qed.

Lemma spec_dot_self_pos (h : list R) (x : R) :
  In x h -> x <> 0%R -> (0 < spec_dot h h)%R.
Proof.
  intros Hin Hx. rewrite spec_dot_self.
  induction h as [| y h IH]; [contradiction |].
  cbn [fold_right].
  pose proof (spec_dot_self_nonneg h) as Hh. rewrite spec_dot_self in Hh.
  pose proof (Rle_0_sqr y) as Hy. unfold Rsqr in Hy.
  destruct Hin as [-> | Hin].
  - pose proof (Rsqr_pos_lt x Hx) as Hp. unfold Rsqr in Hp. Lra.lra.
  - specialize (IH Hin). Lra.lra.
Qed.

Lemma spec_dot_scale (n : R) (a b : list R) :
  n <> 0%R ->
  spec_dot (map (fun x => (x / n)%R) a) (map (fun x => (x / n)%R) b)
  = (spec_dot a b / (n * n))%R.
Proof.
  intros Hn. unfold spec_dot. revert b.
  induction a as [| x a IH]; intros b.
  - cbn. field. exact Hn.
  - destruct b as [| y b].
    + cbn. field. exact Hn.
    + cbn [map combine fold_right fst snd]. rewrite IH. field. exact Hn.
Qed.

Lemma spec_dot_zero_l (a b : list R) :
  Forall (fun x => x = 0%R) a -> spec_dot a b = 0%R.
Proof.
  unfold spec_dot. intros H. revert b.
  induction H as [| x a Hx _ IH]; intros b; [reflexivity |].
  destruct b as [| y b]; [reflexivity |].
  cbn [combine fold_right fst snd]. rewrite IH, Hx. Lra.lra.
Qed.

Lemma spec_dot_zero_r (a b : list R) :
  Forall (fun x => x = 0%R) b -> spec_dot a b = 0%R.
Proof.
  unfold spec_dot. intros H. revert a.
  induction H as [| y b Hy _ IH]; intros a.
  - destruct a; reflexivity.
  - destruct a as [| x a]; [reflexivity |].
    cbn [combine fold_right fst snd]. rewrite IH, Hy. Lra.lra.
Qed.

(** ** Gate F: the normalisation *)

Lemma l2_normalise_zero (counts : list Z) :
  all_zero counts ->
  l2_normalise counts = map IZR counts /\
  np_norm (map IZR counts) = 0%R /\
  Forall (fun x => x = 0%R) (l2_normalise counts).
Proof.
  intros Hz.
  assert (Forall (fun x => x = 0%R) (map IZR counts)) as Hr.
  { apply Forall_map. revert Hz. apply Forall_impl. intros c ->. reflexivity. }
  assert (np_norm (map IZR counts) = 0%R) as Hn.
  { unfold np_norm. rewrite np_dot_spec, (spec_dot_zero_l _ _ Hr).
    apply sqrt_0. }
  assert (l2_normalise counts = map IZR counts) as Hl.
  { unfold l2_normalise. cbv zeta.
    destruct (Req_dec_T (np_norm (map IZR counts)) 0); [reflexivity |].
    contradiction. }
  rewrite Hl. repeat split; assumption.
Qed.

Lemma l2_normalise_unit (counts : list Z) (c : Z) :
  In c counts -> c <> 0%Z ->
  l2_normalise counts
    = map (fun x => (x / spec_length (map IZR counts))%R) (map IZR counts) /\
  np_dot (l2_normalise counts) (l2_normalise counts) = 1%R /\
  np_norm (l2_normalise counts) = 1%R.
Proof.
  intros Hin Hc.
  assert (0 < spec_dot (map IZR counts) (map IZR counts))%R as Hpos.
  { apply (spec_dot_self_pos _ (IZR c)).
    - apply in_map. exact Hin.
    - intros H. apply eq_IZR_R0 in H. contradiction. }
  assert (0 < np_norm (map IZR counts))%R as Hnorm.
  { unfold np_norm. rewrite np_dot_spec. apply sqrt_lt_R0. exact Hpos. }
  assert (l2_normalise counts
          = map (fun x => (x / np_norm (map IZR counts))%R) (map IZR counts))
    as Hl.
  { unfold l2_normalise. cbv zeta.
    destruct (Req_dec_T (np_norm (map IZR counts)) 0) as [E | _];
      [Lra.lra | reflexivity]. }
  assert (np_dot (l2_normalise counts) (l2_normalise counts) = 1%R) as Hone.
  { rewrite Hl, np_dot_spec, spec_dot_scale by Lra.lra.
    unfold np_norm at 1 2. rewrite np_dot_spec, sqrt_sqrt by Lra.lra.
    field. Lra.lra. }
  split; [rewrite Hl, np_norm_spec; reflexivity |].
  split; [exact Hone |].
  unfold np_norm. rewrite Hone. apply sqrt_1.
Qed.

(** ** Gate F: the histogram *)

Lemma hist_bin_range (v : Q) (k : nat) :
  hist_bin v = Some k -> 0 <= v /\ v <= 255.
Proof.
  unfold hist_bin.
  destruct (Qle_bool 0 v) eqn:E0; [| discriminate].
  destruct (Qle_bool v 255) eqn:E1; [| discriminate].
  intros _. split; apply Qle_bool_iff; assumption.
Qed.

Lemma hist_bin_in_range (v : Q) :
  0 <= v -> v <= 255 -> exists k, (k < 64)%nat /\ hist_bin v = Some k.
Proof.
  intros H0 H1. unfold hist_bin.
  apply Qle_bool_iff in H0, H1. rewrite H0, H1. cbn [andb].
  eexists. split; [| reflexivity]. lia.
Qed.

Lemma Qle_bool_false (a b : Q) : Qle_bool a b = false -> b < a.
Proof.
  intros H. apply Qnot_le_lt. intros C. apply Qle_bool_iff in C. congruence.
Qed.

Lemma hist_bin_spec (k : nat) (v : Q) :
  (k < 64)%nat -> (hist_bin v = Some k <-> spec_in_bin k v = true).
Proof.
  intros Hk. unfold hist_bin, spec_in_bin.
  set (x := v * 64 / 255).
  assert (x * 255 == v * 64) as Ex by (unfold x; field).
  pose proof (Qfloor_le x) as Hf1. pose proof (Qlt_floor x) as Hf2.
  set (f := Qfloor x) in *.
  rewrite inject_Z_plus in Hf2. change (inject_Z 1) with 1 in Hf2.
  set (e := bin_edge k).
  assert (e * 64 == inject_Z (Z.of_nat k) * 255) as Ee
    by (unfold e, bin_edge; field).
  set (e' := bin_edge (S k)).
  assert (e' * 64 == (inject_Z (Z.of_nat k) + 1) * 255) as Ee'.
  { unfold e', bin_edge. rewrite Nat2Z.inj_succ. unfold Z.succ.
    rewrite inject_Z_plus. change (inject_Z 1) with 1. field. }
  assert (inject_Z 0 <= inject_Z (Z.of_nat k)) as HK0
    by (rewrite <- Zle_Qle; lia).
  assert (inject_Z (Z.of_nat k) <= inject_Z 63) as HK1
    by (rewrite <- Zle_Qle; lia).
  change (inject_Z 0) with 0 in HK0. change (inject_Z 63) with 63 in HK1.
  split.
  - remember (Nat.min 63 (Z.to_nat f)) as m eqn:Hm. intros H.
    destruct (Qle_bool 0 v) eqn:E0; [| discriminate].
    destruct (Qle_bool v 255) eqn:E1; [| discriminate].
    cbn [andb] in H. injection H as Hmin.
    apply Qle_bool_iff in E0, E1.
    assert (0 <= f <= 64)%Z as Hfr.
    { split.
      - assert (inject_Z (-1) < inject_Z f) as Hlt
          by (change (inject_Z (-1)) with (-1); lra).
        rewrite <- Zlt_Qlt in Hlt. lia.
      - assert (inject_Z f <= inject_Z 64) as Hle
          by (change (inject_Z 64) with 64; lra).
        rewrite <- Zle_Qle in Hle. lia. }
    apply andb_true_iff.
    destruct (Nat.eqb_spec k 63) as [K63 | Hne].
    + assert (inject_Z 63 <= inject_Z f) as Hlow
        by (rewrite <- Zle_Qle; lia).
      change (inject_Z 63) with 63 in Hlow.
      assert (inject_Z (Z.of_nat k) == 63) as HK by (rewrite K63; reflexivity).
      split; [apply Qle_bool_iff; lra | reflexivity].
    + assert (f = Z.of_nat k) as Hfk by lia.
      rewrite Hfk in Hf1, Hf2.
      split; [apply Qle_bool_iff; lra |].
      destruct (Qle_bool e' v) eqn:E2; [| reflexivity].
      apply Qle_bool_iff in E2. lra.
  - intros H. apply andb_true_iff in H as [H1 H2].
    apply Qle_bool_iff in H1.
    destruct (Nat.eqb_spec k 63) as [K63 | Hne].
    + pose proof (proj1 (Qle_bool_iff _ _) H2) as H2'.
      assert (inject_Z (Z.of_nat k) == 63) as HK by (rewrite K63; reflexivity).
      assert (Qle_bool 0 v = true) as E0 by (apply Qle_bool_iff; lra).
      rewrite E0, H2. cbn [andb]. f_equal.
      assert (inject_Z 62 < inject_Z f) as Hlow
        by (change (inject_Z 62) with 62; lra).
      rewrite <- Zlt_Qlt in Hlow. lia.
    + assert (Qle_bool e' v = false) as E2
        by (destruct (Qle_bool e' v); [discriminate | reflexivity]).
      apply Qle_bool_false in E2.
      assert (inject_Z (Z.of_nat k) <= inject_Z 62) as HK2
        by (rewrite <- Zle_Qle; lia).
      change (inject_Z 62) with 62 in HK2.
      assert (Qle_bool 0 v = true) as E0 by (apply Qle_bool_iff; lra).
      assert (Qle_bool v 255 = true) as E1 by (apply Qle_bool_iff; lra).
      rewrite E0, E1. cbn [andb]. f_equal.
      assert (inject_Z f < inject_Z (Z.of_nat k + 1)) as Hup
        by (rewrite inject_Z_plus; change (inject_Z 1) with 1; lra).
      assert (inject_Z (Z.of_nat k) < inject_Z (f + 1)) as Hdown
        by (rewrite inject_Z_plus; change (inject_Z 1) with 1; lra).
      rewrite <- Zlt_Qlt in Hup, Hdown. lia.
Qed.

Lemma bin_count_spec (values : list Q) (b : nat) :
  (b < 64)%nat ->
  bin_count values b = Z.of_nat (length (filter (spec_in_bin b) values)).
Proof.
  intros Hb. unfold bin_count.
  assert (forall l acc,
    fold_left
      (fun acc v =>
         match hist_bin v with
         | Some k => if Nat.eqb k b then (acc + 1)%Z else acc
         | None => acc
         end) l acc
    = (acc + Z.of_nat (length (filter (spec_in_bin b) l)))%Z) as H.
  { induction l as [| v l IH]; intros acc; cbn [fold_left filter].
    - cbn. lia.
    - rewrite IH. destruct (spec_in_bin b v) eqn:S.
      + apply (hist_bin_spec b v Hb) in S. rewrite S, Nat.eqb_refl.
        cbn [length]. lia.
      + destruct (hist_bin v) as [k |] eqn:Hh; [| lia].
        destruct (Nat.eqb_spec k b) as [-> | _]; [| lia].
        apply (hist_bin_spec b v Hb) in Hh. congruence. }
  rewrite H. lia.
Qed.

Lemma np_histogram_spec (field : LumaField) :
  np_histogram field = spec_histogram field.
Proof.
  unfold np_histogram, spec_histogram. apply map_ext_in.
  intros b Hb. apply in_seq in Hb. apply bin_count_spec. lia.
Qed.

Lemma np_histogram_length (field : LumaField) :
  length (np_histogram field) = 64%nat.
Proof. unfold np_histogram. rewrite length_map, length_seq. reflexivity. Qed.

Lemma np_histogram_nonzero (field : LumaField) :
  has_value_in_range field ->
  exists c, In c (np_histogram field) /\ c <> 0%Z.
Proof.
  intros (v & Hin & H0 & H1).
  destruct (hist_bin_in_range v H0 H1) as (k & Hk & Hbin).
  exists (bin_count (flatten field) k). split.
  - unfold np_histogram. apply in_map, in_seq. lia.
  - rewrite bin_count_spec by exact Hk.
    apply (hist_bin_spec k v Hk) in Hbin.
    assert (In v (filter (spec_in_bin k) (flatten field))) as Hf
      by (apply filter_In; split; assumption).
    destruct (filter (spec_in_bin k) (flatten field)); [contradiction |].
    cbn [length]. lia.
Qed.

Lemma np_histogram_zero (field : LumaField) :
  (forall v, In v (flatten field) -> ~ (0 <= v /\ v <= 255)) ->
  all_zero (np_histogram field).
Proof.
  intros Hout. unfold all_zero, np_histogram.
  apply Forall_map, Forall_forall. intros b Hb. apply in_seq in Hb.
  rewrite bin_count_spec by lia.
  rewrite filter_none; [reflexivity |].
  apply Forall_forall. intros v Hv.
  destruct (spec_in_bin b v) eqn:S; [| reflexivity].
  apply (hist_bin_spec b v) in S; [| lia].
  apply hist_bin_range in S. destruct (Hout v Hv S).
Qed.

(** ** Gate F: the contract *)

Lemma Rle_bool_iff (a b : R) : Rle_bool a b = true <-> (a <= b)%R.
Proof.
  unfold Rle_bool. destruct (Rle_dec a b); split; intros H;
    try assumption; try reflexivity; [discriminate | contradiction].
Qed.

Lemma correlation_max : Q2R GATE_F_CORRELATION_MAX = 0.75%R.
Proof. unfold Q2R, GATE_F_CORRELATION_MAX. cbn. Lra.lra. Qed.

Lemma l2_normalise_length (counts : list Z) :
  length (l2_normalise counts) = length counts.
Proof.
  unfold l2_normalise. cbv zeta.
  destruct (Req_dec_T (np_norm (map IZR counts)) 0);
    rewrite ?length_map; reflexivity.
Qed.

Lemma flatten_in {A} (a : ndarray A) (y x : nat) :
  (y < nrows a)%nat -> (x < ncols a)%nat -> In (at_ a y x) (flatten a).
Proof.
  intros Hy Hx. unfold flatten. apply in_flat_map. exists y.
  split; [apply in_seq; lia |]. apply in_map, in_seq. lia.
Qed.

Section GateF.

Variable gaussian_blur : LumaField -> Z -> LumaField.
Variable open_image : string -> PixelBuffer.
Variable format_real : nat -> R -> string.

Abbreviation field p := (image_blurred gaussian_blur (open_image p)).
Abbreviation h p := (blurred_hist gaussian_blur open_image p).

Lemma blurred_hist_unfold (p : string) :
  h p = l2_normalise (np_histogram (field p)).
Proof. reflexivity. Qed.

Lemma gate_f_all_levels (level_paths : dict) (p1 p10 p20 : string) :
  dict_get level_paths 1 = Some p1 ->
  dict_get level_paths 10 = Some p10 ->
  dict_get level_paths 20 = Some p20 ->
  gate_f_theme_separation gaussian_blur open_image level_paths =
  Ok (spec_dot (h p1) (h p10), spec_dot (h p10) (h p20),
      Rle_bool (spec_dot (h p1) (h p10)) (Q2R GATE_F_CORRELATION_MAX),
      Rle_bool (spec_dot (h p10) (h p20)) (Q2R GATE_F_CORRELATION_MAX)).
Proof.
  intros H1 H10 H20. unfold gate_f_theme_separation, required_levels.
  cbn [filter]. unfold dict_mem, dict_item. rewrite H1, H10, H20.
  cbn [negb bind]. unfold correlation. rewrite !np_dot_spec. reflexivity.
Qed.

Lemma gate_f_block_all_levels (level_paths : dict) (p1 p10 p20 : string) :
  dict_get level_paths 1 = Some p1 ->
  dict_get level_paths 10 = Some p10 ->
  dict_get level_paths 20 = Some p20 ->
  exists lines,
    gate_f_block gaussian_blur open_image format_real level_paths =
    Ok (Rle_bool (spec_dot (h p1) (h p10)) (Q2R GATE_F_CORRELATION_MAX)
        && Rle_bool (spec_dot (h p10) (h p20)) (Q2R GATE_F_CORRELATION_MAX),
        lines).
Proof.
  intros H1 H10 H20. unfold gate_f_block.
  rewrite (gate_f_all_levels level_paths p1 p10 p20 H1 H10 H20).
  eexists. reflexivity.
Qed.

Lemma unit_histogram (p : string) :
  has_value_in_range (field p) ->
  h p = spec_unit_histogram (field p) /\ spec_dot (h p) (h p) = 1%R /\
  spec_length (h p) = 1%R.
Proof.
  intros Hv. destruct (np_histogram_nonzero _ Hv) as (c & Hin & Hc).
  destruct (l2_normalise_unit _ c Hin Hc) as (Hl & Hdot & Hnorm).
  rewrite blurred_hist_unfold.
  split; [| split].
  - rewrite Hl. unfold spec_unit_histogram.
    rewrite np_histogram_spec. reflexivity.
  - rewrite <- np_dot_spec. exact Hdot.
  - rewrite <- np_norm_spec. exact Hnorm.
Qed.

Lemma above_correlation_max :
  Rle_bool 1 (Q2R GATE_F_CORRELATION_MAX) = false.
Proof.
  destruct (Rle_bool 1 (Q2R GATE_F_CORRELATION_MAX)) eqn:E;
    [| reflexivity].
  apply Rle_bool_iff in E. rewrite correlation_max in E. Lra.lra.
Qed.

Lemma below_correlation_max :
  Rle_bool 0 (Q2R GATE_F_CORRELATION_MAX) = true.
Proof. apply Rle_bool_iff. rewrite correlation_max. Lra.lra. Qed.

Lemma zero_histogram (p : string) :
  all_zero (np_histogram (field p)) ->
  spec_length (map IZR (np_histogram (field p))) = 0%R /\
  h p = map IZR (np_histogram (field p)) /\
  forall other,
    spec_dot (h p) other = 0%R /\ spec_dot other (h p) = 0%R.
Proof.
  intros Hz. destruct (l2_normalise_zero _ Hz) as (Hl & Hn & Hall).
  rewrite blurred_hist_unfold.
  split; [rewrite <- np_norm_spec; exact Hn |].
  split; [exact Hl |].
  intros other. split;
    [apply spec_dot_zero_l | apply spec_dot_zero_r]; exact Hall.
Qed.


(** C10: a field without a value in [[0, 255]] has the all-zero
    histogram; a screenshot whose histogram is all zero has norm zero
    and its histogram is used as it is, so its dot product with any
    histogram is 0; with the three required levels present Gate F then
    returns its scores, and every pair that involves such a screenshot
    has correlation 0 and passes. *)
Theorem zero_histogram_pairs_pass (level_paths : dict)
    (p1 p10 p20 : string) :
  dict_get level_paths 1 = Some p1 ->
  dict_get level_paths 10 = Some p10 ->
  dict_get level_paths 20 = Some p20 ->
  (forall luma : LumaField,
     (forall v, In v (flatten luma) -> ~ (0 <= v /\ v <= 255)) ->
     all_zero (np_histogram luma)) /\
  (forall p,
     all_zero (np_histogram (field p)) ->
     spec_length (map IZR (np_histogram (field p))) = 0%R /\
     h p = map IZR (np_histogram (field p)) /\
     forall other,
       spec_dot (h p) other = 0%R /\ spec_dot other (h p) = 0%R) /\
  exists corr_1_10 corr_10_20 pass_1_10 pass_10_20,
    gate_f_theme_separation gaussian_blur open_image level_paths =
      Ok (corr_1_10, corr_10_20, pass_1_10, pass_10_20) /\
    corr_1_10 = spec_dot (h p1) (h p10) /\
    corr_10_20 = spec_dot (h p10) (h p20) /\
    (all_zero (np_histogram (field p1)) ->
     corr_1_10 = 0%R /\ pass_1_10 = true) /\
    (all_zero (np_histogram (field p10)) ->
     corr_1_10 = 0%R /\ corr_10_20 = 0%R /\
     pass_1_10 = true /\ pass_10_20 = true) /\
    (all_zero (np_histogram (field p20)) ->
     corr_10_20 = 0%R /\ pass_10_20 = true).
Proof.
  intros H1 H10 H20.
  split; [exact np_histogram_zero |].
  split; [exact zero_histogram |].
  eexists _, _, _, _.
  split; [apply (gate_f_all_levels level_paths p1 p10 p20 H1 H10 H20) |].
  split; [reflexivity |]. split; [reflexivity |].
  split; [| split].
  - intros Hz. destruct (zero_histogram p1 Hz) as (_ & _ & Hdot).
    rewrite (proj1 (Hdot (h p10))).
    split; [reflexivity | apply below_correlation_max].
  - intros Hz. destruct (zero_histogram p10 Hz) as (_ & _ & Hdot).
    rewrite (proj2 (Hdot (h p1))), (proj1 (Hdot (h p20))).
    repeat split; try reflexivity; apply below_correlation_max.
  - intros Hz. destruct (zero_histogram p20 Hz) as (_ & _ & Hdot).
    rewrite (proj2 (Hdot (h p10))).
    split; [reflexivity | apply below_correlation_max].
Qed.

End GateF.


(** The histogram of a white screenshot under a blur that overshoots. *)
Lemma white_histogram_zero (path : string) :
  all_zero
    (np_histogram (image_blurred overshooting_blur (white_files path))).
Proof.
  apply np_histogram_zero. intros v Hin [_ Hle].
  vm_compute in Hin.
  repeat (destruct Hin as [<- | Hin];
          [vm_compute in Hle; apply Hle; reflexivity |]).
  contradiction.
Qed.

(** Gate F on three white screenshots of 4 by 4 pixels whose blurred
    values all lie above 255. *)
Lemma zero_histogram_pairs_pass_witness :
  dict_get example_levels 1 = Some "level-01.png" /\
  dict_get example_levels 10 = Some "level-10.png" /\
  dict_get example_levels 20 = Some "level-20.png" /\
  size (white_files "level-10.png") = 16%nat /\
  all_zero
    (np_histogram
       (image_blurred overshooting_blur (white_files "level-10.png"))) /\
  gate_f_theme_separation overshooting_blur white_files example_levels =
    Ok (0%R, 0%R, true, true).
Proof.
  repeat (split; [reflexivity |]).
  destruct (zero_histogram_pairs_pass overshooting_blur white_files
              example_levels "level-01.png" "level-10.png" "level-20.png"
              eq_refl eq_refl eq_refl)
    as (_ & _ & c1 & c2 & pass_1_10 & pass_10_20 & Hg & _ & _ & _ & Hz & _).
  pose proof (white_histogram_zero "level-10.png") as Hzero.
  split; [exact Hzero |].
  destruct (Hz Hzero) as (E1 & E2 & F1 & F2).
  rewrite Hg, E1, E2, F1, F2. reflexivity.
Defined.

(** Three identical screenshots that pass Gate F: the white image under
    a blur that lifts its values above 255 has the all-zero histogram,
    which is not of unit length, and both correlations are 0. *)
Lemma identical_images_can_pass :
  white_files "level-01.png" = white_files "level-10.png" /\
  white_files "level-10.png" = white_files "level-20.png" /\
  luma_of white == 255 /\
  spec_length
    (blurred_hist overshooting_blur white_files "level-01.png") = 0%R /\
  gate_f_theme_separation overshooting_blur white_files example_levels =
    Ok (0%R, 0%R, true, true).
Proof.
  split; [reflexivity |]. split; [reflexivity |].
  split; [vm_compute; reflexivity |].
  destruct (zero_histogram overshooting_blur white_files "level-01.png"
              (white_histogram_zero "level-01.png")) as (Hlen & Hh & Hdot).
  split; [rewrite Hh; exact Hlen |].
  rewrite (gate_f_all_levels overshooting_blur white_files example_levels
             "level-01.png" "level-10.png" "level-20.png"
             eq_refl eq_refl eq_refl).
  destruct (zero_histogram overshooting_blur white_files "level-10.png"
              (white_histogram_zero "level-10.png")) as (_ & _ & Hdot10).
  rewrite (proj1 (Hdot _)), (proj1 (Hdot10 _)), below_correlation_max.
  reflexivity.
Qed.

(** ** The orchestrator *)

Lemma forallb_map {A B} (f : A -> B) (g : B -> bool) (l : list A) :
  forallb g (map f l) = forallb (fun x => g (f x)) l.
Proof. induction l as [| x l IH]; cbn; [reflexivity | rewrite IH; reflexivity]. Qed.

Lemma forallb_and_const {A} (f : A -> bool) (c : bool) (l : list A) :
  l <> [] -> forallb (fun x => f x && c) l = forallb f l && c.
Proof.
  intros Hne. induction l as [| x l IH]; [contradiction |].
  destruct l as [| y l'].
  - cbn. rewrite !andb_true_r. reflexivity.
  - change (forallb (fun x => f x && c) (x :: y :: l'))
      with (f x && c && forallb (fun x => f x && c) (y :: l')).
    rewrite IH by discriminate.
    change (forallb f (x :: y :: l')) with (f x && forallb f (y :: l')).
    destruct (f x), c, (forallb f (y :: l')); reflexivity.
Qed.

Lemma fold_report_flag (results : list GateResult) (st : bool * list string) :
  fst (fold_left report_result results st) = fst st && forallb passed results.
Proof.
  revert st. induction results as [| r rs IH]; intros [b out];
    cbn [fold_left forallb].
  - cbn [fst]. rewrite andb_true_r. reflexivity.
  - rewrite IH. cbn [report_result fst]. rewrite andb_assoc. reflexivity.
Qed.

Lemma motion_block_loaded (frames : list PixelBuffer) :
  (3 <= length frames)%nat -> same_shape frames ->
  exists m, motion_block true (Some frames) = Ok (Some m, []).
Proof.
  intros Hlen Hshape. unfold motion_block.
  destruct (Nat.ltb_spec (length frames) 3) as [Hlt | _]; [lia |].
  change 0%Z with (Z.of_nat 0).
  rewrite (list_item_nth frames 0 (solid_image 0 0 black)) by lia.
  cbn [bind]. rewrite (compute_motion_metrics_spec _ _ _ Hshape).
  cbn [bind]. eauto.
Qed.

Lemma motion_block_ok (require_motion : bool)
    (motion_frames : option (list PixelBuffer)) :
  motion_frames_agree motion_frames ->
  exists motion_metrics out,
    motion_block require_motion motion_frames = Ok (motion_metrics, out).
Proof.
  intros Hagree. destruct require_motion; [| cbn; eauto].
  destruct motion_frames as [frames |]; [| cbn; eauto].
  destruct (Nat.ltb_spec (length frames) 3) as [Hlt | Hge].
  - unfold motion_block.
    destruct (Nat.ltb_spec (length frames) 3); [eauto | lia].
  - destruct (motion_block_loaded frames Hge Hagree) as (m & Hm). eauto.
Qed.

Lemma motion_block_not_required
    (motion_frames : option (list PixelBuffer)) :
  motion_block false motion_frames = Ok (None, []).
Proof. reflexivity. Qed.

Lemma motion_block_unavailable (motion_frames : option (list PixelBuffer)) :
  motion_unavailable motion_frames ->
  exists line out,
    motion_block true motion_frames = Ok (None, line :: out).
Proof.
  unfold motion_unavailable, motion_block.
  destruct motion_frames as [frames |]; [| eauto].
  intros Hlt. destruct (Nat.ltb_spec (length frames) 3); [eauto | lia].
Qed.

Lemma missing_levels_spec (level_paths : dict) :
  filter (fun lvl => negb (dict_mem level_paths lvl)) required_levels
  = spec_missing_levels level_paths.
Proof.
  unfold spec_missing_levels, required_levels. apply filter_ext.
  intros lvl. unfold dict_mem. destruct (dict_get level_paths lvl); reflexivity.
Qed.

Lemma missing_levels_none (level_paths : dict) :
  spec_missing_levels level_paths = [] ->
  exists p1 p10 p20,
    dict_get level_paths 1 = Some p1 /\
    dict_get level_paths 10 = Some p10 /\
    dict_get level_paths 20 = Some p20.
Proof.
  unfold spec_missing_levels. cbn [filter].
  destruct (dict_get level_paths 1) as [p1 |]; [| discriminate].
  destruct (dict_get level_paths 10) as [p10 |]; [| discriminate].
  destruct (dict_get level_paths 20) as [p20 |]; [| discriminate].
  intros _. exists p1, p10, p20. repeat split.
Qed.

Lemma missing_levels_in (level_paths : dict) (lvl : Z) :
  In lvl (spec_missing_levels level_paths) <->
  In lvl required_levels /\ dict_get level_paths lvl = None.
Proof.
  unfold spec_missing_levels, required_levels. rewrite filter_In.
  destruct (dict_get level_paths lvl); split; intros [H1 H2];
    split; try assumption; try reflexivity; discriminate.
Qed.

(** Runs the gate calls of [verify_image] one after the other: none of
    them raises. *)
Ltac run_gates :=
  repeat
    (match goal with
     | |- context [bind (gate_a_cloud_visibility ?b ?r) _] =>
         let a := fresh "a" in
         destruct (gate_a_total b r) as [a ->]
     | |- context [bind (gate_b_transition_count ?b ?r) _] =>
         let t := fresh "t" in
         let v := fresh "v" in
         destruct (gate_b_total b r) as (t & v & ->)
     | |- context [bind (gate_c_star_density ?l ?r) _] =>
         let c := fresh "c" in
         let p := fresh "p" in
         destruct (gate_c_total l r) as [[c p] ->]
     | |- context [bind (gate_d_non_black ?l ?r) _] =>
         let d := fresh "d" in
         let e := fresh "e" in
         let p := fresh "p" in
         destruct (gate_d_total l r) as [[[d e] p] ->]
     end; cbn [bind]).

Section Orchestrator.

Variable gaussian_blur : LumaField -> Z -> LumaField.
Variable open_image : string -> PixelBuffer.
Variable format_real : nat -> R -> string.

Lemma gate_f_missing (level_paths : dict) :
  spec_missing_levels level_paths <> [] ->
  gate_f_theme_separation gaussian_blur open_image level_paths =
  Raise (ValueError
           ("Missing required level screenshots: "
              ++ format_int_list (spec_missing_levels level_paths))%string).
Proof.
  intros Hne. unfold gate_f_theme_separation. cbv zeta.
  rewrite missing_levels_spec.
  destruct (spec_missing_levels level_paths); [contradiction | reflexivity].
Qed.

Lemma gate_f_block_ok (level_paths : dict) :
  exists gate_f_passed gate_f_details,
    gate_f_block gaussian_blur open_image format_real level_paths
    = Ok (gate_f_passed, gate_f_details).
Proof.
  destruct (spec_missing_levels level_paths) as [| lvl rest] eqn:Hm.
  - destruct (missing_levels_none level_paths Hm)
      as (p1 & p10 & p20 & H1 & H10 & H20).
    destruct (gate_f_block_all_levels gaussian_blur open_image format_real
                level_paths p1 p10 p20 H1 H10 H20) as (lines & Hb).
    eauto.
  - unfold gate_f_block. rewrite gate_f_missing by (rewrite Hm; discriminate).
    eauto.
Qed.

Lemma verify_image_ok (path : string) (require_motion : bool)
    (motion_metrics : option MotionMetrics) :
  exists results,
    verify_image gaussian_blur open_image path require_motion motion_metrics
      = Ok results /\
    map name results
      = ["Gate A"; "Gate B"; "Gate C"; "Gate D"]
          ++ map name (gate_e_results require_motion motion_metrics) /\
    skipn 4 results = gate_e_results require_motion motion_metrics /\
    (forallb passed (gate_e_results require_motion motion_metrics) = false ->
     forallb passed results = false).
Proof.
  unfold verify_image. cbv zeta. run_gates.
  eexists. split; [reflexivity |].
  split; [reflexivity |]. split; [reflexivity |].
  intros He. cbn [app forallb]. rewrite He, !andb_false_r. reflexivity.
Qed.

End Orchestrator.

(** ** The overall verdict *)

Lemma gate_e_names (require_motion : bool)
    (motion_metrics : option MotionMetrics) :
  map name (gate_e_results require_motion motion_metrics)
  = if require_motion then ["Gate E"] else [].
Proof. destruct require_motion; [destruct motion_metrics |]; reflexivity. Qed.

Section Verdict.

Variable gaussian_blur : LumaField -> Z -> LumaField.
Variable open_image : string -> PixelBuffer.
Variable format_real : nat -> R -> string.

Lemma image_report_ok (path : string) (require_motion : bool)
    (motion_metrics : option MotionMetrics) :
  exists results,
    image_report gaussian_blur open_image require_motion motion_metrics
      path results.
Proof.
  destruct (verify_image_ok gaussian_blur open_image path require_motion
              motion_metrics) as (results & Hv & Hn & Hs & _).
  exists results. split; [exact Hv |]. split; [| exact Hs].
  rewrite Hn, gate_e_names. reflexivity.
Qed.

Lemma image_report_forced (path : string) (results : list GateResult) :
  image_report gaussian_blur open_image true None path results ->
  nth_error results 4 = Some motion_missing_result /\
  forallb passed results = false.
Proof.
  intros (_ & _ & Hs).
  rewrite <- (firstn_skipn 4 results), Hs. split.
  - rewrite <- (firstn_skipn 4 results) in Hs.
    assert (length (firstn 4 results) = 4%nat) as Hlen.
    { destruct results as [| a [| b [| c [| d rest]]]];
        try discriminate Hs. reflexivity. }
    rewrite nth_error_app2 by lia. rewrite Hlen. reflexivity.
  - rewrite forallb_app. cbn. apply andb_false_r.
Qed.

Lemma verify_loop_ok (require_motion : bool)
    (motion_metrics : option MotionMetrics)
    (gate_f_passed : bool) (gate_f_details : list string) :
  forall images st,
  exists image_results out,
    Forall2 (image_report gaussian_blur open_image require_motion
               motion_metrics) images image_results /\
    verify_loop gaussian_blur open_image images require_motion motion_metrics
      gate_f_passed gate_f_details st
    = Ok (fst st
          && forallb (fun rs => forallb passed rs && gate_f_passed)
               image_results,
          out).
Proof.
  induction images as [| path rest IH]; intros [b out].
  - exists [], out. split; [constructor |].
    cbn. rewrite andb_true_r. reflexivity.
  - destruct (image_report_ok path require_motion motion_metrics)
      as (results & Hrep).
    pose proof Hrep as (Hv & _).
    cbn [verify_loop]. rewrite Hv. cbn [bind].
    match goal with
    | |- context [fold_left report_result results ?st0] =>
        pose proof (fold_report_flag results st0) as Hflag;
        destruct (fold_left report_result results st0) as [b' out']
    end.
    cbn [fst] in Hflag. subst b'.
    match goal with
    | |- context [verify_loop _ _ rest _ _ _ _ ?st1] =>
        destruct (IH st1) as (irs & out'' & HF & Hloop)
    end.
    exists (results :: irs), out''. split; [constructor; assumption |].
    rewrite Hloop. cbn [fst forallb]. rewrite !andb_assoc. reflexivity.
Qed.

Lemma main_body_ok (images : list string) (require_motion : bool)
    (motion_frames : option (list PixelBuffer)) (level_paths : dict)
    (motion_metrics : option MotionMetrics) (lines : list string) :
  motion_block require_motion motion_frames = Ok (motion_metrics, lines) ->
  exists gate_f_passed gate_f_details image_results out,
    gate_f_block gaussian_blur open_image format_real level_paths
      = Ok (gate_f_passed, gate_f_details) /\
    Forall2 (image_report gaussian_blur open_image require_motion
               motion_metrics) images image_results /\
    main_body gaussian_blur open_image format_real images require_motion
      motion_frames level_paths
    = Ok (if require_motion
             && match motion_metrics with None => true | Some _ => false end
          then false
          else forallb (fun rs => forallb passed rs && gate_f_passed)
                 image_results,
          out).
Proof.
  intros Hm.
  destruct (gate_f_block_ok gaussian_blur open_image format_real level_paths)
    as (gf & gd & Hf).
  destruct (verify_loop_ok require_motion motion_metrics gf gd images
              (true, lines))
    as (irs & out & HF & Hloop).
  exists gf, gd, irs. eexists.
  repeat (split; [eassumption |]).
  unfold main_body. rewrite Hm. cbn [bind]. rewrite Hf. cbn [bind].
  rewrite Hloop. cbn [bind fst andb]. reflexivity.
Qed.

Lemma overall_verdict_raise (images : list string) (require_motion : bool)
    (motion_frames : option (list PixelBuffer)) (level_paths : dict)
    (e : exn) :
  motion_block require_motion motion_frames = Raise e ->
  overall_verdict gaussian_blur open_image format_real images require_motion
    motion_frames level_paths = Raise e.
Proof.
  intros Hm. unfold overall_verdict, main_body. rewrite Hm. reflexivity.
Qed.

Lemma main_raise (images : list string) (require_motion : bool)
    (motion_frames : option (list PixelBuffer)) (level_paths : dict)
    (e : exn) :
  overall_verdict gaussian_blur open_image format_real images require_motion
    motion_frames level_paths = Raise e ->
  main gaussian_blur open_image format_real images require_motion
    motion_frames level_paths = 1%Z.
Proof.
  intros Hv. unfold main. rewrite Hv. destruct images; reflexivity.
Qed.

Lemma main_exit_code (images : list string) (require_motion : bool)
    (motion_frames : option (list PixelBuffer)) (level_paths : dict) :
  images <> [] ->
  (main gaussian_blur open_image format_real images require_motion
     motion_frames level_paths = 0%Z <->
   overall_verdict gaussian_blur open_image format_real images require_motion
     motion_frames level_paths = Ok true) /\
  (overall_verdict gaussian_blur open_image format_real images require_motion
     motion_frames level_paths <> Ok true ->
   main gaussian_blur open_image format_real images require_motion
     motion_frames level_paths = 1%Z).
Proof.
  intros Hne. unfold main. destruct images as [| path rest]; [contradiction |].
  destruct (overall_verdict gaussian_blur open_image format_real
              (path :: rest) require_motion motion_frames level_paths)
    as [[|] | e].
  - split; [split; reflexivity | intros H; contradiction].
  - split; [split; discriminate | reflexivity].
  - split; [split; discriminate | reflexivity].
Qed.

End Verdict.

(** ** The orchestrator: the contract *)

Section VerdictContract.

Variable gaussian_blur : LumaField -> Z -> LumaField.
Variable open_image : string -> PixelBuffer.
Variable format_real : nat -> R -> string.

Lemma overall_verdict_ok (images : list string) (require_motion : bool)
    (motion_frames : option (list PixelBuffer)) (level_paths : dict)
    (motion_metrics : option MotionMetrics) (lines : list string) :
  motion_block require_motion motion_frames = Ok (motion_metrics, lines) ->
  exists gate_f_passed gate_f_details image_results,
    gate_f_block gaussian_blur open_image format_real level_paths
      = Ok (gate_f_passed, gate_f_details) /\
    Forall2 (image_report gaussian_blur open_image require_motion
               motion_metrics) images image_results /\
    overall_verdict gaussian_blur open_image format_real images
      require_motion motion_frames level_paths
    = Ok (if require_motion
             && match motion_metrics with None => true | Some _ => false end
          then false
          else forallb (fun rs => forallb passed rs && gate_f_passed)
                 image_results).
Proof.
  intros Hm.
  destruct (main_body_ok gaussian_blur open_image format_real images
              require_motion motion_frames level_paths motion_metrics lines
              Hm)
    as (gf & gd & irs & out & Hf & HF & Hbody).
  exists gf, gd, irs. repeat (split; [assumption |]).
  unfold overall_verdict. rewrite Hbody. reflexivity.
Qed.

Lemma overall_verdict_spec (images : list string) (require_motion : bool)
    (motion_frames : option (list PixelBuffer)) (level_paths : dict)
    (motion_metrics : option MotionMetrics) (lines : list string) :
  images <> [] ->
  motion_block require_motion motion_frames = Ok (motion_metrics, lines) ->
  exists gate_f_passed gate_f_details image_results,
    gate_f_block gaussian_blur open_image format_real level_paths
      = Ok (gate_f_passed, gate_f_details) /\
    Forall2 (image_report gaussian_blur open_image require_motion
               motion_metrics) images image_results /\
    overall_verdict gaussian_blur open_image format_real images
      require_motion motion_frames level_paths
    = Ok (spec_verdict image_results gate_f_passed).
Proof.
  intros Hne Hm.
  destruct (overall_verdict_ok images require_motion motion_frames level_paths
              motion_metrics lines Hm)
    as (gf & gd & irs & Hf & HF & Hv).
  exists gf, gd, irs. repeat (split; [assumption |]).
  rewrite Hv. f_equal. unfold spec_verdict.
  assert (irs <> []) as Hirs.
  { destruct HF; [contradiction | discriminate]. }
  rewrite forallb_and_const by exact Hirs.
  destruct require_motion; [| reflexivity].
  destruct motion_metrics as [m |]; [reflexivity |].
  destruct HF as [| path rs rest irs' Hrep _]; [contradiction |].
  destruct (image_report_forced gaussian_blur open_image path rs Hrep)
    as (_ & Hfail).
  cbn [andb forallb]. rewrite Hfail. reflexivity.
Qed.

(** C1: with at least one image to evaluate, and motion frames that
    share their dimensions as a frame sequence does, the motion block
    returns; whenever it returns, the overall verdict is the conjunction
    of the pass flags of all gate results of all evaluated images --
    Gates A to D for each image, and Gate E when motion is required --
    and of the pass flag of Gate F.  When the motion block raises, which
    it does on frames of different sizes, there is no verdict and the
    exit code is 1.  The exit code is 0 iff the verdict is pass, and 1
    otherwise. *)
Theorem overall_verdict_conjunction (images : list string)
    (require_motion : bool) (motion_frames : option (list PixelBuffer))
    (level_paths : dict) :
  images <> [] ->
  (motion_frames_agree motion_frames ->
   exists motion_metrics lines,
     motion_block require_motion motion_frames = Ok (motion_metrics, lines)) /\
  (forall motion_metrics lines,
     motion_block require_motion motion_frames = Ok (motion_metrics, lines) ->
     exists gate_f_passed gate_f_details image_results,
       gate_f_block gaussian_blur open_image format_real level_paths
         = Ok (gate_f_passed, gate_f_details) /\
       Forall2 (image_report gaussian_blur open_image require_motion
                  motion_metrics) images image_results /\
       overall_verdict gaussian_blur open_image format_real images
         require_motion motion_frames level_paths
       = Ok (spec_verdict image_results gate_f_passed)) /\
  (forall e,
     motion_block require_motion motion_frames = Raise e ->
     overall_verdict gaussian_blur open_image format_real images
       require_motion motion_frames level_paths = Raise e /\
     main gaussian_blur open_image format_real images require_motion
       motion_frames level_paths = 1%Z) /\
  (main gaussian_blur open_image format_real images require_motion
     motion_frames level_paths = 0%Z <->
   overall_verdict gaussian_blur open_image format_real images
     require_motion motion_frames level_paths = Ok true) /\
  (overall_verdict gaussian_blur open_image format_real images
     require_motion motion_frames level_paths <> Ok true ->
   main gaussian_blur open_image format_real images require_motion
     motion_frames level_paths = 1%Z).
Proof.
  intros Hne.
  split; [apply motion_block_ok |].
  split; [intros mm lines Hm; apply (overall_verdict_spec _ _ _ _ mm lines Hne Hm) |].
  split; [| apply main_exit_code; exact Hne].
  intros e Hm.
  pose proof (overall_verdict_raise gaussian_blur open_image format_real
                images require_motion motion_frames level_paths e Hm) as Hv.
  split; [exact Hv |].
  apply (main_raise gaussian_blur open_image format_real _ _ _ _ e Hv).
Qed.

(** C7: when motion is required and no motion directory was found, or
    it holds fewer than three frames, no motion metrics are computed, the
    Gate E entry of every image is the failing result whose detail lines
    say that the motion frames are missing or insufficient, the overall
    verdict is fail and the exit code is 1.  When a required level has no
    screenshot, Gate F raises the [ValueError] that lists exactly the
    required levels without a screenshot, the gate is recorded as failed
    with that message as its detail line, the exit code is 1, and over
    any image the overall verdict is never pass: it is fail whenever the
    motion block returns, as it does on frames of one size, and otherwise
    the exception of the motion block ends the run. *)
Theorem missing_data_never_passes :
  (forall (images : list string) (motion_frames : option (list PixelBuffer))
          (level_paths : dict),
     motion_unavailable motion_frames ->
     (exists line lines,
        motion_block true motion_frames = Ok (None, line :: lines)) /\
     gate_e_results true None = [motion_missing_result] /\
     (forall path,
      exists results,
        verify_image gaussian_blur open_image path true None = Ok results /\
        nth_error results 4 = Some motion_missing_result /\
        forallb passed results = false) /\
     overall_verdict gaussian_blur open_image format_real images true
       motion_frames level_paths = Ok false /\
     main gaussian_blur open_image format_real images true motion_frames
       level_paths = 1%Z) /\
  (forall (level_paths : dict) (lvl : Z),
     In lvl required_levels -> dict_get level_paths lvl = None ->
     In lvl (spec_missing_levels level_paths) /\
     (forall l,
        In l (spec_missing_levels level_paths) <->
        In l required_levels /\ dict_get level_paths l = None) /\
     gate_f_theme_separation gaussian_blur open_image level_paths
     = Raise (ValueError
                ("Missing required level screenshots: "
                   ++ format_int_list (spec_missing_levels level_paths))%string) /\
     gate_f_block gaussian_blur open_image format_real level_paths
     = Ok (false,
           [("Missing required level screenshots: "
               ++ format_int_list (spec_missing_levels level_paths))%string]) /\
     forall (images : list string) (require_motion : bool)
            (motion_frames : option (list PixelBuffer)),
       main gaussian_blur open_image format_real images require_motion
         motion_frames level_paths = 1%Z /\
       (images <> [] ->
        overall_verdict gaussian_blur open_image format_real images
          require_motion motion_frames level_paths <> Ok true /\
        (motion_frames_agree motion_frames ->
         overall_verdict gaussian_blur open_image format_real images
           require_motion motion_frames level_paths = Ok false) /\
        (forall motion_metrics lines,
           motion_block require_motion motion_frames
             = Ok (motion_metrics, lines) ->
           overall_verdict gaussian_blur open_image format_real images
             require_motion motion_frames level_paths = Ok false) /\
        (forall e,
           motion_block require_motion motion_frames = Raise e ->
           overall_verdict gaussian_blur open_image format_real images
             require_motion motion_frames level_paths = Raise e))).
Proof.
  split.
  - intros images motion_frames level_paths Hun.
    destruct (motion_block_unavailable motion_frames Hun)
      as (line & lines & Hblock).
    split; [eauto |]. split; [reflexivity |]. split.
    + intros path.
      destruct (image_report_ok gaussian_blur open_image path true None)
        as (results & Hrep).
      destruct (image_report_forced gaussian_blur open_image path results Hrep)
        as (Hnth & Hfail).
      exists results. destruct Hrep as (Hv & _). repeat split; assumption.
    + destruct (overall_verdict_ok images true motion_frames level_paths
                  None (line :: lines) Hblock)
        as (gf & gd & irs & _ & _ & Hv).
      cbn [andb] in Hv. split; [exact Hv |].
      unfold main. rewrite Hv. destruct images; reflexivity.
  - intros level_paths lvl Hreq Hnone.
    assert (In lvl (spec_missing_levels level_paths)) as Hin
      by (apply missing_levels_in; split; assumption).
    assert (spec_missing_levels level_paths <> []) as Hne
      by (intros E; rewrite E in Hin; contradiction).
    pose proof (gate_f_missing gaussian_blur open_image level_paths Hne)
      as Hraise.
    assert (gate_f_block gaussian_blur open_image format_real level_paths
            = Ok (false,
                  [("Missing required level screenshots: "
                      ++ format_int_list (spec_missing_levels level_paths))%string]))
      as Hblock by (unfold gate_f_block; rewrite Hraise; reflexivity).
    split; [exact Hin |]. split; [apply missing_levels_in |].
    split; [exact Hraise |]. split; [exact Hblock |].
    intros images require_motion motion_frames.
    assert (forall mm lines,
              motion_block require_motion motion_frames = Ok (mm, lines) ->
              images <> [] ->
              overall_verdict gaussian_blur open_image format_real images
                require_motion motion_frames level_paths = Ok false) as Hfail.
    { intros mm lines Hm Himg.
      destruct (overall_verdict_ok images require_motion motion_frames
                  level_paths mm lines Hm)
        as (gf & gd & irs & Hf & HF & Hv).
      rewrite Hblock in Hf. injection Hf as <- _.
      rewrite Hv. f_equal.
      destruct (require_motion
                && match mm with None => true | Some _ => false end);
        [reflexivity |].
      destruct HF as [| path rs rest irs' _ _]; [contradiction |].
      cbn [forallb]. rewrite andb_false_r. reflexivity. }
    assert (forall e,
              motion_block require_motion motion_frames = Raise e ->
              overall_verdict gaussian_blur open_image format_real images
                require_motion motion_frames level_paths = Raise e) as Hcrash
      by (intros e; apply overall_verdict_raise).
    split.
    + unfold main. destruct images as [| path rest]; [reflexivity |].
      destruct (motion_block require_motion motion_frames)
        as [[mm lines] | e] eqn:Hm.
      * rewrite (Hfail mm lines eq_refl) by discriminate. reflexivity.
      * rewrite (Hcrash e eq_refl). reflexivity.
    + intros Himg. split; [| split; [| split]].
      * destruct (motion_block require_motion motion_frames)
          as [[mm lines] | e] eqn:Hm.
        -- rewrite (Hfail mm lines eq_refl Himg). discriminate.
        -- rewrite (Hcrash e eq_refl). discriminate.
      * intros Hagree.
        destruct (motion_block_ok require_motion motion_frames Hagree)
          as (mm & lines & Hm).
        apply (Hfail mm lines Hm Himg).
      * intros mm lines Hm. apply (Hfail mm lines Hm Himg).
      * exact Hcrash.
Qed.

End VerdictContract.

Lemma example_frames_agree : motion_frames_agree (Some example_frames).
Proof.
  intros fa fb Ha Hb. cbn in Ha, Hb.
  repeat (destruct Ha as [<- | Ha]); try contradiction;
    repeat (destruct Hb as [<- | Hb]); try contradiction;
    split; reflexivity.
Qed.

Lemma mismatched_frames_raise :
  motion_block true (Some mismatched_frames)
  = Raise (ValueError "operands could not be broadcast together").
Proof. vm_compute. reflexivity. Qed.

(** The verdict on one black screenshot with motion required: on three
    frames of one size the motion metrics are computed and the verdict
    is the conjunction, and on frames of two sizes the run ends with the
    exception of the frame difference and the exit code 1. *)
Lemma overall_verdict_conjunction_witness :
  ["black.png"] <> [] /\
  motion_frames_agree (Some example_frames) /\
  (exists m image_results gate_f_passed,
     motion_block true (Some example_frames) = Ok (Some m, []) /\
     overall_verdict id_blur example_files no_format ["black.png"] true
       (Some example_frames) example_levels
     = Ok (spec_verdict image_results gate_f_passed) /\
     Forall2 (image_report id_blur example_files true (Some m)) ["black.png"]
       image_results) /\
  overall_verdict id_blur example_files no_format ["black.png"] true
    (Some mismatched_frames) example_levels
  = Raise (ValueError "operands could not be broadcast together") /\
  main id_blur example_files no_format ["black.png"] true
    (Some mismatched_frames) example_levels = 1%Z.
Proof.
  assert (["black.png"] <> []) as Hne by discriminate.
  split; [exact Hne |]. split; [exact example_frames_agree |].
  split.
  - destruct (overall_verdict_conjunction id_blur example_files no_format
                ["black.png"] true (Some example_frames) example_levels Hne)
      as (_ & Hspec & _).
    destruct (motion_block_loaded example_frames) as (m & Hm);
      [cbn; lia | exact example_frames_agree |].
    destruct (Hspec (Some m) [] Hm) as (gf & gd & irs & _ & HF & Hv).
    exists m, irs, gf. repeat split; assumption.
  - destruct (overall_verdict_conjunction id_blur example_files no_format
                ["black.png"] true (Some mismatched_frames) example_levels
                Hne)
      as (_ & _ & Hcrash & _).
    apply (Hcrash _ mismatched_frames_raise).
Defined.

(** Two motion frames where three are required, and a level directory
    that holds level 1 only. *)
Lemma missing_data_never_passes_witness :
  motion_unavailable (Some [grey_100; grey_150]) /\
  main id_blur example_files no_format ["black.png"] true
    (Some [grey_100; grey_150]) example_levels = 1%Z /\
  dict_get [(1%Z, "level-01.png")] 10 = None /\
  gate_f_theme_separation id_blur example_files [(1%Z, "level-01.png")]
  = Raise (ValueError "Missing required level screenshots: [10, 20]").
Proof.
  assert (motion_unavailable (Some [grey_100; grey_150])) as Hun
    by (cbn; lia).
  destruct (missing_data_never_passes id_blur example_files no_format)
    as (Hmotion & Hlevels).
  destruct (Hmotion ["black.png"] (Some [grey_100; grey_150]) example_levels
              Hun) as (_ & _ & _ & _ & Hmain).
  destruct (Hlevels [(1%Z, "level-01.png")] 10%Z
              ltac:(right; left; reflexivity) eq_refl)
    as (_ & _ & Hraise & _).
  split; [exact Hun |]. split; [exact Hmain |]. split; [reflexivity |].
  rewrite Hraise. reflexivity.
Defined.

(** * Further properties *)

(** ** Sorting and percentiles *)

Lemma insert_sorted_in (v : Q) (l : list Q) (x : Q) :
  In x (insert_sorted v l) <-> x = v \/ In x l.
Proof.
  induction l as [| h t IH]; cbn [insert_sorted].
  - cbn. intuition congruence.
  - destruct (Qle_bool v h); cbn [In]; [intuition congruence |].
    rewrite IH. intuition congruence.
Qed.

Lemma sort_in (l : list Q) (x : Q) : In x (sort l) <-> In x l.
Proof.
  induction l as [| h t IH]; [reflexivity |].
  change (sort (h :: t)) with (insert_sorted h (sort t)).
  rewrite insert_sorted_in, IH. cbn [In]. intuition congruence.
Qed.

Lemma insert_sorted_sorted (v : Q) (l : list Q) :
  Sorted.StronglySorted Qle l -> Sorted.StronglySorted Qle (insert_sorted v l).
Proof.
  induction 1 as [| h t Ht IH Hh]; cbn [insert_sorted].
  - constructor; constructor.
  - destruct (Qle_bool v h) eqn:E.
    + apply Qle_bool_iff in E. constructor.
      * constructor; assumption.
      * constructor; [exact E |].
        revert Hh. apply Forall_impl. intros a Ha. lra.
    + apply Qle_bool_false in E. constructor; [exact IH |].
      apply Forall_forall. intros a Ha. apply insert_sorted_in in Ha.
      destruct Ha as [-> | Ha]; [lra |].
      rewrite Forall_forall in Hh. apply Hh, Ha.
Qed.

Lemma sort_sorted (l : list Q) : Sorted.StronglySorted Qle (sort l).
Proof.
  induction l as [| h t IH]; [constructor |].
  change (sort (h :: t)) with (insert_sorted h (sort t)).
  apply insert_sorted_sorted, IH.
Qed.

Lemma sorted_nth (s : list Q) :
  Sorted.StronglySorted Qle s ->
  forall i j, (i <= j)%nat -> (j < length s)%nat -> nth i s 0 <= nth j s 0.
Proof.
  induction 1 as [| h t Ht IH Hh]; intros i j Hij Hj; [cbn in Hj; lia |].
  destruct j as [| j].
  - replace i with 0%nat by lia. cbn. lra.
  - cbn [length] in Hj. destruct i as [| i].
    + cbn [nth]. rewrite Forall_forall in Hh. apply Hh, nth_In. lia.
    + cbn [nth]. apply IH; lia.
Qed.

Lemma lerp_index (n : nat) (q : Q) :
  0 <= q -> q <= 100 ->
  let virt := inject_Z (Z.of_nat (n - 1)) * q / 100 in
  (0 <= Qfloor virt <= Z.of_nat (n - 1))%Z /\
  0 <= virt - inject_Z (Qfloor virt) /\
  virt - inject_Z (Qfloor virt) < 1 /\
  0 <= virt /\ virt * 100 == inject_Z (Z.of_nat (n - 1)) * q.
Proof.
  intros Hq0 Hq1 virt.
  assert (virt * 100 == inject_Z (Z.of_nat (n - 1)) * q) as Ev
    by (unfold virt; field).
  assert (inject_Z 0 <= inject_Z (Z.of_nat (n - 1))) as HN
    by (rewrite <- Zle_Qle; lia).
  change (inject_Z 0) with 0 in HN.
  set (N := inject_Z (Z.of_nat (n - 1))) in *.
  pose proof (Qfloor_le virt) as Hf1. pose proof (Qlt_floor virt) as Hf2.
  rewrite inject_Z_plus in Hf2. change (inject_Z 1) with 1 in Hf2.
  assert (0 <= virt) as Hv0 by nra.
  assert (virt <= N) as Hv1 by nra.
  repeat split; try lra.
  - assert (inject_Z (-1) < inject_Z (Qfloor virt)) as Hlt
      by (change (inject_Z (-1)) with (-1); lra).
    rewrite <- Zlt_Qlt in Hlt. lia.
  - assert (inject_Z (Qfloor virt) <= N) as Hle by lra.
    unfold N in Hle. rewrite <- Zle_Qle in Hle. exact Hle.
Qed.

(** A percentile lies between any two bounds of the data. *)
Lemma lerp_convex (s : list Q) (q a b : Q) :
  s <> [] -> 0 <= q -> q <= 100 ->
  Forall (fun v => a <= v /\ v <= b) s ->
  a <= lerp_at s q /\ lerp_at s q <= b.
Proof.
  intros Hne Hq0 Hq1 Hall. unfold lerp_at.
  destruct (lerp_index (length s) q Hq0 Hq1) as (Hf & Hg0 & Hg1 & _).
  set (virt := inject_Z (Z.of_nat (length s - 1)) * q / 100) in *.
  set (g := virt - inject_Z (Qfloor virt)) in *.
  assert (0 < length s)%nat as Hlen by (destruct s; [contradiction | cbn; lia]).
  rewrite Forall_forall in Hall.
  assert (In (nth (Z.to_nat (Qfloor virt)) s 0) s) as Hlo
    by (apply nth_In; lia).
  assert (In (nth (Nat.min (Z.to_nat (Qfloor virt) + 1) (length s - 1)) s 0) s)
    as Hhi by (apply nth_In; lia).
  apply Hall in Hlo, Hhi.
  set (x := nth _ s 0) in *. set (y := nth (Nat.min _ _) s 0) in *.
  split; nra.
Qed.

(** On sorted data the percentile grows with the rank. *)
Lemma lerp_mono (s : list Q) (q1 q2 : Q) :
  Sorted.StronglySorted Qle s -> s <> [] ->
  0 <= q1 -> q1 <= q2 -> q2 <= 100 ->
  lerp_at s q1 <= lerp_at s q2.
Proof.
  intros Hs Hne Hq0 Hq12 Hq1.
  assert (0 < length s)%nat as Hlen by (destruct s; [contradiction | cbn; lia]).
  unfold lerp_at.
  destruct (lerp_index (length s) q1 Hq0 ltac:(lra))
    as (Hf1 & Hg1a & Hg1b & _ & E1).
  destruct (lerp_index (length s) q2 ltac:(lra) Hq1)
    as (Hf2 & Hg2a & Hg2b & _ & E2).
  assert (inject_Z 0 <= inject_Z (Z.of_nat (length s - 1))) as HN
    by (rewrite <- Zle_Qle; lia).
  change (inject_Z 0) with 0 in HN.
  set (N := inject_Z (Z.of_nat (length s - 1))) in *.
  set (v1 := N * q1 / 100) in *. set (v2 := N * q2 / 100) in *.
  assert (v1 <= v2) as Hv by nra.
  pose proof (Qfloor_resp_le _ _ Hv) as Hfl.
  set (f1 := Qfloor v1) in *. set (f2 := Qfloor v2) in *.
  pose proof (sorted_nth s Hs) as Hnth.
  destruct (Z.eq_dec f1 f2) as [Ef | Nf].
  - rewrite <- Ef in *.
    pose proof (Hnth (Z.to_nat f1)
                  (Nat.min (Z.to_nat f1 + 1) (length s - 1))
                  ltac:(lia) ltac:(lia)) as Hd.
    set (x := nth (Z.to_nat f1) s 0) in *.
    set (y := nth (Nat.min _ _) s 0) in *.
    nra.
  - assert (Nat.min (Z.to_nat f1 + 1) (length s - 1) <= Z.to_nat f2)%nat
      as Hstep by lia.
    pose proof (Hnth (Z.to_nat f1)
                  (Nat.min (Z.to_nat f1 + 1) (length s - 1))
                  ltac:(lia) ltac:(lia)) as Hd1.
    pose proof (Hnth (Nat.min (Z.to_nat f1 + 1) (length s - 1))
                  (Z.to_nat f2) Hstep ltac:(lia)) as Hmid.
    pose proof (Hnth (Z.to_nat f2)
                  (Nat.min (Z.to_nat f2 + 1) (length s - 1))
                  ltac:(lia) ltac:(lia)) as Hd2.
    set (x1 := nth (Z.to_nat f1) s 0) in *.
    set (y1 := nth (Nat.min (Z.to_nat f1 + 1) _) s 0) in *.
    set (x2 := nth (Z.to_nat f2) s 0) in *.
    set (y2 := nth (Nat.min (Z.to_nat f2 + 1) _) s 0) in *.
    set (g1 := v1 - inject_Z f1) in *. set (g2 := v2 - inject_Z f2) in *.
    assert (x1 + (y1 - x1) * g1 <= y1) as Hleft by nra.
    assert (x2 <= x2 + (y2 - x2) * g2) as Hright by nra.
    lra.
Qed.

(** Data whose values all equal [v] has every percentile equal to [v]. *)
Lemma lerp_uniform (s : list Q) (q v : Q) :
  s <> [] -> 0 <= q -> q <= 100 ->
  Forall (fun a => a == v) s -> lerp_at s q == v.
Proof.
  intros Hne Hq0 Hq1 Hall.
  destruct (lerp_convex s q v v Hne Hq0 Hq1) as [Hlo Hhi].
  - revert Hall. apply Forall_impl. intros a Ha. rewrite Ha. split; lra.
  - lra.
Qed.

(** ** The values of a ROI *)

Lemma roi_slice_at {A} (field : ndarray A) (roi : Roi) (y x : nat) :
  roi_inside roi field ->
  (y < nrows (roi_slice field roi))%nat ->
  (x < ncols (roi_slice field roi))%nat ->
  at_ (roi_slice field roi) y x
    = at_ field (Z.to_nat (y0 roi) + y) (Z.to_nat (x0 roi) + x) /\
  in_roi roi (Z.to_nat (y0 roi) + y) (Z.to_nat (x0 roi) + x).
Proof.
  unfold roi_inside, roi_in_bounds, roi_slice, slice2, in_roi.
  cbn [nrows ncols at_]. intros (Hx0 & Hxw & Hy0 & Hyh).
  rewrite !slice_bound_inside by lia. intros Hy Hx.
  split; [reflexivity | lia].
Qed.

Lemma roi_slice_Forall {A} (P : A -> Prop) (field : ndarray A) (roi : Roi) :
  roi_inside roi field ->
  (forall y x, in_roi roi y x -> P (at_ field y x)) ->
  Forall P (flatten (roi_slice field roi)).
Proof.
  intros Hin HP. apply Forall_flatten. intros y x Hy Hx.
  destruct (roi_slice_at field roi y x Hin Hy Hx) as [-> Hroi].
  apply HP, Hroi.
Qed.

Lemma roi_slice_shape {A} (field : ndarray A) (roi : Roi) :
  roi_inside roi field ->
  nrows (roi_slice field roi) = Z.to_nat (y1 roi - y0 roi) /\
  ncols (roi_slice field roi) = Z.to_nat (x1 roi - x0 roi).
Proof.
  unfold roi_inside, roi_in_bounds, roi_slice, slice2.
  cbn [nrows ncols]. intros (Hx0 & Hxw & Hy0 & Hyh).
  rewrite !slice_bound_inside by lia. lia.
Qed.

(** Two fields that agree on the pixels of a ROI have the same ROI
    values. *)
Lemma roi_slice_agree (a b : LumaField) (roi : Roi) :
  roi_inside roi a -> roi_inside roi b -> agree_on roi a b ->
  flatten (roi_slice a roi) = flatten (roi_slice b roi) /\
  size (roi_slice a roi) = size (roi_slice b roi).
Proof.
  intros Ha Hb Hag.
  destruct (roi_slice_shape a roi Ha) as [Hra Hca].
  destruct (roi_slice_shape b roi Hb) as [Hrb Hcb].
  split; [| unfold size; congruence].
  apply flatten_ext; [congruence | congruence |].
  intros y x Hy Hx.
  destruct (roi_slice_at a roi y x Ha Hy Hx) as [-> Hroi].
  destruct (roi_slice_at b roi y x Hb) as [-> _]; [congruence | congruence |].
  apply Hag, Hroi.
Qed.

(** ** Means *)

Lemma Qsum_bounds (l : list Q) (lo hi : Q) :
  Forall (fun v => lo <= v /\ v <= hi) l ->
  lo * inject_Z (Z.of_nat (length l)) <= Qsum l /\
  Qsum l <= hi * inject_Z (Z.of_nat (length l)).
Proof.
  unfold Qsum. intros H.
  assert (forall acc,
            acc + lo * inject_Z (Z.of_nat (length l)) <= fold_left Qplus l acc /\
            fold_left Qplus l acc <= acc + hi * inject_Z (Z.of_nat (length l)))
    as Hgen.
  { induction H as [| v t [Hv0 Hv1] _ IH]; intros acc.
    - cbn [fold_left length Z.of_nat]. change (inject_Z 0) with 0.
      split; lra.
    - cbn [fold_left length]. destruct (IH (acc + v)) as [I0 I1].
      rewrite Nat2Z.inj_succ. unfold Z.succ. rewrite inject_Z_plus.
      change (inject_Z 1) with 1. split; lra. }
  destruct (Hgen 0) as [H0 H1]. split; lra.
Qed.

Lemma np_mean_bounds (l : list Q) (lo hi : Q) :
  l <> [] -> Forall (fun v => lo <= v /\ v <= hi) l ->
  lo <= np_mean l /\ np_mean l <= hi.
Proof.
  intros Hne H. destruct (Qsum_bounds l lo hi H) as [H0 H1].
  unfold np_mean.
  assert (0 < inject_Z (Z.of_nat (length l))) as Hn.
  { change 0 with (inject_Z 0). rewrite <- Zlt_Qlt.
    destruct l; [contradiction | cbn [length]; lia]. }
  split.
  - apply Qle_shift_div_l; [exact Hn | exact H0].
  - apply Qle_shift_div_r; [exact Hn | exact H1].
Qed.

(** ** Percentiles of a ROI *)

Lemma Forall_sort (P : Q -> Prop) (l : list Q) :
  Forall P l -> Forall P (sort l).
Proof.
  rewrite !Forall_forall. intros H x Hx. apply H, sort_in, Hx.
Qed.

Lemma sort_nonempty (l : list Q) : l <> [] -> sort l <> [].
Proof.
  intros Hne E. apply (f_equal (@length Q)) in E.
  rewrite sort_length in E. destruct l; [contradiction | discriminate].
Qed.

Lemma roi_values_nonempty (field : LumaField) (roi : Roi) :
  roi_inside roi field -> (0 < roi_area roi)%Z ->
  flatten (roi_slice field roi) <> [].
Proof.
  intros Hin Hpos E. apply (f_equal (@length Q)) in E.
  rewrite flatten_length in E.
  apply (roi_slice_nonempty field roi Hin Hpos). exact E.
Qed.

Lemma roi_percentile_order (field : LumaField) (roi : Roi) (q1 q2 : Q) :
  roi_inside roi field -> (0 < roi_area roi)%Z ->
  0 <= q1 -> q1 <= q2 -> q2 <= 100 ->
  lerp_at (sort (flatten (roi_slice field roi))) q1
  <= lerp_at (sort (flatten (roi_slice field roi))) q2.
Proof.
  intros Hin Hpos H0 H12 H1.
  apply lerp_mono; try assumption; [apply sort_sorted |].
  apply sort_nonempty, roi_values_nonempty; assumption.
Qed.

Lemma roi_percentile_bounded (field : LumaField) (roi : Roi) (q lo hi : Q) :
  roi_inside roi field -> (0 < roi_area roi)%Z ->
  0 <= q -> q <= 100 -> bounded_on roi field lo hi ->
  lo <= lerp_at (sort (flatten (roi_slice field roi))) q /\
  lerp_at (sort (flatten (roi_slice field roi))) q <= hi.
Proof.
  intros Hin Hpos H0 H1 Hb.
  apply lerp_convex; try assumption.
  - apply sort_nonempty, roi_values_nonempty; assumption.
  - apply Forall_sort, roi_slice_Forall; assumption.
Qed.

Lemma roi_percentile_uniform (field : LumaField) (roi : Roi) (q v : Q) :
  roi_inside roi field -> (0 < roi_area roi)%Z ->
  0 <= q -> q <= 100 -> uniform_on roi field v ->
  lerp_at (sort (flatten (roi_slice field roi))) q == v.
Proof.
  intros Hin Hpos H0 H1 Hu.
  apply lerp_uniform; try assumption.
  - apply sort_nonempty, roi_values_nonempty; assumption.
  - apply Forall_sort, roi_slice_Forall; assumption.
Qed.

Lemma gate_d_nonempty (luma : LumaField) (roi : Roi) :
  size (roi_slice luma roi) <> 0%nat ->
  let s := sort (flatten (roi_slice luma roi)) in
  gate_d_non_black luma roi =
  Ok (lerp_at s 50, lerp_at s 5,
      Qge_bool (lerp_at s 50) GATE_D_P50_MIN
      && Qge_bool (lerp_at s 5) GATE_D_P05_MIN).
Proof.
  intros Hne. cbv zeta. unfold gate_d_non_black.
  destruct (Nat.eqb_spec (size (roi_slice luma roi)) 0); [contradiction |].
  rewrite !percentile_ok by assumption. reflexivity.
Qed.

Lemma contrast_range (p05 p50 p95 : Q) :
  p05 <= p95 ->
  0 <= (p95 - p05) / py_max p50 1 /\
  (p95 - p05) / py_max p50 1 <= p95 - p05.
Proof.
  intros Hd. pose proof (py_max_ge_r p50 1) as Hm.
  split.
  - apply Qle_shift_div_l; lra.
  - apply Qle_shift_div_r; [lra | nra].
Qed.

Section GateRanges.

Variable gaussian_blur : LumaField -> Z -> LumaField.
Variable open_image : string -> PixelBuffer.


(** X2: on a ROI of nonzero area inside the blurred field, the three
    percentiles of Gate A are ordered, [p05 <= p50 <= p95]; the contrast
    is never negative and never above the spread [p95 - p05], so a ROI
    passes only if its spread is at least 0.35; a ROI of one value has
    contrast 0 and fails. *)
Theorem gate_a_contrast_range (blurred : LumaField) (roi : Roi) :
  roi_inside roi blurred -> (0 < roi_area roi)%Z ->
  exists p05 p50 p95 contrast roi_passed,
    gate_a_cloud_visibility blurred roi
      = Ok (p05, p50, p95, contrast, roi_passed) /\
    p05 <= p50 /\ p50 <= p95 /\
    0 <= contrast /\ contrast <= p95 - p05 /\
    (roi_passed = true -> 0.35 <= p95 - p05) /\
    (forall lo hi, bounded_on roi blurred lo hi ->
       lo <= p05 /\ p95 <= hi /\ contrast <= hi - lo) /\
    (forall v, uniform_on roi blurred v ->
       contrast == 0 /\ roi_passed = false).
Proof.
  intros Hin Hpos.
  pose proof (roi_slice_nonempty blurred roi Hin Hpos) as Hne.
  set (s := sort (flatten (roi_slice blurred roi))).
  pose proof (roi_percentile_order blurred roi 5 50 Hin Hpos
                ltac:(lra) ltac:(lra) ltac:(lra)) as H1.
  pose proof (roi_percentile_order blurred roi 50 95 Hin Hpos
                ltac:(lra) ltac:(lra) ltac:(lra)) as H2.
  fold s in H1, H2.
  destruct (contrast_range (lerp_at s 5) (lerp_at s 50) (lerp_at s 95)
              ltac:(lra)) as [Hc0 Hc1].
  eexists _, _, _, _, _.
  split; [apply gate_a_nonempty; exact Hne |]. fold s.
  split; [exact H1 |]. split; [exact H2 |].
  split; [exact Hc0 |]. split; [exact Hc1 |]. split; [| split].
  - intros Hp. apply Qge_bool_iff in Hp.
    unfold GATE_A_CONTRAST_MIN in Hp. lra.
  - intros lo hi Hb.
    destruct (roi_percentile_bounded blurred roi 5 lo hi Hin Hpos
                ltac:(lra) ltac:(lra) Hb) as [H5 _].
    destruct (roi_percentile_bounded blurred roi 95 lo hi Hin Hpos
                ltac:(lra) ltac:(lra) Hb) as [_ H95].
    fold s in H5, H95. repeat split; lra.
  - intros v Hu.
    pose proof (roi_percentile_uniform blurred roi 5 v Hin Hpos
                  ltac:(lra) ltac:(lra) Hu) as E5.
    pose proof (roi_percentile_uniform blurred roi 95 v Hin Hpos
                  ltac:(lra) ltac:(lra) Hu) as E95.
    fold s in E5, E95.
    assert ((lerp_at s 95 - lerp_at s 5) / py_max (lerp_at s 50) 1 == 0)
      as Hzero by lra.
    split; [exact Hzero |].
    destruct (Qge_bool ((lerp_at s 95 - lerp_at s 5)
                          / py_max (lerp_at s 50) 1) GATE_A_CONTRAST_MIN)
      eqn:E; [| reflexivity].
    apply Qge_bool_iff in E. unfold GATE_A_CONTRAST_MIN in E. lra.
Qed.

End GateRanges.

(** ** The samples of Gate B *)

Lemma window_values_Forall (P : Q -> Prop) (luma : LumaField) (roi : Roi)
    (x y : Z) :
  roi_inside roi luma ->
  (inset_left roi <= x <= inset_right roi)%Z ->
  (inset_top roi <= y <= inset_bottom roi)%Z ->
  (forall r c, in_roi roi r c -> P (at_ luma r c)) ->
  Forall P
    (flat_map
       (fun dy =>
          map (fun dx => at_ luma (Z.to_nat (y + dy)) (Z.to_nat (x + dx)))
            window_offsets)
       window_offsets).
Proof.
  unfold roi_inside, roi_in_bounds, inset_left, inset_right, inset_top,
    inset_bottom.
  intros (Hx0 & Hx1 & Hy0 & Hy1) Hx Hy HP.
  cbn [flat_map map window_offsets app].
  repeat (constructor; [apply HP; unfold in_roi; lia |]).
  constructor.
Qed.

Lemma window_mean_as_mean (luma : LumaField) (x y : Z) :
  spec_window_mean luma (x, y) =
  np_mean
    (flat_map
       (fun dy =>
          map (fun dx => at_ luma (Z.to_nat (y + dy)) (Z.to_nat (x + dx)))
            window_offsets)
       window_offsets).
Proof. reflexivity. Qed.

Lemma window_mean_bounds (luma : LumaField) (roi : Roi) (x y : Z) (lo hi : Q) :
  roi_inside roi luma ->
  (inset_left roi <= x <= inset_right roi)%Z ->
  (inset_top roi <= y <= inset_bottom roi)%Z ->
  bounded_on roi luma lo hi ->
  lo <= spec_window_mean luma (x, y) /\ spec_window_mean luma (x, y) <= hi.
Proof.
  intros Hin Hx Hy Hb. rewrite window_mean_as_mean.
  apply np_mean_bounds; [discriminate |].
  apply (window_values_Forall _ luma roi x y Hin Hx Hy Hb).
Qed.

Lemma window_mean_agree (a b : LumaField) (roi : Roi) (x y : Z) :
  roi_inside roi a ->
  (inset_left roi <= x <= inset_right roi)%Z ->
  (inset_top roi <= y <= inset_bottom roi)%Z ->
  agree_on roi a b ->
  spec_window_mean a (x, y) = spec_window_mean b (x, y).
Proof.
  unfold roi_inside, roi_in_bounds, inset_left, inset_right, inset_top,
    inset_bottom.
  intros (Hx0 & Hx1 & Hy0 & Hy1) Hx Hy Hag.
  unfold spec_window_mean. f_equal. f_equal.
  cbn [flat_map map window_offsets app].
  repeat match goal with
  | |- context [at_ a ?r ?c] => rewrite (Hag r c) by (unfold in_roi; lia)
  end.
  reflexivity.
Qed.

Lemma samples_on_walk (P : Q -> Prop) (luma : LumaField) (roi : Roi) :
  (inset_left roi < inset_right roi)%Z ->
  (inset_top roi < inset_bottom roi)%Z ->
  (forall x y,
     (inset_left roi <= x <= inset_right roi)%Z ->
     (inset_top roi <= y <= inset_bottom roi)%Z ->
     P (spec_window_mean luma (x, y))) ->
  Forall P (spec_samples luma roi).
Proof.
  intros Hlr Htb HP. unfold spec_samples.
  apply Forall_map, Forall_forall. intros [x y] Hp.
  apply in_boundary_path in Hp; [| assumption | assumption].
  apply HP; lia.
Qed.

Lemma samples_length (luma : LumaField) (roi : Roi) :
  (inset_left roi < inset_right roi)%Z ->
  (inset_top roi < inset_bottom roi)%Z ->
  Z.of_nat (length (spec_samples luma roi)) =
  (2 * (inset_right roi - inset_left roi)
   + 2 * (inset_bottom roi - inset_top roi))%Z.
Proof.
  intros Hlr Htb. unfold spec_samples. rewrite length_map.
  apply boundary_path_length; assumption.
Qed.

(** ** Counting transitions *)

Lemma transitions_range (values : list Q) :
  (0 <= spec_transitions values <= Z.of_nat (length values))%Z.
Proof.
  unfold spec_transitions, spec_closed_pairs.
  pose proof (filter_length_le spec_is_transition
                (combine values (tl values ++ [hd 0 values]))) as H.
  rewrite length_combine in H. lia.
Qed.

Lemma no_transition_between_equals (prev curr v : Q) :
  prev == v -> curr == v -> spec_is_transition (prev, curr) = false.
Proof.
  intros Hp Hc. unfold spec_is_transition, spec_delta. cbn [fst snd].
  destruct (Qle_bool 0.35 (Qabs (curr - prev) / py_max prev 1)) eqn:E;
    [| reflexivity].
  apply Qle_bool_iff in E.
  assert (curr - prev == 0) as Hz by lra.
  rewrite Hz in E. change (Qabs 0) with 0 in E.
  unfold Qdiv in E. rewrite Qmult_0_l in E. lra.
Qed.

Lemma no_transitions_on_flat (values : list Q) (v : Q) :
  Forall (fun a => a == v) values -> spec_transitions values = 0%Z.
Proof.
  intros Hall. unfold spec_transitions, spec_closed_pairs.
  rewrite filter_none; [reflexivity |].
  apply Forall_forall. intros [p c] Hin.
  rewrite Forall_forall in Hall.
  pose proof (in_combine_l _ _ _ _ Hin) as Hp.
  pose proof (in_combine_r _ _ _ _ Hin) as Hc.
  apply (no_transition_between_equals p c v); [apply Hall, Hp |].
  apply in_app_iff in Hc. destruct Hc as [Hc | [<- | []]].
  - apply Hall. destruct values; [contradiction | right; exact Hc].
  - destruct values as [| a t]; [contradiction |]. apply Hall. left. reflexivity.
Qed.


(** ** The gates read the ROI only *)

Lemma percentile_ext (a b : ndarray Q) (q : Q) :
  flatten a = flatten b -> percentile a q = percentile b q.
Proof. intros E. unfold percentile. rewrite E. reflexivity. Qed.

Lemma count_ge_ext (a b : ndarray Q) (t : Q) :
  flatten a = flatten b -> count_ge a t = count_ge b t.
Proof. intros E. unfold count_ge. rewrite E. reflexivity. Qed.

Lemma samples_agree (a b : LumaField) (roi : Roi) :
  roi_inside roi a ->
  (inset_left roi < inset_right roi)%Z ->
  (inset_top roi < inset_bottom roi)%Z ->
  agree_on roi a b ->
  spec_samples a roi = spec_samples b roi.
Proof.
  intros Hin Hlr Htb Hag. unfold spec_samples.
  apply map_ext_in. intros [x y] Hp.
  apply in_boundary_path in Hp; [| assumption | assumption].
  apply (window_mean_agree a b roi); [assumption | lia | lia | assumption].
Qed.

(** X4: Gates A, B, C and D read the field at the pixels of the ROI
    only: on two fields that hold the ROI and agree on its pixels, each
    gate returns the same result. *)
Theorem gates_read_roi_only (a b : LumaField) (roi : Roi) :
  roi_inside roi a -> roi_inside roi b -> agree_on roi a b ->
  gate_a_cloud_visibility a roi = gate_a_cloud_visibility b roi /\
  gate_b_transition_count a roi = gate_b_transition_count b roi /\
  gate_c_star_density a roi = gate_c_star_density b roi /\
  gate_d_non_black a roi = gate_d_non_black b roi.
Proof.
  intros Ha Hb Hag.
  destruct (roi_slice_agree a b roi Ha Hb Hag) as [Hflat Hsize].
  split; [| split; [| split]].
  - unfold gate_a_cloud_visibility. cbv zeta.
    rewrite Hsize, !(percentile_ext _ _ _ Hflat). reflexivity.
  - destruct (Z_lt_le_dec (inset_left roi) (inset_right roi)) as [Hx | Hx].
    + destruct (Z_lt_le_dec (inset_top roi) (inset_bottom roi)) as [Hy | Hy].
      * rewrite !gate_b_samples by assumption.
        rewrite (samples_agree a b roi Ha Hx Hy Hag). reflexivity.
      * rewrite !gate_b_small by (right; exact Hy). reflexivity.
    + rewrite !gate_b_small by (left; exact Hx). reflexivity.
  - unfold gate_c_star_density. cbv zeta.
    rewrite Hsize, (count_ge_ext _ _ _ Hflat). reflexivity.
  - unfold gate_d_non_black. cbv zeta.
    rewrite Hsize, !(percentile_ext _ _ _ Hflat). reflexivity.
Qed.

(** ** The window of [average_window] *)

Lemma average_window_in_roi (luma : LumaField) (roi : Roi) (x y : Z) :
  (x0 roi <= x < x1 roi)%Z -> (y0 roi <= y < y1 roi)%Z ->
  average_window luma roi x y 5 =
  Ok (np_mean (flatten (roi_slice luma (window_of roi x y)))).
Proof.
  intros Hx Hy. unfold average_window. change (5 / 2)%Z with 2%Z. cbv zeta.
  destruct (Z.ltb_spec (Z.min (x1 roi - 1) (x + 2)) (Z.max (x0 roi) (x - 2)));
    [lia |].
  destruct (Z.ltb_spec (Z.min (y1 roi - 1) (y + 2)) (Z.max (y0 roi) (y - 2)));
    [lia |].
  reflexivity.
Qed.

Lemma window_of_inside {A} (field : ndarray A) (roi : Roi) (x y : Z) :
  roi_inside roi field ->
  (x0 roi <= x < x1 roi)%Z -> (y0 roi <= y < y1 roi)%Z ->
  roi_inside (window_of roi x y) field /\ (0 < roi_area (window_of roi x y))%Z.
Proof.
  unfold roi_inside, roi_in_bounds, window_of, roi_area, roi_width, roi_height.
  cbn [x0 x1 y0 y1]. intros (Hx0 & Hx1 & Hy0 & Hy1) Hx Hy.
  split; [lia | nia].
Qed.

Lemma in_window_of (roi : Roi) (x y : Z) (r c : nat) :
  in_roi (window_of roi x y) r c <->
  in_roi roi r c /\
  (y - 2 <= Z.of_nat r <= y + 2)%Z /\ (x - 2 <= Z.of_nat c <= x + 2)%Z.
Proof. unfold in_roi, window_of. cbn [x0 x1 y0 y1]. lia. Qed.


(** ** The geometry of [get_rois] *)

Lemma py_round_unique (q : Q) (z : Z) :
  inject_Z z - q < 0.5 -> q - inject_Z z < 0.5 -> py_round q = z.
Proof.
  intros Hup Hdn. destruct (py_round_near q) as [Nup Ndn].
  assert (inject_Z (py_round q) < inject_Z (z + 1)) as H1
    by (rewrite inject_Z_plus; change (inject_Z 1) with 1; lra).
  assert (inject_Z z < inject_Z (py_round q + 1)) as H2
    by (rewrite inject_Z_plus; change (inject_Z 1) with 1; lra).
  rewrite <- Zlt_Qlt in H1, H2. lia.
Qed.

Lemma inject_Z_sub (x y : Z) : inject_Z (x - y) = inject_Z x - inject_Z y.
Proof.
  unfold Z.sub. rewrite inject_Z_plus, inject_Z_opp. reflexivity.
Qed.

Lemma Q_of_Z_le (a b : Z) : (a <= b)%Z -> inject_Z a <= inject_Z b.
Proof. intros H. rewrite <- Zle_Qle. exact H. Qed.

Lemma Z_of_Q_lt (a b : Z) : inject_Z a < inject_Z b -> (a < b)%Z.
Proof. intros H. rewrite <- Zlt_Qlt in H. exact H. Qed.

(** [0.12 * w] is never half-way between two integers. *)
Lemma round_12_strict (w : Z) :
  inject_Z (py_round (0.12 * inject_Z w)) - 0.12 * inject_Z w < 0.5 /\
  0.12 * inject_Z w - inject_Z (py_round (0.12 * inject_Z w)) < 0.5.
Proof.
  destruct (py_round_near (0.12 * inject_Z w)) as [Nup Ndn].
  generalize dependent (py_round (0.12 * inject_Z w)). intros r Nup Ndn.
  split.
  - destruct (Qle_lt_or_eq _ _ Nup) as [H | H]; [exact H | exfalso].
    assert (inject_Z (100 * r - 12 * w) == inject_Z 50) as E.
    { unfold Z.sub. rewrite inject_Z_plus, inject_Z_opp, !inject_Z_mult.
      change (inject_Z 100) with 100. change (inject_Z 12) with 12.
      change (inject_Z 50) with 50. lra. }
    apply (proj1 (inject_Z_injective _ _)) in E. lia.
  - destruct (Qle_lt_or_eq _ _ Ndn) as [H | H]; [exact H | exfalso].
    assert (inject_Z (12 * w - 100 * r) == inject_Z 50) as E.
    { unfold Z.sub. rewrite inject_Z_plus, inject_Z_opp, !inject_Z_mult.
      change (inject_Z 100) with 100. change (inject_Z 12) with 12.
      change (inject_Z 50) with 50. lra. }
    apply (proj1 (inject_Z_injective _ _)) in E. lia.
Qed.

Lemma round_88_mirror (w : Z) :
  py_round (0.88 * inject_Z w) = (w - py_round (0.12 * inject_Z w))%Z.
Proof.
  destruct (round_12_strict w) as [Hup Hdn].
  apply py_round_unique; rewrite inject_Z_sub; lra.
Qed.

Lemma round_12_at_least (w k : Z) :
  (0 <= w)%Z ->
  (k <= py_round (0.12 * inject_Z w))%Z <->
  inject_Z k - 0.5 < 0.12 * inject_Z w.
Proof.
  intros Hw. destruct (round_12_strict w) as [Hup Hdn].
  set (r := py_round (0.12 * inject_Z w)) in *.
  split.
  - intros Hk. apply Q_of_Z_le in Hk. lra.
  - intros H. apply Z_le_of_Q. lra.
Qed.

Lemma band_height_bounds (h : Z) :
  (0 <= h)%Z ->
  let d := (py_round (0.75 * inject_Z h) - py_round (0.25 * inject_Z h))%Z in
  0.5 * inject_Z h - 1 <= inject_Z d /\ inject_Z d <= 0.5 * inject_Z h + 1.
Proof.
  intros Hh d. unfold d. rewrite inject_Z_sub.
  destruct (py_round_near (0.75 * inject_Z h)) as [Aup Adn].
  destruct (py_round_near (0.25 * inject_Z h)) as [Bup Bdn].
  split; lra.
Qed.

Lemma band_height_at_least_1 (h : Z) :
  (0 <= h)%Z ->
  (1 <= py_round (0.75 * inject_Z h) - py_round (0.25 * inject_Z h))%Z
  <-> (1 <= h)%Z.
Proof.
  intros Hh. split.
  - intros H. destruct (Z.eq_dec h 0) as [-> | Hn]; [| lia].
    vm_compute in H. contradiction.
  - intros H.
    assert (h = 1 \/ h = 2 \/ 3 <= h)%Z as [-> | [-> | H3]] by lia;
      [vm_compute; discriminate | vm_compute; discriminate |].
    destruct (band_height_bounds h Hh) as [Hlo _].
    apply Q_of_Z_le in H3. change (inject_Z 3) with 3 in H3.
    assert (inject_Z 0 <
            inject_Z (py_round (0.75 * inject_Z h)
                      - py_round (0.25 * inject_Z h))) as Hpos
      by (change (inject_Z 0) with 0; lra).
    apply Z_of_Q_lt in Hpos. lia.
Qed.

Lemma band_height_at_least_8 (h : Z) :
  (0 <= h)%Z ->
  (8 <= py_round (0.75 * inject_Z h) - py_round (0.25 * inject_Z h))%Z
  <-> (16 <= h)%Z.
Proof.
  intros Hh. destruct (band_height_bounds h Hh) as [Hlo Hhi].
  cbv zeta in Hlo, Hhi. split.
  - intros H.
    destruct (Z_le_gt_dec 16 h) as [Hge | Hlt]; [exact Hge | exfalso].
    assert (h <= 13 \/ h = 14 \/ h = 15)%Z as [H13 | [-> | ->]] by lia.
    + apply Q_of_Z_le in H13, H. change (inject_Z 13) with 13 in H13.
      change (inject_Z 8) with 8 in H. lra.
    + vm_compute in H. contradiction.
    + vm_compute in H. contradiction.
  - intros H.
    assert (h = 16 \/ h = 17 \/ 18 <= h)%Z as [-> | [-> | H18]] by lia;
      [vm_compute; discriminate | vm_compute; discriminate |].
    apply Q_of_Z_le in H18. change (inject_Z 18) with 18 in H18.
    assert (inject_Z 7 <
            inject_Z (py_round (0.75 * inject_Z h)
                      - py_round (0.25 * inject_Z h))) as Hpos
      by (change (inject_Z 7) with 7; lra).
    apply Z_of_Q_lt in Hpos. lia.
Qed.

Lemma band_width_at_least (w k : Z) (bound : Z) :
  (0 <= w)%Z ->
  inject_Z k - 0.5 < 0.12 * inject_Z bound ->
  0.12 * inject_Z (bound - 1) < inject_Z k - 0.5 ->
  (k <= py_round (0.12 * inject_Z w))%Z <-> (bound <= w)%Z.
Proof.
  intros Hw Hat Hbelow. rewrite (round_12_at_least w k Hw). split.
  - intros H.
    destruct (Z_le_gt_dec bound w) as [Hge | Hlt]; [exact Hge | exfalso].
    assert (w <= bound - 1)%Z as Hle by lia.
    apply Q_of_Z_le in Hle. lra.
  - intros H. apply Q_of_Z_le in H. lra.
Qed.

Lemma band_width (w : Z) :
  (0 <= w)%Z ->
  (0 <= py_round (0.12 * inject_Z w))%Z /\
  (2 * py_round (0.12 * inject_Z w) <= w)%Z.
Proof.
  intros Hw. destruct (round_12_strict w) as [Hup Hdn].
  pose proof (py_round_scaled_bounds 0.12 w ltac:(lra) ltac:(lra) Hw) as [H0 _].
  split; [exact H0 |].
  assert (w = 0 \/ w = 1 \/ 2 <= w)%Z as [-> | [-> | H2]] by lia;
    [vm_compute; discriminate | vm_compute; discriminate |].
  apply Q_of_Z_le in H2. change (inject_Z 2) with 2 in H2.
  assert (inject_Z (2 * py_round (0.12 * inject_Z w)) < inject_Z w + 1) as H.
  { rewrite inject_Z_mult. change (inject_Z 2) with 2. lra. }
  apply Z_le_of_Q in H. exact H.
Qed.

(** X6: for non-negative dimensions the two ROIs of [get_rois] are
    mirror images: the left one starts at column 0, the right one ends at
    column [width], they span the same rows, have the same width, height
    and area, and do not overlap. *)
Theorem get_rois_mirror (w h : Z) :
  (0 <= w)%Z -> (0 <= h)%Z ->
  let left := fst (get_rois w h) in
  let right := snd (get_rois w h) in
  x0 left = 0%Z /\ x1 right = w /\
  x0 right = (w - x1 left)%Z /\
  y0 left = y0 right /\ y1 left = y1 right /\
  roi_width left = roi_width right /\
  roi_height left = roi_height right /\
  roi_area left = roi_area right /\
  (x1 left <= x0 right)%Z.
Proof.
  intros Hw Hh. cbv zeta. unfold get_rois, roi_area, roi_width, roi_height.
  cbn [fst snd x0 x1 y0 y1]. rewrite round_88_mirror.
  destruct (band_width w Hw) as [H0 H2].
  repeat split; try reflexivity; lia.
Qed.

Lemma rois_hold_pixels (w h : Z) :
  (0 <= w)%Z -> (0 <= h)%Z ->
  let left := fst (get_rois w h) in
  let right := snd (get_rois w h) in
  ((0 < roi_area left)%Z <-> (5 <= w)%Z /\ (1 <= h)%Z) /\
  ((0 < roi_area right)%Z <-> (5 <= w)%Z /\ (1 <= h)%Z) /\
  ((inset_left left < inset_right left)%Z /\
   (inset_top left < inset_bottom left)%Z
   <-> (63 <= w)%Z /\ (16 <= h)%Z) /\
  ((inset_left right < inset_right right)%Z /\
   (inset_top right < inset_bottom right)%Z
   <-> (63 <= w)%Z /\ (16 <= h)%Z).
Proof.
  intros Hw Hh. cbv zeta.
  unfold get_rois, roi_area, roi_width, roi_height, inset_left, inset_right,
    inset_top, inset_bottom.
  cbn [fst snd x0 x1 y0 y1]. rewrite round_88_mirror.
  destruct (band_width w Hw) as [H0 H2].
  pose proof (quarter_rounds_ordered h Hh) as Hord.
  pose proof (band_width_at_least w 1 5 Hw ltac:(vm_compute; reflexivity)
                ltac:(vm_compute; reflexivity)) as W1.
  pose proof (band_width_at_least w 8 63 Hw ltac:(vm_compute; reflexivity)
                ltac:(vm_compute; reflexivity)) as W8.
  pose proof (band_height_at_least_1 h Hh) as B1.
  pose proof (band_height_at_least_8 h Hh) as B8.
  set (r := py_round (0.12 * inject_Z w)) in *.
  set (a := py_round (0.25 * inject_Z h)) in *.
  set (b := py_round (0.75 * inject_Z h)) in *.
  repeat split; intros; try nia.
Qed.

Lemma get_rois_inside {A} (arr : ndarray A) (w h : Z) :
  w = Z.of_nat (ncols arr) -> h = Z.of_nat (nrows arr) ->
  roi_inside (fst (get_rois w h)) arr /\ roi_inside (snd (get_rois w h)) arr /\
  roi_nonneg (fst (get_rois w h)) /\ roi_nonneg (snd (get_rois w h)).
Proof.
  intros -> ->.
  set (w := Z.of_nat (ncols arr)). set (h := Z.of_nat (nrows arr)).
  assert (0 <= w)%Z as Hw by (unfold w; lia).
  assert (0 <= h)%Z as Hh by (unfold h; lia).
  pose proof (py_round_scaled_bounds 0.12 w ltac:(lra) ltac:(lra) Hw) as B12.
  pose proof (py_round_scaled_bounds 0.88 w ltac:(lra) ltac:(lra) Hw) as B88.
  pose proof (py_round_scaled_bounds 0.25 h ltac:(lra) ltac:(lra) Hh) as B25.
  pose proof (py_round_scaled_bounds 0.75 h ltac:(lra) ltac:(lra) Hh) as B75.
  pose proof (quarter_rounds_ordered h Hh) as Hord.
  unfold roi_inside, roi_in_bounds, roi_nonneg, get_rois.
  cbn [fst snd x0 x1 y0 y1]. fold w h. lia.
Qed.

(** X7: for non-negative dimensions each ROI of [get_rois] holds a
    pixel iff the image is at least 5 pixels wide and 1 pixel high, and
    it holds the inset rectangle Gate B walks on iff the image is at
    least 63 pixels wide and 16 pixels high. *)
Theorem get_rois_sizes (w h : Z) :
  (0 <= w)%Z -> (0 <= h)%Z ->
  let left := fst (get_rois w h) in
  let right := snd (get_rois w h) in
  ((0 < roi_area left)%Z <-> (5 <= w)%Z /\ (1 <= h)%Z) /\
  ((0 < roi_area right)%Z <-> (5 <= w)%Z /\ (1 <= h)%Z) /\
  ((inset_left left < inset_right left)%Z /\
   (inset_top left < inset_bottom left)%Z
   <-> (63 <= w)%Z /\ (16 <= h)%Z) /\
  ((inset_left right < inset_right right)%Z /\
   (inset_top right < inset_bottom right)%Z
   <-> (63 <= w)%Z /\ (16 <= h)%Z).
Proof.
  intros Hw Hh left right.
  destruct (rois_hold_pixels w h Hw Hh) as (Hl & Hr & Hil & Hir).
  split; [exact Hl |]. split; [exact Hr |]. split; [exact Hil | exact Hir].
Qed.

(** ** Images too small for the gates *)

Section SmallImages.

Variable gaussian_blur : LumaField -> Z -> LumaField.
Variable open_image : string -> PixelBuffer.

Lemma empty_roi_flags (blurred luma : LumaField) (roi : Roi)
    (a : Q * Q * Q * Q * bool) (t : Z) (v : list Q) (c : Q * bool)
    (d : Q * Q * bool) :
  roi_nonneg roi -> roi_area roi = 0%Z ->
  gate_a_cloud_visibility blurred roi = Ok a ->
  gate_b_transition_count blurred roi
    = Ok (t, (GATE_B_ROI_TRANSITIONS_MIN <=? t)%Z, v) ->
  gate_c_star_density luma roi = Ok c ->
  gate_d_non_black luma roi = Ok d ->
  snd a = false /\ (GATE_B_ROI_TRANSITIONS_MIN <=? t)%Z = false /\
  snd c = false /\ snd d = false.
Proof.
  intros Hnn Hz Ha Hb Hc Hd.
  rewrite (gate_a_empty blurred roi (roi_slice_empty blurred roi Hnn Hz)) in Ha.
  rewrite (gate_c_empty luma roi (roi_slice_empty luma roi Hnn Hz)) in Hc.
  rewrite (gate_d_empty luma roi (roi_slice_empty luma roi Hnn Hz)) in Hd.
  rewrite gate_b_small in Hb.
  2:{ apply roi_area_zero in Hz.
      unfold inset_left, inset_right, inset_top, inset_bottom. lia. }
  injection Ha as <-. injection Hc as <-. injection Hd as <-.
  injection Hb as <- _ _. repeat split; reflexivity.
Qed.

(** X8: [verify_image] never raises, and an image too small for its
    ROIs fails: when the image is less than 5 pixels wide or has no row,
    both ROIs are empty and Gates A, B, C and D all fail; when it is less
    than 63 pixels wide or less than 16 pixels high, Gate B fails. *)
Theorem small_images_fail (path : string) (require_motion : bool)
    (motion_metrics : option MotionMetrics) :
  let arr := open_image path in
  exists results,
    verify_image gaussian_blur open_image path require_motion motion_metrics
      = Ok results /\
    ((ncols arr < 5 \/ nrows arr < 1)%nat ->
     roi_area (fst (image_rois arr)) = 0%Z /\
     roi_area (snd (image_rois arr)) = 0%Z /\
     firstn 4 (map passed results) = [false; false; false; false]) /\
    ((ncols arr < 63 \/ nrows arr < 16)%nat ->
     nth_error (map passed results) 1 = Some false).
Proof.
  intros arr.
  destruct (verify_image_gates gaussian_blur open_image path require_motion
              motion_metrics)
    as (a_l & a_r & t_l & v_l & t_r & v_r & c_l & c_r & d_l & d_r & results
        & Ha_l & Ha_r & Hb_l & Hb_r & Hc_l & Hc_r & Hd_l & Hd_r & Hv & _ & Hp).
  fold arr in Ha_l, Ha_r, Hb_l, Hb_r, Hc_l, Hc_r, Hd_l, Hd_r.
  exists results. split; [exact Hv |].
  assert (0 <= Z.of_nat (ncols arr))%Z as Hw by lia.
  assert (0 <= Z.of_nat (nrows arr))%Z as Hh by lia.
  destruct (rois_hold_pixels _ _ Hw Hh) as (Al & Ar & Il & Ir).
  cbv zeta in Al, Ar, Il, Ir.
  destruct (get_rois_inside arr _ _ eq_refl eq_refl)
    as (_ & _ & Nl & Nr).
  fold (image_rois arr) in Al, Ar, Il, Ir, Nl, Nr.
  rewrite Hp. split.
  - intros Hsmall.
    assert (roi_area (fst (image_rois arr)) = 0%Z) as Zl.
    { pose proof (Z.mul_nonneg_nonneg _ _
                    (Z.le_max_l 0 (x1 (fst (image_rois arr))
                                   - x0 (fst (image_rois arr))))
                    (Z.le_max_l 0 (y1 (fst (image_rois arr))
                                   - y0 (fst (image_rois arr))))) as Hge.
      fold (roi_width (fst (image_rois arr))) in Hge.
      fold (roi_height (fst (image_rois arr))) in Hge.
      fold (roi_area (fst (image_rois arr))) in Hge. lia. }
    assert (roi_area (snd (image_rois arr)) = 0%Z) as Zr.
    { pose proof (Z.mul_nonneg_nonneg _ _
                    (Z.le_max_l 0 (x1 (snd (image_rois arr))
                                   - x0 (snd (image_rois arr))))
                    (Z.le_max_l 0 (y1 (snd (image_rois arr))
                                   - y0 (snd (image_rois arr))))) as Hge.
      fold (roi_width (snd (image_rois arr))) in Hge.
      fold (roi_height (snd (image_rois arr))) in Hge.
      fold (roi_area (snd (image_rois arr))) in Hge. lia. }
    split; [exact Zl |]. split; [exact Zr |].
    destruct (empty_roi_flags _ _ _ _ _ _ _ _ Nl Zl Ha_l Hb_l Hc_l Hd_l)
      as (Ea & Eb & Ec & Ed).
    cbn [firstn app]. rewrite Ea, Eb, Ec, Ed. reflexivity.
  - intros Hsmall. cbn [nth_error app]. f_equal.
    destruct (Z_lt_le_dec (inset_left (fst (image_rois arr)))
                (inset_right (fst (image_rois arr)))) as [Hx | Hx].
    + destruct (Z_lt_le_dec (inset_top (fst (image_rois arr)))
                  (inset_bottom (fst (image_rois arr)))) as [Hy | Hy];
        [lia |].
      rewrite gate_b_small in Hb_l by (right; exact Hy).
      injection Hb_l as <- _ _. reflexivity.
    + rewrite gate_b_small in Hb_l by (left; exact Hx).
      injection Hb_l as <- _ _. reflexivity.
Qed.

End SmallImages.

(** ** The luminance of a pixel *)

Lemma byte_val_range (b : Byte.byte) : 0 <= byte_val b /\ byte_val b <= 255.
Proof.
  unfold byte_val. pose proof (Byte.to_N_bounded b) as H.
  split; [change 0 with (inject_Z 0) | change 255 with (inject_Z 255)];
    rewrite <- Zle_Qle; lia.
Qed.

Lemma luma_of_eq (p : rgb) :
  luma_of p
  = f32_add
      (f32_add (f32_mul (byte_val (red p)) (f32_round 0.2126))
               (f32_mul (byte_val (green p)) (f32_round 0.7152)))
      (f32_mul (byte_val (blue p)) (f32_round 0.0722)).
Proof. reflexivity. Qed.

Lemma f32_mul_nonneg (a w : Q) : 0 <= a -> 0 <= w -> 0 <= f32_mul a w.
Proof.
  intros Ha Hw. apply f32_round_nonneg, Qmult_le_0_compat; assumption.
Qed.

Lemma f32_mul_mono (a b w : Q) :
  0 <= a -> a <= b -> 0 <= w -> f32_mul a w <= f32_mul b w.
Proof.
  intros Ha Hab Hw. apply f32_round_mono.
  - apply Qmult_le_0_compat; assumption.
  - apply Qmult_le_compat_r; assumption.
Qed.

Lemma f32_add_nonneg (a b : Q) : 0 <= a -> 0 <= b -> 0 <= f32_add a b.
Proof. intros Ha Hb. apply f32_round_nonneg. lra. Qed.

Lemma f32_add_mono (a b c d : Q) :
  0 <= a -> 0 <= c -> a <= b -> c <= d -> f32_add a c <= f32_add b d.
Proof. intros Ha Hc Hab Hcd. apply f32_round_mono; lra. Qed.

Lemma weight_nonneg (w : Q) : 0 <= w -> 0 <= f32_round w.
Proof. apply f32_round_nonneg. Qed.

Lemma luma_of_mono (p q : rgb) :
  byte_val (red p) <= byte_val (red q) ->
  byte_val (green p) <= byte_val (green q) ->
  byte_val (blue p) <= byte_val (blue q) ->
  luma_of p <= luma_of q.
Proof.
  intros Hr Hg Hb. rewrite !luma_of_eq.
  destruct (byte_val_range (red p)) as [Hr0 _],
    (byte_val_range (green p)) as [Hg0 _],
    (byte_val_range (blue p)) as [Hb0 _].
  assert (0 <= f32_round 0.2126) as Wr by (apply weight_nonneg; lra).
  assert (0 <= f32_round 0.7152) as Wg by (apply weight_nonneg; lra).
  assert (0 <= f32_round 0.0722) as Wb by (apply weight_nonneg; lra).
  apply f32_add_mono.
  - apply f32_add_nonneg; apply f32_mul_nonneg; assumption.
  - apply f32_mul_nonneg; assumption.
  - apply f32_add_mono;
      first [apply f32_mul_nonneg; assumption
            | apply f32_mul_mono; assumption].
  - apply f32_mul_mono; assumption.
Qed.

Lemma luma_of_black : luma_of black == 0.
Proof. vm_compute. reflexivity. Qed.

Lemma luma_of_white : luma_of white == 255.
Proof. vm_compute. reflexivity. Qed.

Lemma luma_of_range (p : rgb) : 0 <= luma_of p /\ luma_of p <= 255.
Proof.
  destruct (byte_val_range (red p)) as [Hr0 Hr1],
    (byte_val_range (green p)) as [Hg0 Hg1],
    (byte_val_range (blue p)) as [Hb0 Hb1].
  split.
  - rewrite <- luma_of_black. apply luma_of_mono; assumption.
  - rewrite <- luma_of_white. apply luma_of_mono; assumption.
Qed.

Lemma luma_of_grey (v : Byte.byte) :
  Qabs (luma_of (grey v) - byte_val v) <= 1 # 65536.
Proof. apply Qle_bool_iff. destruct v; vm_compute; reflexivity. Qed.

Lemma luma_of_grey_13 : luma_of (grey Byte.x0d) == 13 - 1 / 1048576.
Proof. vm_compute. reflexivity. Qed.


(** ** The histogram counts every value in range once *)

Lemma hist_bin_in_rangeb (v : Q) :
  hist_bin v =
  if in_rangeb v
  then Some (Nat.min 63 (Z.to_nat (Qfloor (v * 64 / 255))))
  else None.
Proof. reflexivity. Qed.

Lemma total_add (f g : nat -> Z) (l : list nat) :
  total (map (fun b => (f b + g b)%Z) l)
  = (total (map f l) + total (map g l))%Z.
Proof.
  unfold total. induction l as [| b l IH]; cbn [map fold_right]; lia.
Qed.

Lemma total_zero (f : nat -> Z) (l : list nat) :
  (forall b, In b l -> f b = 0%Z) -> total (map f l) = 0%Z.
Proof.
  unfold total. induction l as [| b l IH]; intros H; cbn [map fold_right];
    [reflexivity |].
  rewrite (H b (or_introl eq_refl)), IH; [reflexivity |].
  intros c Hc. apply H. right. exact Hc.
Qed.

Lemma total_indicator (k s n : nat) :
  total (map (fun b => if Nat.eqb k b then 1%Z else 0%Z) (seq s n))
  = if (s <=? k)%nat && (k <? s + n)%nat then 1%Z else 0%Z.
Proof.
  unfold total. revert s. induction n as [| n IH]; intros s.
  - cbn [seq map fold_right].
    destruct (Nat.leb_spec s k), (Nat.ltb_spec k (s + 0)); cbn; lia.
  - cbn [seq map fold_right]. rewrite IH.
    destruct (Nat.eqb_spec k s), (Nat.leb_spec s k),
      (Nat.leb_spec (S s) k), (Nat.ltb_spec k (s + S n)),
      (Nat.ltb_spec k (S s + n)); cbn [andb]; lia.
Qed.

Lemma bins_of_value (v : Q) :
  total (map (fun b => if spec_in_bin b v then 1%Z else 0%Z) (seq 0 64))
  = if in_rangeb v then 1%Z else 0%Z.
Proof.
  pose proof (hist_bin_in_rangeb v) as Hbin.
  destruct (in_rangeb v).
  - set (k := Nat.min 63 (Z.to_nat (Qfloor (v * 64 / 255)))) in *.
    assert (k < 64)%nat as Hk by (unfold k; lia).
    rewrite (map_ext_in _ (fun b => if Nat.eqb k b then 1%Z else 0%Z)).
    + rewrite total_indicator.
      destruct (Nat.leb_spec 0 k), (Nat.ltb_spec k (0 + 64)); cbn [andb]; lia.
    + intros b Hb. apply in_seq in Hb.
      destruct (spec_in_bin b v) eqn:S.
      * apply (hist_bin_spec b v) in S; [| lia].
        rewrite Hbin in S. injection S as <-. rewrite Nat.eqb_refl. reflexivity.
      * destruct (Nat.eqb_spec k b) as [<- | _]; [| reflexivity].
        apply (hist_bin_spec k v Hk) in Hbin. congruence.
  - apply total_zero. intros b Hb. apply in_seq in Hb.
    destruct (spec_in_bin b v) eqn:S; [| reflexivity].
    apply (hist_bin_spec b v) in S; [| lia]. congruence.
Qed.

Lemma histogram_total_of (values : list Q) :
  total (map (fun b => Z.of_nat (length (filter (spec_in_bin b) values)))
           (seq 0 64))
  = Z.of_nat (length (filter in_rangeb values)).
Proof.
  induction values as [| v l IH].
  - cbn [filter length]. apply total_zero. reflexivity.
  - rewrite (map_ext _
               (fun b => ((if spec_in_bin b v then 1 else 0)
                          + Z.of_nat (length (filter (spec_in_bin b) l)))%Z)).
    + rewrite total_add, IH, bins_of_value. cbn [filter].
      destruct (in_rangeb v); cbn [length]; lia.
    + intros b. cbn [filter].
      destruct (spec_in_bin b v); cbn [length]; lia.
Qed.

Lemma np_histogram_nonneg (field : LumaField) :
  Forall (fun c => (0 <= c)%Z) (np_histogram field).
Proof.
  rewrite np_histogram_spec. unfold spec_histogram.
  apply Forall_map, Forall_forall. intros b _. lia.
Qed.

(** X10: the 64-bin histogram over [[0, 255]] that Gate F takes counts
    every value of the field that lies in [[0, 255]] exactly once and
    drops the others: its counts are not negative and add up to the
    number of values in range -- to the number of pixels for the
    luminance of an image. *)
Theorem histogram_total (field : LumaField) :
  length (np_histogram field) = 64%nat /\
  Forall (fun c => (0 <= c)%Z) (np_histogram field) /\
  total (np_histogram field)
    = Z.of_nat (length (filter in_rangeb (flatten field))) /\
  (forall arr : PixelBuffer,
     field = calculate_luminance arr ->
     total (np_histogram field) = Z.of_nat (size arr)).
Proof.
  split; [apply np_histogram_length |].
  split; [apply np_histogram_nonneg |].
  assert (total (np_histogram field)
          = Z.of_nat (length (filter in_rangeb (flatten field)))) as Htot.
  { rewrite np_histogram_spec. apply histogram_total_of. }
  split; [exact Htot |].
  intros arr ->. rewrite Htot, filter_all.
  - rewrite flatten_length. reflexivity.
  - apply Forall_flatten. intros y x _ _.
    destruct (luma_of_range (at_ arr y x)) as [H0 H1].
    unfold in_rangeb. apply andb_true_iff.
    split; apply Qle_bool_iff; assumption.
Qed.

(** ** The range of a correlation *)

Lemma spec_dot_sym (a b : list R) : spec_dot a b = spec_dot b a.
Proof.
  unfold spec_dot. revert b.
  induction a as [| x a IH]; intros [| y b]; try reflexivity.
  cbn [combine fold_right fst snd]. rewrite IH. Lra.lra.
Qed.

Lemma spec_dot_nonneg (a b : list R) :
  Forall (fun x => (0 <= x)%R) a -> Forall (fun x => (0 <= x)%R) b ->
  (0 <= spec_dot a b)%R.
Proof.
  unfold spec_dot. intros Ha. revert b.
  induction Ha as [| x a Hx _ IH]; intros b Hb; [cbn; Lra.lra |].
  destruct Hb as [| y b Hy Hb]; [cbn; Lra.lra |].
  cbn [combine fold_right fst snd]. specialize (IH b Hb).
  pose proof (Rmult_le_pos x y Hx Hy). Lra.lra.
Qed.

Lemma spec_dot_nil_r (a : list R) : spec_dot a [] = 0%R.
Proof. destruct a; reflexivity. Qed.

Lemma spec_dot_cons (x y : R) (a b : list R) :
  spec_dot (x :: a) (y :: b) = (x * y + spec_dot a b)%R.
Proof. reflexivity. Qed.

Lemma spec_dot_mean_squares (a b : list R) :
  (2 * spec_dot a b <= spec_dot a a + spec_dot b b)%R.
Proof.
  revert b. induction a as [| x a IH]; intros b.
  - pose proof (spec_dot_self_nonneg b).
    change (spec_dot [] b) with 0%R. change (spec_dot [] []) with 0%R.
    Lra.lra.
  - destruct b as [| y b].
    + pose proof (spec_dot_self_nonneg (x :: a)).
      rewrite !spec_dot_nil_r. Lra.lra.
    + specialize (IH b). rewrite !spec_dot_cons.
      pose proof (Rle_0_sqr (x - y)) as Hsq. unfold Rsqr in Hsq.
      set (sab := spec_dot a b) in *. set (saa := spec_dot a a) in *.
      set (sbb := spec_dot b b) in *. Lra.nra.
Qed.

Lemma counts_zero_or_not (counts : list Z) :
  all_zero counts \/ exists c, In c counts /\ c <> 0%Z.
Proof.
  induction counts as [| c l IH]; [left; constructor |].
  destruct (Z.eq_dec c 0) as [-> | Hc].
  - destruct IH as [Hz | (d & Hd & Hnz)].
    + left. constructor; [reflexivity | exact Hz].
    + right. exists d. split; [right; exact Hd | exact Hnz].
  - right. exists c. split; [left; reflexivity | exact Hc].
Qed.

Lemma np_norm_nonneg (h : list R) : (0 <= np_norm h)%R.
Proof. unfold np_norm. apply sqrt_pos. Qed.

Lemma l2_normalise_nonneg (counts : list Z) :
  Forall (fun c => (0 <= c)%Z) counts ->
  Forall (fun x => (0 <= x)%R) (l2_normalise counts).
Proof.
  intros Hc. unfold l2_normalise. cbv zeta.
  assert (Forall (fun x => (0 <= x)%R) (map IZR counts)) as Hr.
  { apply Forall_map. revert Hc. apply Forall_impl.
    intros c H. apply IZR_le. exact H. }
  destruct (Req_dec_T (np_norm (map IZR counts)) 0) as [E | N]; [exact Hr |].
  pose proof (np_norm_nonneg (map IZR counts)) as Hn.
  apply Forall_map. revert Hr. apply Forall_impl. intros x Hx.
  unfold Rdiv. apply Rmult_le_pos; [exact Hx |].
  left. apply Rinv_0_lt_compat. Lra.lra.
Qed.

Lemma l2_normalise_self (counts : list Z) :
  (spec_dot (l2_normalise counts) (l2_normalise counts) <= 1)%R.
Proof.
  destruct (counts_zero_or_not counts) as [Hz | (c & Hin & Hc)].
  - destruct (l2_normalise_zero counts Hz) as (_ & _ & Hall).
    rewrite (spec_dot_zero_l _ _ Hall). Lra.lra.
  - destruct (l2_normalise_unit counts c Hin Hc) as (_ & Hone & _).
    rewrite <- np_dot_spec, Hone. Lra.lra.
Qed.

Lemma l2_normalise_zero_iff (counts : list Z) :
  Forall2 (fun c x => c = 0%Z <-> x = 0%R) counts (l2_normalise counts).
Proof.
  unfold l2_normalise. cbv zeta.
  pose proof (np_norm_nonneg (map IZR counts)) as Hn.
  destruct (Req_dec_T (np_norm (map IZR counts)) 0) as [E | N].
  - clear. induction counts as [| c l IH]; cbn [map]; constructor.
    + split; [intros ->; reflexivity | apply eq_IZR_R0].
    + apply IH.
  - generalize dependent (np_norm (map IZR counts)). intros n Hn N.
    induction counts as [| c l IH]; cbn [map]; constructor; [| exact IH].
    split.
    + intros ->. unfold Rdiv. apply Rmult_0_l.
    + intros H. apply eq_IZR_R0.
      unfold Rdiv in H. apply Rmult_integral in H.
      destruct H as [H | H]; [exact H |].
      exfalso. apply (Rinv_neq_0_compat n N). exact H.
Qed.

Lemma spec_dot_zero_iff (a b : list R) :
  Forall (fun x => (0 <= x)%R) a -> Forall (fun x => (0 <= x)%R) b ->
  (spec_dot a b = 0%R <->
   Forall (fun ab => fst ab = 0%R \/ snd ab = 0%R) (combine a b)).
Proof.
  unfold spec_dot. intros Ha. revert b.
  induction Ha as [| x a Hx Ha IH]; intros b Hb.
  - cbn. split; [constructor | reflexivity].
  - destruct Hb as [| y b Hy Hb].
    + cbn. split; [constructor | reflexivity].
    + cbn [combine fold_right fst snd].
      pose proof (spec_dot_nonneg a b Ha Hb) as Hrest. unfold spec_dot in Hrest.
      pose proof (Rmult_le_pos x y Hx Hy) as Hxy.
      specialize (IH b Hb). split.
      * intros H. constructor.
        -- cbn [fst snd]. apply Rmult_integral. Lra.lra.
        -- apply IH. Lra.lra.
      * intros H. inversion H as [| ? ? Hhd Htl]; subst.
        apply IH in Htl. rewrite Htl. cbn [fst snd] in Hhd.
        destruct Hhd as [-> | ->]; Lra.lra.
Qed.

Lemma zero_products_transfer (ca cb : list Z) (ha hb : list R) :
  Forall2 (fun c x => c = 0%Z <-> x = 0%R) ca ha ->
  Forall2 (fun c x => c = 0%Z <-> x = 0%R) cb hb ->
  (Forall (fun ab => fst ab = 0%R \/ snd ab = 0%R) (combine ha hb) <->
   Forall (fun cd => fst cd = 0%Z \/ snd cd = 0%Z) (combine ca cb)).
Proof.
  intros Ha. revert cb hb.
  induction Ha as [| c x ca ha Hcx _ IH]; intros cb hb Hb.
  - cbn. split; constructor.
  - destruct Hb as [| d y cb hb Hdy Hb].
    + cbn. split; constructor.
    + cbn [combine]. specialize (IH cb hb Hb). split.
      * intros H. inversion H as [| ? ? Hhd Htl]; subst. cbn [fst snd] in Hhd.
        constructor; [cbn [fst snd]; intuition congruence | apply IH, Htl].
      * intros H. inversion H as [| ? ? Hhd Htl]; subst. cbn [fst snd] in Hhd.
        constructor; [cbn [fst snd]; intuition congruence | apply IH, Htl].
Qed.

Section Correlation.

Variable gaussian_blur : LumaField -> Z -> LumaField.
Variable open_image : string -> PixelBuffer.

Abbreviation counts_of p :=
  (np_histogram (image_blurred gaussian_blur (open_image p))).
Abbreviation hist_of p := (blurred_hist gaussian_blur open_image p).

Lemma hist_of_nonneg (p : string) :
  Forall (fun x => (0 <= x)%R) (hist_of p).
Proof.
  rewrite blurred_hist_unfold.
  apply l2_normalise_nonneg, np_histogram_nonneg.
Qed.

Lemma correlation_bounds (p q : string) :
  (0 <= spec_dot (hist_of p) (hist_of q) <= 1)%R.
Proof.
  split; [apply spec_dot_nonneg; apply hist_of_nonneg |].
  pose proof (spec_dot_mean_squares (hist_of p) (hist_of q)) as Hms.
  pose proof (l2_normalise_self (counts_of p)) as Hp.
  pose proof (l2_normalise_self (counts_of q)) as Hq.
  rewrite <- !blurred_hist_unfold in Hp, Hq. Lra.lra.
Qed.


(** X12: the correlation of two screenshots is 0 iff no bin of the
    histogram is occupied in both, and such a pair passes the test of
    Gate F. *)
Theorem correlation_zero_iff_disjoint (p q : string) :
  (correlation (hist_of p) (hist_of q) = 0%R <->
   Forall (fun cd => fst cd = 0%Z \/ snd cd = 0%Z)
     (combine (counts_of p) (counts_of q))) /\
  (correlation (hist_of p) (hist_of q) = 0%R ->
   Rle_bool (correlation (hist_of p) (hist_of q)) (Q2R GATE_F_CORRELATION_MAX)
   = true).
Proof.
  unfold correlation. rewrite !np_dot_spec. split.
  - rewrite (spec_dot_zero_iff _ _ (hist_of_nonneg p) (hist_of_nonneg q)).
    rewrite !blurred_hist_unfold.
    apply zero_products_transfer; apply l2_normalise_zero_iff.
  - intros ->. apply below_correlation_max.
Qed.

End Correlation.

(** ** Gate E: the range of the ratios *)

Lemma adjacent_pairs_length (frames : list PixelBuffer) :
  length (spec_adjacent_pairs frames) = (length frames - 1)%nat.
Proof.
  rewrite (adjacent_pairs_nth frames (solid_image 0 0 black)).
  rewrite length_map, length_seq. reflexivity.
Qed.

Lemma filter_length_le {A} (f : A -> bool) (l : list A) :
  (length (filter f l) <= length l)%nat.
Proof.
  induction l as [| a l IH]; cbn [filter length]; [lia |].
  destruct (f a); cbn [length]; lia.
Qed.

Lemma moving_ratio_range (roi : Roi) (pair : PixelBuffer * PixelBuffer) :
  0 <= spec_moving_ratio roi pair /\ spec_moving_ratio roi pair <= 1.
Proof.
  unfold spec_moving_ratio.
  destruct (flatten (roi_slice (spec_delta_field pair) roi)) as [| v l] eqn:E;
    [split; lra |].
  pose proof (filter_length_le (Qle_bool 2) (v :: l)) as Hle.
  set (k := length (filter (Qle_bool 2) (v :: l))) in *.
  set (n := length (v :: l)) in *.
  assert (0 < n)%nat as Hn by (subst n; cbn [length]; lia).
  assert (0 < inject_Z (Z.of_nat n)) as Hn'.
  { change 0 with (inject_Z 0). rewrite <- Zlt_Qlt. lia. }
  assert (0 <= inject_Z (Z.of_nat k)) as Hk.
  { change 0 with (inject_Z 0). rewrite <- Zle_Qle. lia. }
  assert (inject_Z (Z.of_nat k) <= inject_Z (Z.of_nat n)) as Hkn.
  { rewrite <- Zle_Qle. lia. }
  split.
  - apply Qle_shift_div_l; [exact Hn' | lra].
  - apply Qle_shift_div_r; [exact Hn' | lra].
Qed.

Lemma moving_ratios_range (roi : Roi) (frames : list PixelBuffer) :
  Forall (fun r => 0 <= r /\ r <= 1)
    (map (spec_moving_ratio roi) (spec_adjacent_pairs frames)).
Proof.
  apply Forall_map, Forall_forall. intros pair _. apply moving_ratio_range.
Qed.

Lemma spec_average_bounds (l : list Q) (lo hi : Q) :
  lo <= 0 -> 0 <= hi -> Forall (fun v => lo <= v /\ v <= hi) l ->
  lo <= spec_average l /\ spec_average l <= hi.
Proof.
  intros Hlo Hhi H. destruct l as [| v l]; [split; assumption |].
  change (spec_average (v :: l)) with (np_mean (v :: l)).
  apply np_mean_bounds; [discriminate | exact H].
Qed.

Lemma few_frames_no_pairs (frames : list PixelBuffer) :
  (length frames < 2)%nat -> spec_adjacent_pairs frames = [].
Proof.
  intros H. destruct frames as [| a [| b t]]; [reflexivity | reflexivity |].
  cbn [length] in H. lia.
Qed.

(** X13: on frames of one size Gate E never raises; it returns one ratio
    per adjacent pair of frames for each ROI, [len(frames) - 1] in all;
    every ratio and both averages lie in [[0, 1]]; on fewer than two
    frames there is no pair, both averages are 0 and both ROIs fail. *)
Theorem motion_ratios_range (frames : list PixelBuffer) (left right : Roi) :
  same_shape frames ->
  exists m,
    compute_motion_metrics frames left right = Ok m /\
    length (per_pair_left m) = (length frames - 1)%nat /\
    length (per_pair_right m) = (length frames - 1)%nat /\
    Forall (fun r => 0 <= r /\ r <= 1) (per_pair_left m) /\
    Forall (fun r => 0 <= r /\ r <= 1) (per_pair_right m) /\
    (0 <= avg_left m /\ avg_left m <= 1) /\
    (0 <= avg_right m /\ avg_right m <= 1) /\
    ((length frames < 2)%nat ->
       per_pair_left m = [] /\ per_pair_right m = [] /\
       avg_left m = 0 /\ avg_right m = 0 /\
       passed_left m = false /\ passed_right m = false).
Proof.
  intros Hshape. eexists.
  split; [apply (compute_motion_metrics_spec _ _ _ Hshape) |].
  cbn [per_pair_left per_pair_right avg_left avg_right passed_left
         passed_right].
  rewrite !length_map, adjacent_pairs_length.
  do 2 (split; [reflexivity |]).
  do 2 (split; [apply moving_ratios_range |]).
  split; [apply spec_average_bounds; [lra | lra | apply moving_ratios_range] |].
  split; [apply spec_average_bounds; [lra | lra | apply moving_ratios_range] |].
  intros Hfew. rewrite (few_frames_no_pairs frames Hfew). cbn [map spec_average].
  repeat split; reflexivity.
Qed.

(** ** Level numbers in file names *)

Lemma str_app_assoc (a b c : string) :
  ((a ++ b) ++ c)%string = (a ++ (b ++ c))%string.
Proof.
  induction a as [| x a IH]; cbn [append]; [reflexivity |].
  rewrite IH. reflexivity.
Qed.

Lemma str_app_nil_r (a : string) : (a ++ "")%string = a.
Proof.
  induction a as [| x a IH]; cbn [append]; [reflexivity |].
  rewrite IH. reflexivity.
Qed.

Lemma str_app_length (a b : string) :
  String.length (a ++ b) = (String.length a + String.length b)%nat.
Proof.
  induction a as [| x a IH]; cbn [append String.length]; [reflexivity |].
  rewrite IH. reflexivity.
Qed.

Lemma no_sep_app (a b : string) :
  no_sep (a ++ b) = no_sep a && no_sep b.
Proof.
  induction a as [| x a IH]; cbn [append no_sep]; [reflexivity |].
  rewrite IH, andb_assoc. reflexivity.
Qed.

Lemma basename_from_app (a b acc : string) :
  basename_from (a ++ b) acc = basename_from b (basename_from a acc).
Proof.
  revert acc. induction a as [| c a IH]; intros acc;
    cbn [append basename_from]; [reflexivity |].
  destruct (Ascii.eqb c "/"); apply IH.
Qed.

Lemma basename_from_no_sep (s acc : string) :
  no_sep s = true -> basename_from s acc = (acc ++ s)%string.
Proof.
  revert acc. induction s as [| c s IH]; intros acc H;
    cbn [basename_from no_sep] in *.
  - rewrite str_app_nil_r. reflexivity.
  - apply andb_prop in H. destruct H as [Hc Hs].
    destruct (Ascii.eqb c "/"); [discriminate |].
    rewrite (IH _ Hs), str_app_assoc. reflexivity.
Qed.

Lemma basename_from_keeps_no_sep (s acc : string) :
  no_sep acc = true -> no_sep (basename_from s acc) = true.
Proof.
  revert acc. induction s as [| c s IH]; intros acc H;
    cbn [basename_from]; [exact H |].
  destruct (Ascii.eqb c "/") eqn:E; [apply IH; reflexivity |].
  apply IH. rewrite no_sep_app, H. cbn [no_sep]. rewrite E. reflexivity.
Qed.

Lemma basename_no_sep (path : string) : no_sep (basename path) = true.
Proof. apply basename_from_keeps_no_sep. reflexivity. Qed.

Lemma basename_of_name (name : string) :
  no_sep name = true -> basename name = name.
Proof. intros H. unfold basename. rewrite (basename_from_no_sep _ _ H). reflexivity. Qed.

Lemma basename_in_dir (dir name : string) :
  no_sep name = true -> basename (dir ++ "/" ++ name) = name.
Proof.
  intros H. unfold basename. rewrite basename_from_app.
  change ("/" ++ name)%string with (String "/" name).
  cbn [basename_from]. change (Ascii.eqb "/" "/") with true. cbv iota.
  rewrite (basename_from_no_sep _ _ H). reflexivity.
Qed.

(** *** Decimal digits *)

Lemma zeros_length (k : nat) : String.length (zeros k) = k.
Proof. induction k as [| k IH]; cbn [zeros String.length]; congruence. Qed.

Lemma no_sep_zeros (k : nat) : no_sep (zeros k) = true.
Proof. induction k as [| k IH]; cbn [zeros no_sep]; [reflexivity | exact IH]. Qed.

Lemma no_sep_uint (d : Decimal.uint) :
  no_sep (NilEmpty.string_of_uint d) = true.
Proof.
  induction d; cbn [NilEmpty.string_of_uint no_sep]; try reflexivity;
    exact IHd.
Qed.

Lemma uint_of_zeros (k : nat) (s : string) :
  NilEmpty.uint_of_string (zeros k ++ s)
  = option_map (Nat.iter k Decimal.D0) (NilEmpty.uint_of_string s).
Proof.
  induction k as [| k IH].
  - cbn [zeros append Nat.iter]. destruct (NilEmpty.uint_of_string s);
      reflexivity.
  - cbn [zeros append NilEmpty.uint_of_string]. rewrite IH.
    destruct (NilEmpty.uint_of_string s); reflexivity.
Qed.

Lemma of_uint_zeros (k : nat) (d : Decimal.uint) :
  Z.of_uint (Nat.iter k Decimal.D0 d) = Z.of_uint d.
Proof.
  induction k as [| k IH]; [reflexivity |].
  rewrite <- IH. reflexivity.
Qed.

Lemma string_of_Z_nonneg (n : Z) :
  (0 <= n)%Z ->
  exists d,
    d <> Decimal.Nil /\
    string_of_Z n = NilEmpty.string_of_uint d /\ Z.of_uint d = n.
Proof.
  intros Hn. destruct n as [| p | p]; [| | lia].
  - exists (Decimal.D0 Decimal.Nil). repeat split. discriminate.
  - exists (Pos.to_uint p).
    pose proof (DecimalPos.Unsigned.to_uint_nonnil p) as Hnil.
    split; [exact Hnil |]. split.
    + unfold string_of_Z. cbn [Z.to_int NilZero.string_of_int].
      destruct (Pos.to_uint p); [contradiction | reflexivity ..].
    + unfold Z.of_uint. rewrite DecimalPos.Unsigned.of_to. reflexivity.
Qed.

Lemma uint_string_nonempty (d : Decimal.uint) :
  d <> Decimal.Nil ->
  exists c r, NilEmpty.string_of_uint d = String c r.
Proof.
  intros Hd. destruct d; try contradiction;
    cbn [NilEmpty.string_of_uint]; eauto.
Qed.

Lemma digits_nonempty (k : nat) (d : Decimal.uint) :
  d <> Decimal.Nil ->
  exists c r, (zeros k ++ NilEmpty.string_of_uint d)%string = String c r.
Proof.
  intros Hd. destruct k as [| k].
  - apply uint_string_nonempty, Hd.
  - cbn [zeros append]. eauto.
Qed.

Lemma int_of_padded (k : nat) (d : Decimal.uint) :
  d <> Decimal.Nil ->
  (k + String.length (NilEmpty.string_of_uint d) <= INT_MAX_STR_DIGITS)%nat ->
  int_of_digits (zeros k ++ NilEmpty.string_of_uint d) = Ok (Z.of_uint d).
Proof.
  intros Hd Hlen. unfold int_of_digits.
  rewrite str_app_length, zeros_length.
  rewrite (proj2 (Nat.ltb_ge _ _) Hlen).
  destruct (digits_nonempty k d Hd) as (c & r & E).
  assert (NilZero.uint_of_string (zeros k ++ NilEmpty.string_of_uint d)
          = NilEmpty.uint_of_string (zeros k ++ NilEmpty.string_of_uint d))
    as -> by (rewrite E; reflexivity).
  rewrite uint_of_zeros, NilEmpty.usu. cbn [option_map].
  rewrite of_uint_zeros. reflexivity.
Qed.

Lemma take_digits_zeros (k : nat) (s : string) :
  take_digits (zeros k ++ s) = (zeros k ++ take_digits s)%string.
Proof.
  induction k as [| k IH]; [reflexivity |].
  cbn [zeros append take_digits]. change (is_digit "0") with true.
  cbv iota. rewrite IH. reflexivity.
Qed.

Lemma take_digits_stop (suf : string) :
  starts_with_digit suf = false -> take_digits suf = EmptyString.
Proof.
  destruct suf as [| c r]; [reflexivity |].
  cbn [starts_with_digit take_digits]. intros ->. reflexivity.
Qed.

Lemma take_digits_uint (d : Decimal.uint) (suf : string) :
  starts_with_digit suf = false ->
  take_digits (NilEmpty.string_of_uint d ++ suf) = NilEmpty.string_of_uint d.
Proof.
  intros Hs.
  induction d; cbn [NilEmpty.string_of_uint append take_digits];
    [apply take_digits_stop, Hs | ..];
    match goal with
    | |- context [is_digit ?c] => change (is_digit c) with true
    end; cbv iota; rewrite IHd; reflexivity.
Qed.

Lemma of_uint_nonneg (d : Decimal.uint) : (0 <= Z.of_uint d)%Z.
Proof. unfold Z.of_uint. lia. Qed.

(** *** The pattern *)

Lemma lower_not_digit (c : ascii) :
  is_digit (ascii_lower c) = false -> is_digit c = false.
Proof.
  destruct c as [[] [] [] [] [] [] [] []]; vm_compute; intros H;
    first [exact H | reflexivity].
Qed.

Lemma lower_not_sep (c : ascii) :
  Ascii.eqb (ascii_lower c) "/" = false -> Ascii.eqb c "/" = false.
Proof.
  destruct c as [[] [] [] [] [] [] [] []]; vm_compute; intros H;
    first [exact H | reflexivity].
Qed.

Lemma matches_plain (a c : ascii) :
  Ascii.eqb a (ascii_lower c) = true ->
  is_digit a = false -> Ascii.eqb a "/" = false ->
  is_digit c = false /\ Ascii.eqb c "/" = false.
Proof.
  intros H Hd Hs. apply Ascii.eqb_eq in H. subst a.
  split; [apply lower_not_digit | apply lower_not_sep]; assumption.
Qed.

Lemma literal_shape (lit : string) :
  match_literal "level-" lit = Some EmptyString ->
  exists a1 a2 a3 a4 a5 a6,
    lit = String a1 (String a2 (String a3 (String a4 (String a5
            (String a6 EmptyString))))) /\
    (is_digit a1 = false /\ Ascii.eqb a1 "/" = false) /\
    (is_digit a2 = false /\ Ascii.eqb a2 "/" = false) /\
    (is_digit a3 = false /\ Ascii.eqb a3 "/" = false) /\
    (is_digit a4 = false /\ Ascii.eqb a4 "/" = false) /\
    (is_digit a5 = false /\ Ascii.eqb a5 "/" = false) /\
    (is_digit a6 = false /\ Ascii.eqb a6 "/" = false).
Proof.
  intros H.
  destruct lit as [| a1 lit]; cbn [match_literal] in H; [discriminate |].
  destruct (Ascii.eqb "l" (ascii_lower a1)) eqn:E1; [| discriminate].
  destruct lit as [| a2 lit]; cbn [match_literal] in H; [discriminate |].
  destruct (Ascii.eqb "e" (ascii_lower a2)) eqn:E2; [| discriminate].
  destruct lit as [| a3 lit]; cbn [match_literal] in H; [discriminate |].
  destruct (Ascii.eqb "v" (ascii_lower a3)) eqn:E3; [| discriminate].
  destruct lit as [| a4 lit]; cbn [match_literal] in H; [discriminate |].
  destruct (Ascii.eqb "e" (ascii_lower a4)) eqn:E4; [| discriminate].
  destruct lit as [| a5 lit]; cbn [match_literal] in H; [discriminate |].
  destruct (Ascii.eqb "l" (ascii_lower a5)) eqn:E5; [| discriminate].
  destruct lit as [| a6 lit]; cbn [match_literal] in H; [discriminate |].
  destruct (Ascii.eqb "-" (ascii_lower a6)) eqn:E6; [| discriminate].
  injection H as ->.
  exists a1, a2, a3, a4, a5, a6. split; [reflexivity |].
  repeat split;
    first [ apply (matches_plain _ _ E1) | apply (matches_plain _ _ E2)
          | apply (matches_plain _ _ E3) | apply (matches_plain _ _ E4)
          | apply (matches_plain _ _ E5) | apply (matches_plain _ _ E6) ];
    reflexivity.
Qed.

Lemma match_literal_app (l s r X : string) :
  match_literal l s = Some r ->
  match_literal l (s ++ X) = Some (r ++ X)%string.
Proof.
  revert s. induction l as [| a l IH]; intros s H; cbn [match_literal] in *.
  - injection H as ->. reflexivity.
  - destruct s as [| c s]; [discriminate |]. cbn [append].
    destruct (Ascii.eqb a (ascii_lower c)); [apply IH, H | discriminate].
Qed.

Lemma no_sep_literal (lit : string) :
  match_literal "level-" lit = Some EmptyString -> no_sep lit = true.
Proof.
  intros H.
  destruct (literal_shape lit H)
    as (a1 & a2 & a3 & a4 & a5 & a6 & -> & (_ & H1) & (_ & H2) & (_ & H3)
        & (_ & H4) & (_ & H5) & (_ & H6)).
  cbn [no_sep]. rewrite H1, H2, H3, H4, H5, H6. reflexivity.
Qed.

Lemma level_re_search_cons (c : ascii) (s : string) :
  level_re_search (String c s)
  = match level_re_match (String c s) with
    | Some digits => Some digits
    | None => level_re_search s
    end.
Proof. reflexivity. Qed.

Lemma level_re_search_hit (s digits : string) :
  level_re_match s = Some digits -> level_re_search s = Some digits.
Proof.
  intros H. destruct s as [| c s].
  - cbn [level_re_search]. rewrite H. reflexivity.
  - rewrite level_re_search_cons, H. reflexivity.
Qed.

Lemma no_match_extends (c : ascii) (p lit Y : string) :
  match_literal "level-" lit = Some EmptyString ->
  level_re_match (String c p) = None ->
  level_re_match (String c p ++ lit ++ Y) = None.
Proof.
  intros Hlit Hm.
  destruct (literal_shape lit Hlit)
    as (a1 & a2 & a3 & a4 & a5 & a6 & -> & (H1 & _) & (H2 & _) & (H3 & _)
        & (H4 & _) & (H5 & _) & (H6 & _)).
  unfold level_re_match in *.
  destruct p as [| c1 [| c2 [| c3 [| c4 [| c5 p]]]]];
    cbn [append match_literal] in *;
    repeat match goal with
           | |- context [if Ascii.eqb ?a ?b then _ else _] =>
               destruct (Ascii.eqb a b) eqn:?; [| reflexivity]
           end;
    cbn [take_digits];
    rewrite ?H1, ?H2, ?H3, ?H4, ?H5, ?H6; try reflexivity.
  repeat match goal with
         | E : ?b = true, H : context [if ?b then _ else _] |- _ =>
             rewrite E in H
         end.
  destruct p as [| c6 p]; cbn [append take_digits] in *.
  - rewrite H1. reflexivity.
  - destruct (is_digit c6); [discriminate Hm | reflexivity].
Qed.

Lemma search_skips_prefix (pre lit Y : string) :
  match_literal "level-" lit = Some EmptyString ->
  level_re_search pre = None ->
  level_re_search (pre ++ lit ++ Y) = level_re_search (lit ++ Y).
Proof.
  intros Hlit. induction pre as [| c p IH]; intros H; [reflexivity |].
  rewrite level_re_search_cons in H.
  destruct (level_re_match (String c p)) eqn:Hm; [discriminate |].
  pose proof (no_match_extends c p lit Y Hlit Hm) as Hext.
  change (String c p ++ lit ++ Y)%string with (String c (p ++ lit ++ Y))
    in Hext |- *.
  rewrite level_re_search_cons, Hext. apply IH, H.
Qed.

Lemma level_re_match_digits (lit digits suf : string) (c : ascii) (r : string) :
  match_literal "level-" lit = Some EmptyString ->
  take_digits (digits ++ suf) = digits -> digits = String c r ->
  level_re_match (lit ++ digits ++ suf) = Some digits.
Proof.
  intros Hlit Ht E. unfold level_re_match.
  rewrite (match_literal_app _ _ _ _ Hlit). cbn [append].
  rewrite Ht, E. reflexivity.
Qed.

Lemma int_of_digits_value (s : string) (n : Z) :
  int_of_digits s = Ok n -> (0 <= n)%Z.
Proof.
  unfold int_of_digits.
  destruct (INT_MAX_STR_DIGITS <? String.length s)%nat; [discriminate |].
  destruct (NilZero.uint_of_string s) as [d |]; [| discriminate].
  intros H. injection H as <-. apply of_uint_nonneg.
Qed.

Lemma int_of_digits_raises (s : string) (e : exn) :
  int_of_digits s = Raise e -> exists msg, e = ValueError msg.
Proof.
  unfold int_of_digits.
  destruct (INT_MAX_STR_DIGITS <? String.length s)%nat;
    [intros H; injection H as <-; eauto |].
  destruct (NilZero.uint_of_string s) as [d |]; [discriminate |].
  intros H. injection H as <-. eauto.
Qed.

Lemma parse_level_number_ok (path : string) :
  exists r, parse_level_number path = Ok r /\
            forall n, r = Some n -> (0 <= n)%Z.
Proof.
  unfold parse_level_number.
  destruct (level_re_search (basename path)) as [digits |];
    [| exists None; split; [reflexivity | discriminate]].
  destruct (int_of_digits digits) as [n | e] eqn:E.
  - exists (Some n). split; [reflexivity |].
    intros m H. injection H as <-. apply (int_of_digits_value _ _ E).
  - destruct (int_of_digits_raises _ _ E) as (msg & ->).
    exists None. split; [reflexivity | discriminate].
Qed.

(** X14: a file name that holds [level-] in any letter case, after a
    text that has no match of its own, followed by a decimal number with
    any leading zeros and by a text that does not go on with a digit,
    gives that number, in whatever directory the file lies. *)
Theorem parse_level_number_round_trip
    (dir pre lit suf : string) (k : nat) (n : Z) :
  no_sep pre = true -> no_sep suf = true ->
  level_re_search pre = None ->
  match_literal "level-" lit = Some EmptyString ->
  (0 <= n)%Z ->
  (k + String.length (string_of_Z n) <= INT_MAX_STR_DIGITS)%nat ->
  starts_with_digit suf = false ->
  parse_level_number
    (dir ++ "/" ++ pre ++ lit ++ zeros k ++ string_of_Z n ++ suf)
  = Ok (Some n).
Proof.
  intros Hpre Hsuf Hnone Hlit Hn Hlen Hstop.
  destruct (string_of_Z_nonneg n Hn) as (d & Hd & Hs & Hval).
  rewrite Hs in *.
  unfold parse_level_number.
  rewrite basename_in_dir.
  2:{ rewrite !no_sep_app, Hpre, Hsuf, (no_sep_literal lit Hlit),
        no_sep_zeros, no_sep_uint. reflexivity. }
  rewrite (search_skips_prefix _ _ _ Hlit Hnone).
  destruct (digits_nonempty k d Hd) as (c & r & E).
  rewrite <- (str_app_assoc (zeros k)).
  rewrite (level_re_search_hit _ (zeros k ++ NilEmpty.string_of_uint d)).
  - rewrite (int_of_padded k d Hd Hlen), Hval. reflexivity.
  - apply (level_re_match_digits _ _ _ c r Hlit); [| exact E].
    rewrite str_app_assoc, take_digits_zeros,
      (take_digits_uint d suf Hstop). reflexivity.
Qed.

(** X15: [parse_level_number] never raises, never gives a negative
    level, and reads the last component of the path only: the name of a
    directory gives no level to the files in it. *)
Theorem parse_level_number_basename (path : string) :
  parse_level_number path = parse_level_number (basename path) /\
  (exists r, parse_level_number path = Ok r /\
             forall n, r = Some n -> (0 <= n)%Z) /\
  (forall dir name,
     no_sep name = true ->
     parse_level_number (dir ++ "/" ++ name) = parse_level_number name) /\
  (level_re_search (basename path) = None ->
   parse_level_number path = Ok None).
Proof.
  split; [| split; [apply parse_level_number_ok | split]].
  - unfold parse_level_number.
    rewrite (basename_of_name (basename path) (basename_no_sep path)).
    reflexivity.
  - intros dir name H. unfold parse_level_number.
    rewrite (basename_in_dir dir name H), (basename_of_name name H).
    reflexivity.
  - intros H. unfold parse_level_number. rewrite H. reflexivity.
Qed.

(** ** The level screenshots of [main] *)

Lemma find_app {A} (f : A -> bool) (l1 l2 : list A) :
  find f (l1 ++ l2)
  = match find f l1 with Some x => Some x | None => find f l2 end.
Proof.
  induction l1 as [| a l1 IH]; cbn [app find]; [reflexivity |].
  destruct (f a); [reflexivity | exact IH].
Qed.

Lemma names_level_parse (lvl : Z) (path : string) :
  names_level lvl path = true <-> parse_level_number path = Ok (Some lvl).
Proof.
  unfold names_level.
  destruct (parse_level_number path) as [[n |] | e]; split; intros H;
    try discriminate.
  - apply Z.eqb_eq in H. subst n. reflexivity.
  - injection H as ->. apply Z.eqb_refl.
Qed.

Lemma level_paths_loop_spec (paths : list string) :
  forall d,
  exists d',
    level_paths_loop paths d = Ok d' /\
    forall lvl,
      dict_get d' lvl
      = match spec_level_path paths lvl with
        | Some p => Some p
        | None => dict_get d lvl
        end.
Proof.
  induction paths as [| path rest IH]; intros d.
  - exists d. split; reflexivity.
  - cbn [level_paths_loop].
    destruct (parse_level_number_ok path) as (r & Hr & _).
    rewrite Hr. cbn [bind]. destruct r as [n |].
    + destruct (IH (dict_set d n path)) as (d' & Hd' & Hget).
      exists d'. split; [exact Hd' |]. intros lvl. rewrite Hget.
      unfold spec_level_path. cbn [rev]. rewrite find_app.
      destruct (find (names_level lvl) (rev rest)); [reflexivity |].
      cbn [find dict_set dict_get]. unfold names_level. rewrite Hr.
      rewrite (Z.eqb_sym lvl n). destruct (n =? lvl)%Z; reflexivity.
    + destruct (IH d) as (d' & Hd' & Hget).
      exists d'. split; [exact Hd' |]. intros lvl. rewrite Hget.
      unfold spec_level_path. cbn [rev]. rewrite find_app.
      destruct (find (names_level lvl) (rev rest)); [reflexivity |].
      cbn [find]. unfold names_level. rewrite Hr. reflexivity.
Qed.

Lemma collect_level_paths_spec (paths : list string) :
  exists level_paths,
    collect_level_paths paths = Ok level_paths /\
    forall lvl, dict_get level_paths lvl = spec_level_path paths lvl.
Proof.
  destruct (level_paths_loop_spec paths []) as (d & Hd & Hget).
  exists d. split; [exact Hd |]. intros lvl. rewrite Hget.
  destruct (spec_level_path paths lvl); reflexivity.
Qed.

Lemma spec_level_path_some (paths : list string) (lvl : Z) (p : string) :
  spec_level_path paths lvl = Some p ->
  In p paths /\ parse_level_number p = Ok (Some lvl).
Proof.
  unfold spec_level_path. intros H. apply find_some in H.
  destruct H as [Hin Hn]. split; [apply in_rev, Hin |].
  apply names_level_parse, Hn.
Qed.

Lemma spec_level_path_none (paths : list string) (lvl : Z) :
  spec_level_path paths lvl = None <->
  forall p, In p paths -> parse_level_number p <> Ok (Some lvl).
Proof.
  unfold spec_level_path. split.
  - intros H p Hin Hp.
    pose proof (find_none _ _ H p (proj1 (in_rev _ _) Hin)) as Hf.
    apply names_level_parse in Hp. congruence.
  - intros H. destruct (find (names_level lvl) (rev paths)) as [p |] eqn:E;
      [| reflexivity].
    apply find_some in E. destruct E as [Hin Hn].
    exfalso. apply (H p); [apply in_rev, Hin | apply names_level_parse, Hn].
Qed.

(** X16: the loop of [main] over the sorted screenshots never raises;
    it maps each level to the last screenshot whose name gives that
    level, so a level has an entry iff some screenshot names it, and
    Gate F raises iff one of the levels 1, 10 and 20 is named by no
    screenshot. *)
Theorem level_paths_last_wins (paths : list string) :
  exists level_paths,
    collect_level_paths paths = Ok level_paths /\
    (forall lvl, dict_get level_paths lvl = spec_level_path paths lvl) /\
    (forall lvl p,
       dict_get level_paths lvl = Some p ->
       In p paths /\ parse_level_number p = Ok (Some lvl)) /\
    (forall lvl,
       dict_get level_paths lvl = None <->
       forall p, In p paths -> parse_level_number p <> Ok (Some lvl)) /\
    (forall gaussian_blur open_image,
       (exists e,
          gate_f_theme_separation gaussian_blur open_image level_paths
          = Raise e) <->
       (exists lvl,
          In lvl required_levels /\
          forall p, In p paths -> parse_level_number p <> Ok (Some lvl))).
Proof.
  destruct (collect_level_paths_spec paths) as (d & Hd & Hget).
  exists d. split; [exact Hd |]. split; [exact Hget |].
  split; [intros lvl p H; rewrite Hget in H;
          apply (spec_level_path_some _ _ _ H) |].
  split; [intros lvl; rewrite Hget; apply spec_level_path_none |].
  intros gaussian_blur open_image. split.
  - intros (e & He).
    destruct (spec_missing_levels d) as [| lvl rest] eqn:Hm.
    + destruct (missing_levels_none d Hm) as (p1 & p10 & p20 & H1 & H10 & H20).
      rewrite (gate_f_all_levels gaussian_blur open_image d p1 p10 p20
                 H1 H10 H20) in He. discriminate.
    + assert (In lvl (spec_missing_levels d)) as Hin
        by (rewrite Hm; left; reflexivity).
      apply missing_levels_in in Hin. destruct Hin as [Hreq Hnone].
      exists lvl. split; [exact Hreq |].
      apply spec_level_path_none. rewrite <- Hget. exact Hnone.
  - intros (lvl & Hreq & Hnone).
    assert (dict_get d lvl = None) as Hd'
      by (rewrite Hget; apply spec_level_path_none, Hnone).
    assert (spec_missing_levels d <> []) as Hne.
    { intros E.
      assert (In lvl (spec_missing_levels d)) as Hin
        by (apply missing_levels_in; split; assumption).
      rewrite E in Hin. contradiction. }
    eexists. apply (gate_f_missing gaussian_blur open_image d Hne).
Qed.

(** ** The motion directory *)

Section MotionDir.

Variable open_image : string -> PixelBuffer.
Variable isdir : string -> bool.
Variable sorted_glob : string -> list string.

Abbreviation usable := (usable_motion_dir isdir sorted_glob).
Abbreviation pick := (pick_motion_dir isdir sorted_glob).
Abbreviation frames_of := (motion_frames_of open_image isdir sorted_glob).

Lemma usable_holds_frames (d : string) :
  usable d = true ->
  d <> EmptyString /\ isdir d = true /\
  (3 <= length (load_motion_frames open_image sorted_glob d))%nat.
Proof.
  unfold usable_motion_dir, load_motion_frames. intros H.
  apply andb_prop in H. destruct H as [H H3].
  apply andb_prop in H. destruct H as [Hne Hdir].
  split; [| split; [exact Hdir |]].
  - intros ->. discriminate Hne.
  - rewrite length_map. apply Nat.leb_le, H3.
Qed.

Lemma pick_usable (base_dir : string) (preferred : option string)
    (d : string) :
  pick base_dir preferred = Some d ->
  In d (motion_candidates base_dir preferred) /\ usable d = true.
Proof. unfold pick_motion_dir. apply find_some. Qed.

Lemma frames_of_picked (base_dir : string) (preferred : option string)
    (d : string) :
  pick base_dir preferred = Some d ->
  exists frames,
    frames_of base_dir preferred = Some frames /\ (3 <= length frames)%nat.
Proof.
  intros H. unfold motion_frames_of. rewrite H.
  destruct (pick_usable _ _ _ H) as [_ Hu].
  destruct (usable_holds_frames d Hu) as (_ & _ & Hlen). eauto.
Qed.


End MotionDir.

(** ** The command line *)

Section CommandLine.

Variable gaussian_blur : LumaField -> Z -> LumaField.
Variable open_image : string -> PixelBuffer.
Variable format_real : nat -> R -> string.
Variable isdir : string -> bool.
Variable path_exists : string -> bool.
Variable sorted_glob : string -> list string.

Abbreviation run_main := (main gaussian_blur open_image format_real).
Abbreviation run :=
  (main_cli gaussian_blur open_image format_real isdir path_exists
     sorted_glob).
Abbreviation resolve := (resolve_inputs isdir path_exists sorted_glob).
Abbreviation images_in := (find_images_in_dir sorted_glob).

Lemma main_code (images : list string) (require_motion : bool)
    (motion_frames : option (list PixelBuffer)) (level_paths : dict) :
  run_main images require_motion motion_frames level_paths = 0%Z \/
  run_main images require_motion motion_frames level_paths = 1%Z.
Proof.
  unfold main. destruct images as [| path rest]; [right; reflexivity |].
  destruct (overall_verdict _ _ _ _ _ _ _) as [[|] | e];
    [left | right | right]; reflexivity.
Qed.

Lemma main_missing_level (images : list string) (require_motion : bool)
    (motion_frames : option (list PixelBuffer)) (level_paths : dict)
    (lvl : Z) :
  In lvl required_levels -> dict_get level_paths lvl = None ->
  run_main images require_motion motion_frames level_paths = 1%Z.
Proof.
  intros Hreq Hnone.
  assert (In lvl (spec_missing_levels level_paths)) as Hin
    by (apply missing_levels_in; split; assumption).
  assert (spec_missing_levels level_paths <> []) as Hne
    by (intros E; rewrite E in Hin; contradiction).
  pose proof (gate_f_missing gaussian_blur open_image level_paths Hne)
    as Hraise.
  destruct (motion_block require_motion motion_frames)
    as [[mm lines] | e] eqn:Hm.
  - destruct (overall_verdict_ok gaussian_blur open_image format_real images
                require_motion motion_frames level_paths mm lines Hm)
      as (gf & gd & irs & Hf & HF & Hv).
    unfold gate_f_block in Hf. rewrite Hraise in Hf. injection Hf as <- _.
    unfold main. destruct images as [| path rest]; [reflexivity |].
    rewrite Hv.
    destruct (require_motion
              && match mm with None => true | Some _ => false end);
      [reflexivity |].
    destruct irs as [| rs irs']; [inversion HF |].
    cbn [forallb]. rewrite andb_false_r. reflexivity.
  - apply (main_raise gaussian_blur open_image format_real _ _ _ _ e).
    apply overall_verdict_raise, Hm.
Qed.

Lemma main_motion_missing (images : list string)
    (motion_frames : option (list PixelBuffer)) (level_paths : dict) :
  motion_unavailable motion_frames ->
  run_main images true motion_frames level_paths = 1%Z.
Proof.
  intros Hun.
  destruct (motion_block_unavailable motion_frames Hun)
    as (line & lines & Hblock).
  destruct (overall_verdict_ok gaussian_blur open_image format_real images
              true motion_frames level_paths None (line :: lines) Hblock)
    as (gf & gd & irs & _ & _ & Hv).
  cbn [andb] in Hv. unfold main. rewrite Hv. destruct images; reflexivity.
Qed.

Lemma resolve_inputs_cases (args : Args) (images : list string)
    (base_dir : string) :
  resolve args = inl (images, base_dir) ->
  images <> [] /\
  (truthy (args_image args) = true /\ truthy (args_dir args) = false /\
   path_exists (str_of_option (args_image args)) = true /\
   images = [str_of_option (args_image args)] /\
   base_dir = dirname (str_of_option (args_image args))
   \/
   truthy (args_image args) = false /\ truthy (args_dir args) = true /\
   isdir (str_of_option (args_dir args)) = true /\
   images = images_in (str_of_option (args_dir args)) /\
   base_dir = str_of_option (args_dir args)).
Proof.
  unfold resolve_inputs.
  destruct (truthy (args_image args)), (truthy (args_dir args));
    cbn [negb andb orb]; try discriminate.
  - destruct (path_exists (str_of_option (args_image args)));
      cbn [negb]; [| discriminate].
    intros H. injection H as <- <-.
    split; [discriminate | left; repeat split].
  - destruct (isdir (str_of_option (args_dir args)));
      cbn [negb]; [| discriminate].
    destruct (images_in (str_of_option (args_dir args))) as [| p l] eqn:E;
      [discriminate |].
    intros H. injection H as <- <-.
    split; [discriminate | right; repeat split; symmetry; exact E].
Qed.

Lemma main_cli_resolved (args : Args) (images : list string)
    (base_dir : string) :
  resolve args = inl (images, base_dir) ->
  exists level_paths,
    collect_level_paths (images_in base_dir) = Ok level_paths /\
    (forall lvl,
       dict_get level_paths lvl = spec_level_path (images_in base_dir) lvl) /\
    run args
    = run_main images (args_require_motion args)
        (motion_frames_of open_image isdir sorted_glob base_dir
           (args_motion_dir args))
        level_paths.
Proof.
  intros H.
  destruct (collect_level_paths_spec (images_in base_dir))
    as (d & Hd & Hget).
  exists d. split; [exact Hd |]. split; [exact Hget |].
  unfold main_cli. rewrite H, Hd. reflexivity.
Qed.

(** X18: the exit code of [main] is 0 or 1.  It is 1 when neither or
    both of [--image] and [--dir] are given, when the image does not
    exist, when the directory is no directory or holds no PNG file; and,
    once the inputs are resolved, when one of the levels 1, 10 and 20 is
    named by no PNG file of the base directory -- the directory of the
    image in the [--image] mode -- or when motion is required and
    [pick_motion_dir] finds no directory. *)
Theorem main_cli_exit_codes (args : Args) :
  (run args = 0%Z \/ run args = 1%Z) /\
  (truthy (args_image args) = false -> truthy (args_dir args) = false ->
   run args = 1%Z) /\
  (truthy (args_image args) = true -> truthy (args_dir args) = true ->
   run args = 1%Z) /\
  (truthy (args_image args) = true ->
   path_exists (str_of_option (args_image args)) = false ->
   run args = 1%Z) /\
  (truthy (args_image args) = false ->
   isdir (str_of_option (args_dir args)) = false ->
   run args = 1%Z) /\
  (truthy (args_image args) = false ->
   images_in (str_of_option (args_dir args)) = [] ->
   run args = 1%Z) /\
  (forall images base_dir,
     resolve args = inl (images, base_dir) ->
     (truthy (args_image args) = true /\
      images = [str_of_option (args_image args)] /\
      base_dir = dirname (str_of_option (args_image args))
      \/
      truthy (args_image args) = false /\
      images = images_in (str_of_option (args_dir args)) /\
      base_dir = str_of_option (args_dir args)) /\
     (forall lvl,
        In lvl required_levels ->
        (forall p, In p (images_in base_dir) ->
                   parse_level_number p <> Ok (Some lvl)) ->
        run args = 1%Z) /\
     (args_require_motion args = true ->
      pick_motion_dir isdir sorted_glob base_dir (args_motion_dir args)
        = None ->
      run args = 1%Z)).
Proof.
  split; [| split; [| split; [| split; [| split; [| split]]]]].
  - unfold main_cli. destruct (resolve args) as [[images base_dir] | msg];
      [| right; reflexivity].
    destruct (collect_level_paths (images_in base_dir));
      [apply main_code | right; reflexivity].
  - intros Hi Hd. unfold main_cli, resolve_inputs. rewrite Hi, Hd.
    reflexivity.
  - intros Hi Hd. unfold main_cli, resolve_inputs. rewrite Hi, Hd.
    reflexivity.
  - intros Hi He. unfold main_cli, resolve_inputs. rewrite Hi, He.
    destruct (truthy (args_dir args)); reflexivity.
  - intros Hi Hd. unfold main_cli, resolve_inputs. rewrite Hi, Hd.
    destruct (truthy (args_dir args)); reflexivity.
  - intros Hi Hn. unfold main_cli, resolve_inputs. rewrite Hi, Hn.
    destruct (truthy (args_dir args)); cbn [negb andb orb];
      [| reflexivity].
    destruct (isdir (str_of_option (args_dir args))); reflexivity.
  - intros images base_dir H.
    destruct (resolve_inputs_cases args images base_dir H)
      as (_ & [(Hi & _ & _ & Him & Hb) | (Hi & _ & _ & Him & Hb)]);
      (split; [first [left; repeat split; assumption
                     | right; repeat split; assumption] |]);
      destruct (main_cli_resolved args images base_dir H)
        as (d & _ & Hget & ->);
      (split;
       [ intros lvl Hreq Hnone;
         apply (main_missing_level _ _ _ _ lvl Hreq);
         rewrite Hget; apply spec_level_path_none, Hnone
       | intros -> Hpick; apply main_motion_missing;
         unfold motion_frames_of; rewrite Hpick; exact I ]).
Qed.

End CommandLine.

(** ** Gate C: the range of the density *)

Lemma star_count_range (luma : LumaField) (roi : Roi) :
  roi_inside roi luma ->
  (0 <= spec_star_count luma roi <= roi_area roi)%Z.
Proof.
  intros Hin. unfold spec_star_count.
  pose proof (filter_length_le (fun v => Qle_bool 200 v)
                (flatten (roi_slice luma roi))) as Hle.
  rewrite flatten_length, (roi_slice_size luma roi Hin) in Hle.
  assert (0 <= roi_area roi)%Z
    by (unfold roi_area, roi_width, roi_height; nia).
  lia.
Qed.

Lemma star_count_all (luma : LumaField) (roi : Roi) (v : Q) :
  roi_inside roi luma -> uniform_on roi luma v -> 200 <= v ->
  spec_star_count luma roi = roi_area roi.
Proof.
  intros Hin Hu Hv. unfold spec_star_count.
  rewrite filter_all.
  - rewrite flatten_length, (roi_slice_size luma roi Hin).
    assert (0 <= roi_area roi)%Z
      by (unfold roi_area, roi_width, roi_height; nia).
    lia.
  - apply roi_slice_Forall; [exact Hin |]. intros y x Hroi.
    apply Qle_bool_iff. pose proof (Hu y x Hroi) as E. rewrite E. exact Hv.
Qed.

Lemma star_count_none (luma : LumaField) (roi : Roi) (v : Q) :
  roi_inside roi luma -> uniform_on roi luma v -> v < 200 ->
  spec_star_count luma roi = 0%Z.
Proof.
  intros Hin Hu Hv. unfold spec_star_count.
  rewrite filter_none; [reflexivity |].
  apply roi_slice_Forall; [exact Hin |]. intros y x Hroi.
  destruct (Qle_bool 200 (at_ luma y x)) eqn:E; [| reflexivity].
  apply Qle_bool_iff in E. pose proof (Hu y x Hroi) as E'.
  rewrite E' in E. lra.
Qed.

Lemma density_threshold (c a : Z) :
  (0 < a)%Z ->
  (0.0005 <= inject_Z c / inject_Z a <-> (a <= 2000 * c)%Z).
Proof.
  intros Ha.
  assert (0 < inject_Z a) as Ha'
    by (change 0 with (inject_Z 0); rewrite <- Zlt_Qlt; exact Ha).
  assert (inject_Z c / inject_Z a * inject_Z a == inject_Z c) as Hmul
    by (field; lra).
  rewrite (Zle_Qle a (2000 * c)), inject_Z_mult.
  change (inject_Z 2000) with 2000.
  split.
  - intros H.
    assert (0.0005 * inject_Z a <= inject_Z c / inject_Z a * inject_Z a)
      as Hm by (apply Qmult_le_compat_r; lra).
    rewrite Hmul in Hm. lra.
  - intros H. apply Qle_shift_div_l; [exact Ha' | lra].
Qed.

(** X19: on a ROI of nonzero area inside the field the star density of
    Gate C lies in [[0, 1]], and the ROI passes iff at least one pixel in
    2000 is a star ([area <= 2000 * stars]); a ROI whose pixels all hold
    one value has the density 1 and passes if the value is at least 200,
    and has the density 0 and fails otherwise. *)
Theorem gate_c_density_range (luma : LumaField) (roi : Roi) :
  roi_inside roi luma -> (0 < roi_area roi)%Z ->
  exists density roi_passed,
    gate_c_star_density luma roi = Ok (density, roi_passed) /\
    (0 <= density /\ density <= 1) /\
    (0 <= spec_star_count luma roi <= roi_area roi)%Z /\
    (roi_passed = true <->
     (roi_area roi <= 2000 * spec_star_count luma roi)%Z) /\
    (forall v, uniform_on roi luma v -> 200 <= v ->
               density == 1 /\ roi_passed = true) /\
    (forall v, uniform_on roi luma v -> v < 200 ->
               density == 0 /\ roi_passed = false).
Proof.
  intros Hin Hpos.
  pose proof (star_count_range luma roi Hin) as Hrange.
  pose proof (density_threshold (spec_star_count luma roi) (roi_area roi)
                Hpos) as Hthr.
  assert (0 < inject_Z (roi_area roi)) as Ha
    by (change 0 with (inject_Z 0); rewrite <- Zlt_Qlt; exact Hpos).
  assert (roi_area roi <= 2000 * roi_area roi)%Z as Hall by lia.
  exists (spec_star_density luma roi),
    (Qge_bool (spec_star_density luma roi) GATE_C_STAR_DENSITY_MIN).
  split; [apply gate_c_density; assumption |].
  split; [| split; [exact Hrange | split; [| split]]].
  - unfold spec_star_density. split.
    + apply Qle_shift_div_l; [exact Ha |].
      assert (0 <= inject_Z (spec_star_count luma roi))
        by (change 0 with (inject_Z 0); rewrite <- Zle_Qle; lia).
      lra.
    + apply Qle_shift_div_r; [exact Ha |].
      assert (inject_Z (spec_star_count luma roi) <= inject_Z (roi_area roi))
        by (rewrite <- Zle_Qle; lia).
      lra.
  - rewrite <- Hthr. apply Qge_bool_iff.
  - intros v Hu Hv.
    pose proof (star_count_all luma roi v Hin Hu Hv) as Hc.
    split.
    + unfold spec_star_density. rewrite Hc. field. lra.
    + apply Qge_bool_iff. unfold GATE_C_STAR_DENSITY_MIN.
      apply Hthr. rewrite Hc. exact Hall.
  - intros v Hu Hv.
    pose proof (star_count_none luma roi v Hin Hu Hv) as Hc.
    split.
    + unfold spec_star_density. rewrite Hc. unfold Qdiv.
      change (inject_Z 0) with 0. ring.
    + destruct (Qge_bool (spec_star_density luma roi)
                  GATE_C_STAR_DENSITY_MIN) eqn:E; [| reflexivity].
      apply Qge_bool_iff in E. unfold GATE_C_STAR_DENSITY_MIN in E.
      apply Hthr in E. rewrite Hc in E. lia.
Qed.

(** ** The further properties at concrete inputs *)

Lemma ramp_roi_inside : roi_inside ramp_roi ramp_field.
Proof. unfold roi_inside, roi_in_bounds; cbn; lia. Qed.


(** Gate A on the 10 by 10 ROI of the ramp field. *)
Lemma gate_a_contrast_range_witness :
  roi_inside ramp_roi ramp_field /\ (0 < roi_area ramp_roi)%Z /\
  exists p05 p50 p95 contrast roi_passed,
    gate_a_cloud_visibility ramp_field ramp_roi
      = Ok (p05, p50, p95, contrast, roi_passed) /\
    p05 <= p50 /\ p50 <= p95 /\ 0 <= contrast /\ contrast <= p95 - p05.
Proof.
  assert (0 < roi_area ramp_roi)%Z as Hpos by reflexivity.
  split; [exact ramp_roi_inside | split; [exact Hpos |]].
  destruct (gate_a_contrast_range ramp_field ramp_roi ramp_roi_inside Hpos)
    as (p05 & p50 & p95 & c & b & Hg & H1 & H2 & H3 & H4 & _).
  exists p05, p50, p95, c, b.
  split; [exact Hg |]. split; [exact H1 |]. split; [exact H2 |].
  split; [exact H3 | exact H4].
Defined.


(** The gates on the ramp and on the ramp of another shape. *)
Lemma gates_read_roi_only_witness :
  roi_inside ramp_roi ramp_field /\ roi_inside ramp_roi ramp_wide /\
  agree_on ramp_roi ramp_field ramp_wide /\
  gate_a_cloud_visibility ramp_field ramp_roi
    = gate_a_cloud_visibility ramp_wide ramp_roi /\
  gate_b_transition_count ramp_field ramp_roi
    = gate_b_transition_count ramp_wide ramp_roi.
Proof.
  assert (roi_inside ramp_roi ramp_wide) as Hwide
    by (unfold roi_inside, roi_in_bounds; cbn; lia).
  assert (agree_on ramp_roi ramp_field ramp_wide) as Hag
    by (intros y x _; reflexivity).
  split; [exact ramp_roi_inside | split; [exact Hwide | split; [exact Hag |]]].
  destruct (gates_read_roi_only ramp_field ramp_wide ramp_roi
              ramp_roi_inside Hwide Hag) as (Ha & Hb & _).
  split; assumption.
Defined.


(** The ROIs of a 400 by 200 image. *)
Lemma get_rois_mirror_witness :
  (0 <= 400)%Z /\ (0 <= 200)%Z /\
  roi_width (fst (get_rois 400 200)) = roi_width (snd (get_rois 400 200)) /\
  roi_area (fst (get_rois 400 200)) = roi_area (snd (get_rois 400 200)) /\
  (x1 (fst (get_rois 400 200)) <= x0 (snd (get_rois 400 200)))%Z.
Proof.
  assert (0 <= 400)%Z as Hw by lia. assert (0 <= 200)%Z as Hh by lia.
  split; [exact Hw | split; [exact Hh |]].
  destruct (get_rois_mirror 400 200 Hw Hh)
    as (_ & _ & _ & _ & _ & Hwd & _ & Har & Hno).
  split; [exact Hwd | split; [exact Har | exact Hno]].
Defined.

(** A 67 by 16 image is large enough for Gate B. *)
Lemma get_rois_sizes_witness :
  (0 <= 67)%Z /\ (0 <= 16)%Z /\
  (0 < roi_area (fst (get_rois 67 16)))%Z /\
  (inset_left (snd (get_rois 67 16)) < inset_right (snd (get_rois 67 16)))%Z.
Proof.
  assert (0 <= 67)%Z as Hw by lia. assert (0 <= 16)%Z as Hh by lia.
  split; [exact Hw | split; [exact Hh |]].
  destruct (get_rois_sizes 67 16 Hw Hh) as (Hl & _ & _ & Hir).
  split; [apply Hl; lia | apply Hir; lia].
Defined.

(** The 4 by 4 screenshot fails Gates A to D. *)
Lemma small_images_fail_witness :
  (ncols (example_files "tiny.png") < 5)%nat /\
  exists results,
    tiny_results = Ok results /\
    firstn 4 (map passed results) = [false; false; false; false].
Proof.
  assert (ncols (example_files "tiny.png") < 5)%nat as Hsmall by (cbn; lia).
  split; [exact Hsmall |].
  destruct (small_images_fail id_blur example_files "tiny.png" false None)
    as (results & Hv & Hfail & _).
  exists results. split; [exact Hv |].
  apply Hfail. left. exact Hsmall.
Defined.

(** Gate E on two grey frames: one pair, one ratio per ROI. *)
Lemma motion_ratios_range_witness :
  same_shape [grey_100; grey_150] /\
  exists m,
    compute_motion_metrics [grey_100; grey_150] motion_left motion_right
      = Ok m /\
    length (per_pair_left m) = 1%nat /\
    (0 <= avg_left m /\ avg_left m <= 1).
Proof.
  assert (same_shape [grey_100; grey_150]) as Hshape.
  { intros fa fb [<- | [<- | []]] [<- | [<- | []]]; split; reflexivity. }
  split; [exact Hshape |].
  destruct (motion_ratios_range [grey_100; grey_150] motion_left motion_right
              Hshape)
    as (m & Hm & Hl & _ & _ & _ & Ha & _).
  exists m. split; [exact Hm | split; [exact Hl | exact Ha]].
Defined.

(** The screenshot of level 1 under the name the capture gives it. *)
Lemma parse_level_number_round_trip_witness :
  no_sep "screenshot-03-" = true /\
  level_re_search "screenshot-03-" = None /\
  match_literal "level-" "level-" = Some EmptyString /\
  parse_level_number "shots/screenshot-03-level-01.png" = Ok (Some 1%Z).
Proof.
  assert (no_sep "screenshot-03-" = true) as Hpre by reflexivity.
  assert (no_sep ".png" = true) as Hsuf by reflexivity.
  assert (level_re_search "screenshot-03-" = None) as Hnone by reflexivity.
  assert (match_literal "level-" "level-" = Some EmptyString) as Hlit
    by reflexivity.
  assert (0 <= 1)%Z as Hn by lia.
  assert (1 + String.length (string_of_Z 1) <= INT_MAX_STR_DIGITS)%nat
    as Hlen by (apply Nat.leb_le; vm_compute; reflexivity).
  assert (starts_with_digit ".png" = false) as Hstop by reflexivity.
  split; [exact Hpre |]. split; [exact Hnone |]. split; [exact Hlit |].
  exact (parse_level_number_round_trip "shots" "screenshot-03-" "level-"
           ".png" 1 1 Hpre Hsuf Hnone Hlit Hn Hlen Hstop).
Defined.

(** Gate C on a ROI of 1000 pixels with one star. *)
Lemma gate_c_density_range_witness :
  roi_inside star_roi star_field /\ (0 < roi_area star_roi)%Z /\
  exists density roi_passed,
    gate_c_star_density star_field star_roi = Ok (density, roi_passed) /\
    (0 <= density /\ density <= 1) /\
    roi_passed = true.
Proof.
  assert (roi_inside star_roi star_field) as Hin
    by (unfold roi_inside, roi_in_bounds; cbn; lia).
  assert (0 < roi_area star_roi)%Z as Hpos by reflexivity.
  split; [exact Hin | split; [exact Hpos |]].
  destruct (gate_c_density_range star_field star_roi Hin Hpos)
    as (density & roi_passed & Hg & Hr & _ & Hp & _).
  exists density, roi_passed.
  split; [exact Hg | split; [exact Hr |]].
  apply Hp. vm_compute. discriminate.
Defined.

(** ** Gate A against the percentile of the specification *)

Lemma map_seq_add (s n : nat) :
  map (fun i => (s + i)%nat) (seq 0 n) = seq s n.
Proof.
  revert s. induction n as [| n IH]; intros s; [reflexivity |].
  cbn [seq map]. rewrite Nat.add_0_r. f_equal.
  rewrite <- seq_shift, map_map, <- (IH (S s)).
  apply map_ext. intros i. lia.
Qed.

Lemma flat_map_map {A B C} (f : B -> list C) (g : A -> B) (l : list A) :
  flat_map f (map g l) = flat_map (fun a => f (g a)) l.
Proof.
  induction l as [| a l IH]; cbn [map flat_map]; [reflexivity |].
  rewrite IH. reflexivity.
Qed.

(** The flattened slice of a ROI lists the values of the field at the
    coordinates of the ROI, row by row. *)
Lemma roi_slice_values (field : LumaField) (roi : Roi) :
  roi_inside roi field ->
  flatten (roi_slice field roi) = spec_roi_values field roi.
Proof.
  unfold roi_inside, roi_in_bounds. intros (Hx & Hxw & Hy & Hyh).
  unfold spec_roi_values, flatten, roi_slice, slice2. cbn [nrows ncols at_].
  rewrite !slice_bound_inside by lia.
  rewrite <- !Z2Nat.inj_sub by lia.
  rewrite <- (map_seq_add (Z.to_nat (y0 roi))), flat_map_map.
  rewrite !flat_map_concat_map. f_equal.
  apply map_ext. intros y.
  rewrite <- (map_seq_add (Z.to_nat (x0 roi))), map_map. reflexivity.
Qed.

Lemma insert_sorted_perm (v : Q) (l : list Q) :
  Permutation.Permutation (v :: l) (insert_sorted v l).
Proof.
  induction l as [| h t IH]; cbn [insert_sorted]; [apply Permutation.Permutation_refl |].
  destruct (Qle_bool v h); [apply Permutation.Permutation_refl |].
  eapply Permutation.perm_trans; [apply Permutation.perm_swap |].
  apply Permutation.perm_skip, IH.
Qed.

Lemma sort_perm (l : list Q) : Permutation.Permutation l (sort l).
Proof.
  induction l as [| h t IH]; [apply Permutation.perm_nil |].
  change (sort (h :: t)) with (insert_sorted h (sort t)).
  eapply Permutation.perm_trans; [| apply insert_sorted_perm].
  apply Permutation.perm_skip, IH.
Qed.

(** The interpolation of [np.percentile] is the interpolation between
    the two neighbours of the rank. *)
Lemma lerp_at_rank (s : list Q) (q : Q) :
  0 <= q -> q <= 100 ->
  let rank := inject_Z (Z.of_nat (length s - 1)) * q / 100 in
  let lo := Z.to_nat (Qfloor rank) in
  lerp_at s q
  = nth lo s 0
    + (nth (S lo) s (nth lo s 0) - nth lo s 0) * (rank - inject_Z (Qfloor rank)).
Proof.
  intros H0 H100. cbv zeta. unfold lerp_at. cbv zeta.
  destruct (lerp_index (length s) q H0 H100) as ((Hlo0 & Hlo1) & _).
  set (virt := inject_Z (Z.of_nat (length s - 1)) * q / 100) in *.
  set (lo := Z.to_nat (Qfloor virt)).
  assert (lo <= length s - 1)%nat as Hlo by (unfold lo; lia).
  f_equal. f_equal. f_equal.
  destruct (Nat.lt_ge_cases (S lo) (length s)) as [Hin | Hout].
  - replace (Nat.min (lo + 1) (length s - 1)) with (S lo) by lia.
    apply nth_indep. exact Hin.
  - replace (Nat.min (lo + 1) (length s - 1)) with lo by lia.
    rewrite (nth_overflow s (nth lo s 0)) by exact Hout. reflexivity.
Qed.

Lemma sort_is_percentile (values : list Q) (q : Q) :
  0 <= q -> q <= 100 -> is_percentile values q (lerp_at (sort values) q).
Proof.
  intros H0 H100. exists (sort values).
  split; [apply sort_perm |]. split; [apply sort_sorted |].
  cbv zeta. rewrite (lerp_at_rank (sort values) q H0 H100). reflexivity.
Qed.

(** *** The percentile is determined by the values *)

Lemma filter_length_perm {A} (f : A -> bool) (l l' : list A) :
  Permutation.Permutation l l' -> length (filter f l) = length (filter f l').
Proof.
  induction 1 as [| x l l' _ IH | x y l | l l' l'' _ IH1 _ IH2].
  - reflexivity.
  - cbn [filter]. destruct (f x); cbn [length]; rewrite IH; reflexivity.
  - cbn [filter]. destruct (f x), (f y); reflexivity.
  - rewrite IH1. exact IH2.
Qed.

Lemma sorted_count_upto (s : list Q) :
  Sorted.StronglySorted Qle s ->
  forall k v, (k < length s)%nat -> nth k s 0 <= v ->
    (S k <= length (filter (fun x => Qle_bool x v) s))%nat.
Proof.
  induction 1 as [| a t Hs IH Ha]; intros k v Hk Hv; [cbn in Hk; lia |].
  assert (a <= v) as Hav.
  { destruct k as [| k']; [exact Hv |].
    cbn [nth length] in Hv, Hk.
    apply Qle_trans with (nth k' t 0); [| exact Hv].
    apply (proj1 (Forall_forall _ _) Ha), nth_In. lia. }
  cbn [filter]. rewrite (proj2 (Qle_bool_iff a v) Hav). cbn [length].
  destruct k as [| k']; [lia |].
  cbn [nth length] in Hv, Hk.
  pose proof (IH k' v ltac:(lia) Hv). lia.
Qed.

Lemma sorted_count_below (s : list Q) :
  Sorted.StronglySorted Qle s ->
  forall k v, (k < length s)%nat -> v < nth k s 0 ->
    (length (filter (fun x => Qle_bool x v) s) <= k)%nat.
Proof.
  induction 1 as [| a t Hs IH Ha]; intros k v Hk Hv; [cbn in Hk; lia |].
  destruct k as [| k'].
  - cbn [nth] in Hv.
    assert (filter (fun x => Qle_bool x v) (a :: t) = []) as ->; [| cbn; lia].
    apply filter_none. constructor.
    + destruct (Qle_bool a v) eqn:E; [| reflexivity].
      apply Qle_bool_iff in E. lra.
    + apply Forall_forall. intros x Hx.
      pose proof (proj1 (Forall_forall _ _) Ha x Hx) as Hax.
      destruct (Qle_bool x v) eqn:E; [| reflexivity].
      apply Qle_bool_iff in E. lra.
  - cbn [nth length] in Hv, Hk.
    pose proof (IH k' v ltac:(lia) Hv) as Hle.
    cbn [filter]. destruct (Qle_bool a v); cbn [length]; lia.
Qed.

Lemma sorted_perm_nth_le (s s' : list Q) (k : nat) :
  Sorted.StronglySorted Qle s -> Sorted.StronglySorted Qle s' ->
  Permutation.Permutation s s' -> (k < length s)%nat ->
  nth k s 0 <= nth k s' 0.
Proof.
  intros Hs Hs' Hp Hk.
  destruct (Qlt_le_dec (nth k s' 0) (nth k s 0)) as [Hlt | Hle]; [| exact Hle].
  exfalso.
  assert (k < length s')%nat as Hk'
    by (rewrite <- (Permutation.Permutation_length Hp); exact Hk).
  pose proof (sorted_count_upto s' Hs' k (nth k s' 0) Hk' (Qle_refl _)) as H1.
  pose proof (sorted_count_below s Hs k (nth k s' 0) Hk Hlt) as H2.
  rewrite (filter_length_perm _ _ _ Hp) in H2. lia.
Qed.

Lemma sorted_perm_nth (s s' : list Q) (k : nat) :
  Sorted.StronglySorted Qle s -> Sorted.StronglySorted Qle s' ->
  Permutation.Permutation s s' ->
  nth k s 0 == nth k s' 0.
Proof.
  intros Hs Hs' Hp.
  pose proof (Permutation.Permutation_length Hp) as Hlen.
  destruct (Nat.lt_ge_cases k (length s)) as [Hk | Hk].
  - apply Qle_antisym.
    + apply sorted_perm_nth_le; assumption.
    + apply sorted_perm_nth_le;
        [assumption | assumption | apply Permutation.Permutation_sym, Hp | lia].
  - rewrite !nth_overflow by lia. reflexivity.
Qed.

Lemma is_percentile_unique (values : list Q) (q p p' : Q) :
  is_percentile values q p -> is_percentile values q p' -> p == p'.
Proof.
  intros (s & Hp & Hs & He) (s' & Hp' & Hs' & He'). cbv zeta in He, He'.
  assert (Permutation.Permutation s s') as Hss
    by (eapply Permutation.perm_trans;
        [apply Permutation.Permutation_sym, Hp | exact Hp']).
  pose proof (Permutation.Permutation_length Hss) as Hlen.
  rewrite <- Hlen in He'.
  set (rank := inject_Z (Z.of_nat (length s - 1)) * q / 100) in *.
  set (lo := Z.to_nat (Qfloor rank)) in *.
  pose proof (sorted_perm_nth s s' lo Hs Hs' Hss) as Hlo.
  assert (nth (S lo) s (nth lo s 0) == nth (S lo) s' (nth lo s' 0)) as Hhi.
  { destruct (Nat.lt_ge_cases (S lo) (length s)) as [Hin | Hout].
    - rewrite (nth_indep s (nth lo s 0) 0 Hin).
      rewrite (nth_indep s' (nth lo s' 0) 0) by lia.
      apply sorted_perm_nth; assumption.
    - rewrite (nth_overflow s (nth lo s 0)) by lia.
      rewrite (nth_overflow s' (nth lo s' 0)) by lia. exact Hlo. }
  rewrite He, He'.
  set (a := nth lo s 0) in *. set (a' := nth lo s' 0) in *.
  set (b := nth (S lo) s a) in *. set (b' := nth (S lo) s' a') in *.
  rewrite Hlo, Hhi. reflexivity.
Qed.

(** ** Gate B against the walk of the specification *)

Lemma boundary_path_spec_walk (roi : Roi) :
  boundary_path (inset_left roi) (inset_right roi)
    (inset_top roi) (inset_bottom roi)
  = spec_walk roi.
Proof.
  unfold boundary_path, spec_walk, py_range, py_range_down. cbv zeta.
  rewrite !map_map.
  replace (inset_right roi + 1 - inset_left roi)%Z
    with (inset_right roi - inset_left roi + 1)%Z by lia.
  replace (inset_bottom roi + 1 - (inset_top roi + 1))%Z
    with (inset_bottom roi - inset_top roi)%Z by lia.
  replace (inset_right roi - 1 - (inset_left roi - 1))%Z
    with (inset_right roi - inset_left roi)%Z by lia.
  replace (inset_bottom roi - 1 - inset_top roi)%Z
    with (inset_bottom roi - inset_top roi - 1)%Z by lia.
  reflexivity.
Qed.

Lemma nth_error_map_seq {A} (f : nat -> A) (n k : nat) :
  (k < n)%nat -> nth_error (map f (seq 0 n)) k = Some (f k).
Proof.
  intros Hk. rewrite nth_error_map.
  rewrite (nth_error_nth' (seq 0 n) O) by (rewrite length_seq; exact Hk).
  rewrite seq_nth by exact Hk. reflexivity.
Qed.

(** The point of the walk at each index: the four edges in turn. *)
Lemma spec_walk_at (roi : Roi) (i : nat) :
  (inset_left roi < inset_right roi)%Z ->
  (inset_top roi < inset_bottom roi)%Z ->
  let l := inset_left roi in
  let r := inset_right roi in
  let t := inset_top roi in
  let b := inset_bottom roi in
  let z := Z.of_nat i in
  (z < 2 * (r - l) + 2 * (b - t))%Z ->
  nth_error (spec_walk roi) i
  = Some (if (z <=? r - l)%Z then (l + z, t)%Z
          else if (z <=? r - l + (b - t))%Z then (r, t + (z - (r - l)))%Z
          else if (z <=? 2 * (r - l) + (b - t))%Z
               then (r - (z - (r - l) - (b - t)), b)%Z
               else (l, b - (z - 2 * (r - l) - (b - t)))%Z).
Proof.
  intros Hlr Htb. cbv zeta. intros Hz. unfold spec_walk. cbv zeta.
  set (l := inset_left roi) in *. set (r := inset_right roi) in *.
  set (t := inset_top roi) in *. set (b := inset_bottom roi) in *.
  destruct (Z.leb_spec (Z.of_nat i) (r - l)) as [H1 | H1].
  - rewrite nth_error_app1 by (rewrite length_map, length_seq; lia).
    rewrite nth_error_map_seq by lia. reflexivity.
  - rewrite nth_error_app2 by (rewrite length_map, length_seq; lia).
    rewrite length_map, length_seq.
    destruct (Z.leb_spec (Z.of_nat i) (r - l + (b - t))) as [H2 | H2].
    + rewrite nth_error_app1 by (rewrite length_map, length_seq; lia).
      rewrite nth_error_map_seq by lia. f_equal. f_equal. lia.
    + rewrite nth_error_app2 by (rewrite length_map, length_seq; lia).
      rewrite length_map, length_seq.
      destruct (Z.leb_spec (Z.of_nat i) (2 * (r - l) + (b - t))) as [H3 | H3].
      * rewrite nth_error_app1 by (rewrite length_map, length_seq; lia).
        rewrite nth_error_map_seq by lia. f_equal. f_equal. lia.
      * rewrite nth_error_app2 by (rewrite length_map, length_seq; lia).
        rewrite length_map, length_seq.
        rewrite nth_error_map_seq by lia. f_equal. f_equal. lia.
Qed.

Lemma spec_walk_length (roi : Roi) :
  (inset_left roi < inset_right roi)%Z ->
  (inset_top roi < inset_bottom roi)%Z ->
  Z.of_nat (length (spec_walk roi))
  = (2 * (inset_right roi - inset_left roi)
     + 2 * (inset_bottom roi - inset_top roi))%Z.
Proof.
  intros Hlr Htb. rewrite <- boundary_path_spec_walk.
  apply boundary_path_length; assumption.
Qed.

Lemma spec_walk_edges (roi : Roi) :
  (inset_left roi < inset_right roi)%Z ->
  (inset_top roi < inset_bottom roi)%Z ->
  let l := inset_left roi in
  let r := inset_right roi in
  let t := inset_top roi in
  let b := inset_bottom roi in
  (forall k, (0 <= k <= r - l)%Z ->
     nth_error (spec_walk roi) (Z.to_nat k) = Some (l + k, t)%Z) /\
  (forall k, (0 <= k <= b - t)%Z ->
     nth_error (spec_walk roi) (Z.to_nat (r - l + k)) = Some (r, t + k)%Z) /\
  (forall k, (0 <= k <= r - l)%Z ->
     nth_error (spec_walk roi) (Z.to_nat (r - l + (b - t) + k))
     = Some (r - k, b)%Z) /\
  (forall k, (0 <= k < b - t)%Z ->
     nth_error (spec_walk roi) (Z.to_nat (2 * (r - l) + (b - t) + k))
     = Some (l, b - k)%Z).
Proof.
  intros Hlr Htb. cbv zeta.
  set (l := inset_left roi) in *. set (r := inset_right roi) in *.
  set (t := inset_top roi) in *. set (b := inset_bottom roi) in *.
  repeat split; intros k Hk;
    (rewrite (spec_walk_at roi _ Hlr Htb) by (rewrite Z2Nat.id; fold l r t b; lia));
    fold l r t b; rewrite Z2Nat.id by lia;
    repeat (match goal with
            | |- context [(?a <=? ?c)%Z] => destruct (Z.leb_spec a c)
            end);
    f_equal; f_equal; lia.
Qed.

Lemma some_inj {A} (a b : A) : Some a = Some b -> a = b.
Proof. intros H. inversion H. reflexivity. Qed.

Lemma some_pair_inj (a b c d : Z) :
  Some (a, b) = Some (c, d) -> a = c /\ b = d.
Proof. intros H. inversion H. split; reflexivity. Qed.

Lemma spec_walk_NoDup (roi : Roi) :
  (inset_left roi < inset_right roi)%Z ->
  (inset_top roi < inset_bottom roi)%Z ->
  NoDup (spec_walk roi).
Proof.
  intros Hlr Htb. apply NoDup_nth_error. intros i j Hi E.
  pose proof (spec_walk_length roi Hlr Htb) as Hlen.
  assert (j < length (spec_walk roi))%nat as Hj.
  { apply nth_error_Some. rewrite <- E. apply nth_error_Some. exact Hi. }
  rewrite (spec_walk_at roi i Hlr Htb) in E by lia.
  rewrite (spec_walk_at roi j Hlr Htb) in E by lia.
  set (l := inset_left roi) in *. set (r := inset_right roi) in *.
  set (t := inset_top roi) in *. set (b := inset_bottom roi) in *.
  repeat (match type of E with
          | context [(?a <=? ?c)%Z] => destruct (Z.leb_spec a c)
          end);
    cbv iota in E; apply some_pair_inj in E; lia.
Qed.

Lemma spec_walk_closed (roi : Roi) (i : nat) (p q : Z * Z) :
  (inset_left roi < inset_right roi)%Z ->
  (inset_top roi < inset_bottom roi)%Z ->
  nth_error (spec_walk roi) i = Some p ->
  nth_error (spec_walk roi) (S i mod length (spec_walk roi)) = Some q ->
  spec_neighbours p q.
Proof.
  intros Hlr Htb Hp Hq.
  pose proof (spec_walk_length roi Hlr Htb) as Hlen.
  assert (i < length (spec_walk roi))%nat as Hi
    by (apply nth_error_Some; rewrite Hp; discriminate).
  rewrite (spec_walk_at roi i Hlr Htb) in Hp by lia.
  destruct (Nat.eq_dec (S i) (length (spec_walk roi))) as [Hlast | Hmore].
  - rewrite <- Hlast, Nat.Div0.mod_same in Hq.
    rewrite (spec_walk_at roi 0 Hlr Htb) in Hq by lia.
    set (l := inset_left roi) in *. set (r := inset_right roi) in *.
    set (t := inset_top roi) in *. set (b := inset_bottom roi) in *.
    repeat (match type of Hp with
            | context [(?a <=? ?c)%Z] => destruct (Z.leb_spec a c)
            end);
      repeat (match type of Hq with
              | context [(?a <=? ?c)%Z] => destruct (Z.leb_spec a c)
              end);
      cbv iota in Hp, Hq; apply some_inj in Hp, Hq; subst p q;
      unfold spec_neighbours; cbn [fst snd]; lia.
  - rewrite Nat.mod_small in Hq by lia.
    rewrite (spec_walk_at roi (S i) Hlr Htb) in Hq by lia.
    set (l := inset_left roi) in *. set (r := inset_right roi) in *.
    set (t := inset_top roi) in *. set (b := inset_bottom roi) in *.
    repeat (match type of Hp with
            | context [(?a <=? ?c)%Z] => destruct (Z.leb_spec a c)
            end);
      repeat (match type of Hq with
              | context [(?a <=? ?c)%Z] => destruct (Z.leb_spec a c)
              end);
      cbv iota in Hp, Hq; apply some_inj in Hp, Hq; subst p q;
      unfold spec_neighbours; cbn [fst snd]; lia.
Qed.

Lemma in_spec_walk (roi : Roi) (p : Z * Z) :
  (inset_left roi < inset_right roi)%Z ->
  (inset_top roi < inset_bottom roi)%Z ->
  In p (spec_walk roi) <-> on_inset_perimeter roi p.
Proof.
  intros Hlr Htb. rewrite <- boundary_path_spec_walk.
  destruct p as [x y]. unfold on_inset_perimeter.
  apply in_boundary_path; assumption.
Qed.

Lemma gate_b_spec_walk (blurred : LumaField) (roi : Roi) :
  roi_inside roi blurred ->
  (inset_left roi < inset_right roi)%Z ->
  (inset_top roi < inset_bottom roi)%Z ->
  gate_b_transition_count blurred roi
  = Ok (spec_transitions (map (spec_window_mean blurred) (spec_walk roi)),
        (4 <=? spec_transitions
                 (map (spec_window_mean blurred) (spec_walk roi)))%Z,
        map (spec_window_mean blurred) (spec_walk roi)).
Proof.
  intros Hin Hlr Htb. rewrite <- boundary_path_spec_walk.
  apply gate_b_samples; assumption.
Qed.

(** ** Gates A and B: the contracts *)

Section GateContractsAB.

Variable gaussian_blur : LumaField -> Z -> LumaField.
Variable open_image : string -> PixelBuffer.



End GateContractsAB.

Lemma ok_inj {A} (a b : A) : Ok a = Ok b -> a = b.
Proof. intros H. inversion H. reflexivity. Qed.


